(** * Live voice session of Liquid-Metal AI Studio: codec, scheduler,
      transcript assembler and session controller.

    Shallow embedding of [services/geminiService.ts] (the helpers
    [decodeAudioData], [encodeAudioData], [convertPCMToAudioBuffer]) and of
    the [LiveVoice] component ([createBlob], [connect], the [onopen],
    [onmessage], [onclose], [onerror] callbacks, [disconnect] and the
    connect button).

    Conventions of the embedding.
    - A JavaScript string is the list of its UTF-16 code units ([N]).
    - A [Uint8Array] is a [list byte]; an [Int16Array] a list of [Z] in
      [-32768, 32767]; typed-array stores wrap (ToUint8, ToInt16).
    - A JavaScript number holding an audio sample is an exact rational
      ([Q]), an infinity or [NaN]; a time is an exact rational. Scaling by
      32768 and dividing by 32768.0 are exact in binary floating point, so
      the codec is modelled exactly on finite samples; sums of times are
      idealised (no rounding).
    - A thrown exception is a result [Err e]; the refs and React state
      written before the throw keep their new values.
    - An async handler is taken as one step: nothing else runs across its
      [await].
    - A React setter called with a value is applied at once, since the
      value does not depend on when React processes it. A setter called
      with an updater function queues the function; React runs it inside
      the call or during the next render, and it reads the refs as they are
      when it runs. *)

From Stdlib Require Import ZArith NArith QArith Qround Qminmax Qabs Lia ZifyNat.
From Stdlib Require Import Strings.String Strings.Ascii Strings.Byte DecimalString.
From stdpp Require Import gmap list.

Local Open Scope N_scope.

(** ** JavaScript values *)

Definition code_unit := N.
Definition jsstring := list code_unit.

(** A string literal of the source, as code units. *)
Definition lit (s : string) : jsstring :=
  map N_of_ascii (list_ascii_of_string s).

(** Truthiness of a string: the empty string is the only falsy one. *)
Definition truthy (s : jsstring) : bool :=
  match s with [] => false | _ => true end.

Inductive JsError :=
  | InvalidCharacterError   (* atob / btoa *)
  | RangeError              (* new Int16Array(buffer) on an odd byte length *)
  | NotSupportedError.      (* createBuffer with a zero dimension *)

Inductive result (A : Type) :=
  | Ok (a : A)
  | Err (e : JsError).
Arguments Ok {A} a.
Arguments Err {A} e.

Definition is_err {A} (r : result A) : bool :=
  match r with Err _ => true | Ok _ => false end.

(** ** The platform's base64 primitives, [btoa] and [atob] *)

Module Base64.

Definition pad_char : N := 61.   (* '=' *)

(** The base64 alphabet: A-Z, a-z, 0-9, '+', '/'. *)
Definition b64_char (v : N) : N :=
  if v <? 26 then 65 + v
  else if v <? 52 then 97 + (v - 26)
  else if v <? 62 then 48 + (v - 52)
  else if v =? 62 then 43
  else 47.

Definition b64_val (c : N) : option N :=
  if (65 <=? c) && (c <=? 90) then Some (c - 65)
  else if (97 <=? c) && (c <=? 122) then Some (c - 97 + 26)
  else if (48 <=? c) && (c <=? 57) then Some (c - 48 + 52)
  else if c =? 43 then Some 62
  else if c =? 47 then Some 63
  else None.

(** Three octets give four sextets; a tail of one or two octets gives two
    or three sextets, the missing bits being zero. *)
Fixpoint to_sextets (l : list N) : list N :=
  match l with
  | a :: b :: c :: r =>
      a / 4 :: (a mod 4) * 16 + b / 16 :: (b mod 16) * 4 + c / 64
        :: c mod 64 :: to_sextets r
  | [a; b] => [a / 4; (a mod 4) * 16 + b / 16; (b mod 16) * 4]
  | [a] => [a / 4; (a mod 4) * 16]
  | [] => []
  end.

Fixpoint padding (l : list N) : list N :=
  match l with
  | _ :: _ :: _ :: r => padding r
  | [_; _] => [pad_char]
  | [_] => [pad_char; pad_char]
  | [] => []
  end.

(** The encoding without its padding. *)
Definition body (l : list N) : list N := map b64_char (to_sextets l).

(** [btoa]: throws InvalidCharacterError ([None]) when a code unit is
    above 255. *)
Definition btoa (s : jsstring) : option jsstring :=
  if forallb (fun c => c <=? 255) s
  then Some (body s ++ padding s)
  else None.

Definition is_ascii_whitespace (c : N) : bool :=
  (c =? 9) || (c =? 10) || (c =? 12) || (c =? 13) || (c =? 32).

(** Removes one or two trailing '='. *)
Definition strip_padding (s : list N) : list N :=
  match rev s with
  | c1 :: c2 :: r =>
      if c1 =? pad_char
      then if c2 =? pad_char then rev r else rev (c2 :: r)
      else s
  | [c1] => if c1 =? pad_char then [] else s
  | [] => s
  end.

(** Four sextets give three octets; two or three trailing sextets give
    one or two octets, the surplus low bits being discarded. *)
Fixpoint from_sextets (l : list N) : list N :=
  match l with
  | s1 :: s2 :: s3 :: s4 :: r =>
      s1 * 4 + s2 / 16 :: (s2 mod 16) * 16 + s3 / 4 :: (s3 mod 4) * 64 + s4
        :: from_sextets r
  | [s1; s2; s3] => [s1 * 4 + s2 / 16; (s2 mod 16) * 16 + s3 / 4]
  | [s1; s2] => [s1 * 4 + s2 / 16]
  | _ => []
  end.

(** [atob], the forgiving base64 decoder: strip ASCII whitespace; when the
    length is a multiple of four drop up to two trailing '='; fail on a
    length of 1 modulo 4 or on a character outside the alphabet. *)
Definition atob (s : jsstring) : option jsstring :=
  let d := List.filter (fun c => negb (is_ascii_whitespace c)) s in
  let d := if (length d mod 4 =? 0)%nat then strip_padding d else d in
  if (length d mod 4 =? 1)%nat then None
  else from_sextets <$> mapM b64_val d.

End Base64.

(** ** services/geminiService.ts: transport encoding *)

(** ToUint8, the conversion of a typed-array store into a [Uint8Array]. *)
Definition to_uint8 (n : N) : byte :=
  default "000"%byte (Byte.of_N (n mod 256)).

(** [String.fromCharCode(bytes[i])] for a byte. *)
Definition fromCharCode (b : byte) : N := Byte.to_N b.

Definition decodeAudioData (base64 : jsstring) : option (list byte) :=
  binaryString ← Base64.atob base64;
  Some (map to_uint8 binaryString).

Definition encodeAudioData (bytes : list byte) : option jsstring :=
  Base64.btoa (map fromCharCode bytes).

(** ** Numbers, typed arrays and audio buffers *)

(** A JavaScript number as far as audio samples need it. *)
Inductive number :=
  | Fin (q : Q)
  | PosInf
  | NegInf
  | NaN.

(** [x * 32768], exact on finite values. *)
Definition times32768 (x : number) : number :=
  match x with
  | Fin q => Fin (q * 32768)
  | other => other
  end.

(** Truncation of a rational towards zero. *)
Definition truncQ (q : Q) : Z := Z.quot (Qnum q) (Zpos (Qden q)).

(** Two's-complement wrap into [-32768, 32767]. *)
Definition wrap16 (z : Z) : Z := ((z + 32768) mod 65536 - 32768)%Z.

(** ToInt16, the conversion of a store into an [Int16Array]: truncate, then
    wrap modulo 2^16; NaN and the infinities become 0. *)
Definition ToInt16 (x : number) : Z :=
  match x with
  | Fin q => wrap16 (truncQ q)
  | _ => 0%Z
  end.

(** The body of the loop of [createBlob]: [int16[i] = data[i] * 32768]. *)
Definition floatToPcm16 (x : number) : Z := ToInt16 (times32768 x).

(** The body of the loop of [convertPCMToAudioBuffer]:
    [dataInt16[k] / 32768.0]. *)
Definition pcm16ToFloat (z : Z) : number := Fin (inject_Z z / 32768).

(** The two bytes of an int16, little-endian, as [new Uint8Array(int16.buffer)]
    shows them. *)
Definition int16_bytes (z : Z) : list byte :=
  let u := (z mod 65536)%Z in
  [to_uint8 (Z.to_N (u mod 256)); to_uint8 (Z.to_N (u / 256))].

(** The int16 read from two little-endian bytes. *)
Definition int16_of_bytes (lo hi : byte) : Z :=
  wrap16 (Z.of_N (Byte.to_N lo) + 256 * Z.of_N (Byte.to_N hi)).

Fixpoint int16_pairs (bs : list byte) : list Z :=
  match bs with
  | lo :: hi :: r => int16_of_bytes lo hi :: int16_pairs r
  | _ => []
  end.

(** [new Int16Array(data.buffer)]: RangeError when the byte length of the
    buffer is not a multiple of 2. *)
Definition Int16Array_of_buffer (bs : list byte) : result (list Z) :=
  if Nat.even (length bs) then Ok (int16_pairs bs) else Err RangeError.

Record AudioBuffer := {
  numberOfChannels : nat;
  ab_length : nat;               (* sample-frames *)
  sampleRate : positive;
  channelData : list (list number)
}.

(** [audioBuffer.duration], in seconds. *)
Definition duration (b : AudioBuffer) : Q :=
  Z.of_nat (ab_length b) # sampleRate b.

(** [ctx.createBuffer(numberOfChannels, length, sampleRate)]: the length is
    already converted to an unsigned integer (truncated); zero channels or
    zero frames raise NotSupportedError; the channels start zeroed. The
    upper limits of the platform on channels, frames and rate are left
    out. *)
Definition createBuffer (numChannels len : nat) (rate : positive)
  : result AudioBuffer :=
  match numChannels, len with
  | O, _ | _, O => Err NotSupportedError
  | _, _ => Ok {| numberOfChannels := numChannels;
                  ab_length := len;
                  sampleRate := rate;
                  channelData := replicate numChannels (replicate len (Fin 0)) |}
  end.

(** The inner loop of [convertPCMToAudioBuffer] for one channel:
    [for (i = 0; i < frameCount; i++) channelData[i] = dataInt16[i *
    numChannels + channel] / 32768.0], where [frameCount = n / numChannels]
    may be fractional, so [i] runs while [i * numChannels < n]. A read past
    the end of [dataInt16] is [undefined], which divides to NaN; a store
    past the end of [channelData] is ignored. *)
Fixpoint fill_channel_from (fuel i : nat) (dataInt16 : list Z)
    (numChannels channel : nat) (cd : list number) : list number :=
  match fuel with
  | O => cd
  | S fuel' =>
      if (i * numChannels <? length dataInt16)%nat
      then fill_channel_from fuel' (S i) dataInt16 numChannels channel
             (<[ i := match dataInt16 !! (i * numChannels + channel)%nat with
                      | Some d => pcm16ToFloat d
                      | None => NaN
                      end ]> cd)
      else cd
  end.

(** With at least one channel the loop ends within [length dataInt16]
    iterations. *)
Definition fill_channel (dataInt16 : list Z) (numChannels channel : nat)
    (channelData0 : list number) : list number :=
  fill_channel_from (length dataInt16) 0 dataInt16 numChannels channel
    channelData0.

Definition convertPCMToAudioBuffer (data : list byte) (rate : positive)
    (numChannels : nat) : result AudioBuffer :=
  match Int16Array_of_buffer data with
  | Err e => Err e
  | Ok dataInt16 =>
      (* frameCount = dataInt16.length / numChannels, truncated by createBuffer *)
      match createBuffer numChannels (length dataInt16 / numChannels) rate with
      | Err e => Err e
      | Ok buffer =>
          Ok {| numberOfChannels := numberOfChannels buffer;
                ab_length := ab_length buffer;
                sampleRate := sampleRate buffer;
                channelData :=
                  imap (fun channel cd => fill_channel dataInt16 numChannels channel cd)
                       (channelData buffer) |}
      end
  end.

(** ** LiveVoice: the outbound blob *)

Record Blob := { blob_data : jsstring; mimeType : jsstring }.

Definition createBlob (data : list number) : option Blob :=
  let int16 := map floatToPcm16 data in
  encoded ← encodeAudioData (flat_map int16_bytes int16);
  Some {| blob_data := encoded; mimeType := lit "audio/pcm;rate=16000" |}.

(** ** LiveVoice: the session *)

Inductive Status := disconnected | connecting | connected | error.

Inductive Role := user | model.

(** [ChatMessage] of types.ts (the optional [sources] field is never set
    here). *)
Record ChatMessage := {
  id : jsstring;
  role : Role;
  text : jsstring;
  timestamp : Z
}.

(** A state update queued by [setTranscript] with an updater function. React
    runs an updater either inside the call (its result is then [Computed])
    or during the next render; the two updaters of the source are the
    closures of lines 152-157 and 163-168. *)
Inductive TranscriptUpdate :=
  | Computed (entry : ChatMessage)
  | UserUpdater
  | ModelUpdater.

Inductive AudioContextState := suspended | running | closed.

Record AudioContext := {
  ctx_sampleRate : positive;
  ctx_state : AudioContextState
}.

(** An [AudioBufferSourceNode]: its buffer, the time given to [start] and
    whether [stop] was called on it. *)
Record SourceNode := {
  node_buffer : AudioBuffer;
  node_start : option Q;
  node_stopped : bool
}.

Record MediaStream := { tracks_live : bool }.

(** A [ScriptProcessorNode]; [proc_session] is the session promise captured
    by its [onaudioprocess] closure. *)
Record Processor := { proc_session : nat; proc_connected : bool }.

Record RemoteSession := { session_closed : bool }.

(** The React state of the component ([useState]); [queued] holds the
    updates of [transcript] that were passed as updater functions and that
    the next render will apply. *)
Record UI := {
  isConnected : bool;
  status : Status;
  volume : Q;
  errorMessage : jsstring;
  permissionDenied : bool;
  transcript : list ChatMessage;
  queued : list TranscriptUpdate;
  realtimeText : option (Role * jsstring)
}.

Definition set_isConnected (v : bool) (r : UI) : UI :=
  {| isConnected := v; status := status r; volume := volume r; errorMessage
     := errorMessage r; permissionDenied := permissionDenied r; transcript
     := transcript r; queued := queued r; realtimeText := realtimeText r |}.
Definition set_status (v : Status) (r : UI) : UI :=
  {| isConnected := isConnected r; status := v; volume := volume r;
     errorMessage := errorMessage r; permissionDenied := permissionDenied r;
     transcript := transcript r; queued := queued r; realtimeText :=
     realtimeText r |}.
Definition set_volume (v : Q) (r : UI) : UI :=
  {| isConnected := isConnected r; status := status r; volume := v;
     errorMessage := errorMessage r; permissionDenied := permissionDenied r;
     transcript := transcript r; queued := queued r; realtimeText :=
     realtimeText r |}.
Definition set_errorMessage (v : jsstring) (r : UI) : UI :=
  {| isConnected := isConnected r; status := status r; volume := volume r;
     errorMessage := v; permissionDenied := permissionDenied r; transcript
     := transcript r; queued := queued r; realtimeText := realtimeText r |}.
Definition set_permissionDenied (v : bool) (r : UI) : UI :=
  {| isConnected := isConnected r; status := status r; volume := volume r;
     errorMessage := errorMessage r; permissionDenied := v; transcript :=
     transcript r; queued := queued r; realtimeText := realtimeText r |}.
Definition set_transcript (v : list ChatMessage) (r : UI) : UI :=
  {| isConnected := isConnected r; status := status r; volume := volume r;
     errorMessage := errorMessage r; permissionDenied := permissionDenied r;
     transcript := v; queued := queued r; realtimeText := realtimeText r |}.
Definition set_queued (v : list TranscriptUpdate) (r : UI) : UI :=
  {| isConnected := isConnected r; status := status r; volume := volume r;
     errorMessage := errorMessage r; permissionDenied := permissionDenied r;
     transcript := transcript r; queued := v; realtimeText := realtimeText r
     |}.
Definition set_realtimeText (v : option (Role * jsstring)) (r : UI) : UI :=
  {| isConnected := isConnected r; status := status r; volume := volume r;
     errorMessage := errorMessage r; permissionDenied := permissionDenied r;
     transcript := transcript r; queued := queued r; realtimeText := v |}.

(** The refs of the component ([useRef]). A reference to a browser object
    is the index of the object in the matching store of [World]. *)
Record Refs := {
  audioContextRef : option AudioContext;
  inputContextRef : option AudioContext;
  sessionRef : option nat;
  nextStartTimeRef : Q;
  sourcesRef : gset nat;
  streamRef : option nat;
  processorRef : option nat;
  currentInputBuffer : jsstring;
  currentOutputBuffer : jsstring
}.

Definition set_audioContextRef (v : option AudioContext) (r : Refs) : Refs :=
  {| audioContextRef := v; inputContextRef := inputContextRef r; sessionRef
     := sessionRef r; nextStartTimeRef := nextStartTimeRef r; sourcesRef :=
     sourcesRef r; streamRef := streamRef r; processorRef := processorRef r;
     currentInputBuffer := currentInputBuffer r; currentOutputBuffer :=
     currentOutputBuffer r |}.
Definition set_inputContextRef (v : option AudioContext) (r : Refs) : Refs :=
  {| audioContextRef := audioContextRef r; inputContextRef := v; sessionRef
     := sessionRef r; nextStartTimeRef := nextStartTimeRef r; sourcesRef :=
     sourcesRef r; streamRef := streamRef r; processorRef := processorRef r;
     currentInputBuffer := currentInputBuffer r; currentOutputBuffer :=
     currentOutputBuffer r |}.
Definition set_sessionRef (v : option nat) (r : Refs) : Refs :=
  {| audioContextRef := audioContextRef r; inputContextRef :=
     inputContextRef r; sessionRef := v; nextStartTimeRef :=
     nextStartTimeRef r; sourcesRef := sourcesRef r; streamRef := streamRef
     r; processorRef := processorRef r; currentInputBuffer :=
     currentInputBuffer r; currentOutputBuffer := currentOutputBuffer r |}.
Definition set_nextStartTimeRef (v : Q) (r : Refs) : Refs :=
  {| audioContextRef := audioContextRef r; inputContextRef :=
     inputContextRef r; sessionRef := sessionRef r; nextStartTimeRef := v;
     sourcesRef := sourcesRef r; streamRef := streamRef r; processorRef :=
     processorRef r; currentInputBuffer := currentInputBuffer r;
     currentOutputBuffer := currentOutputBuffer r |}.
Definition set_sourcesRef (v : gset nat) (r : Refs) : Refs :=
  {| audioContextRef := audioContextRef r; inputContextRef :=
     inputContextRef r; sessionRef := sessionRef r; nextStartTimeRef :=
     nextStartTimeRef r; sourcesRef := v; streamRef := streamRef r;
     processorRef := processorRef r; currentInputBuffer :=
     currentInputBuffer r; currentOutputBuffer := currentOutputBuffer r |}.
Definition set_streamRef (v : option nat) (r : Refs) : Refs :=
  {| audioContextRef := audioContextRef r; inputContextRef :=
     inputContextRef r; sessionRef := sessionRef r; nextStartTimeRef :=
     nextStartTimeRef r; sourcesRef := sourcesRef r; streamRef := v;
     processorRef := processorRef r; currentInputBuffer :=
     currentInputBuffer r; currentOutputBuffer := currentOutputBuffer r |}.
Definition set_processorRef (v : option nat) (r : Refs) : Refs :=
  {| audioContextRef := audioContextRef r; inputContextRef :=
     inputContextRef r; sessionRef := sessionRef r; nextStartTimeRef :=
     nextStartTimeRef r; sourcesRef := sourcesRef r; streamRef := streamRef
     r; processorRef := v; currentInputBuffer := currentInputBuffer r;
     currentOutputBuffer := currentOutputBuffer r |}.
Definition set_currentInputBuffer (v : jsstring) (r : Refs) : Refs :=
  {| audioContextRef := audioContextRef r; inputContextRef :=
     inputContextRef r; sessionRef := sessionRef r; nextStartTimeRef :=
     nextStartTimeRef r; sourcesRef := sourcesRef r; streamRef := streamRef
     r; processorRef := processorRef r; currentInputBuffer := v;
     currentOutputBuffer := currentOutputBuffer r |}.
Definition set_currentOutputBuffer (v : jsstring) (r : Refs) : Refs :=
  {| audioContextRef := audioContextRef r; inputContextRef :=
     inputContextRef r; sessionRef := sessionRef r; nextStartTimeRef :=
     nextStartTimeRef r; sourcesRef := sourcesRef r; streamRef := streamRef
     r; processorRef := processorRef r; currentInputBuffer :=
     currentInputBuffer r; currentOutputBuffer := v |}.

(** The browser and network objects the component has created: buffer
    source nodes, microphone streams, script processors and remote
    sessions. A new object is appended, so its reference is the length of
    the store before. *)
Record World := {
  nodes : list SourceNode;
  streams : list MediaStream;
  processors : list Processor;
  sessions : list RemoteSession
}.

Definition set_nodes (v : list SourceNode) (r : World) : World :=
  {| nodes := v; streams := streams r; processors := processors r; sessions
     := sessions r |}.
Definition set_streams (v : list MediaStream) (r : World) : World :=
  {| nodes := nodes r; streams := v; processors := processors r; sessions :=
     sessions r |}.
Definition set_processors (v : list Processor) (r : World) : World :=
  {| nodes := nodes r; streams := streams r; processors := v; sessions :=
     sessions r |}.
Definition set_sessions (v : list RemoteSession) (r : World) : World :=
  {| nodes := nodes r; streams := streams r; processors := processors r;
     sessions := v |}.
Record State := { ui : UI; refs : Refs; world : World }.

Definition upd_ui (f : UI -> UI) (s : State) : State :=
  {| ui := f (ui s); refs := refs s; world := world s |}.
Definition upd_refs (f : Refs -> Refs) (s : State) : State :=
  {| ui := ui s; refs := f (refs s); world := world s |}.
Definition upd_world (f : World -> World) (s : State) : State :=
  {| ui := ui s; refs := refs s; world := f (world s) |}.

(** The component as first mounted. *)
Definition initial : State :=
  {| ui := {| isConnected := false; status := disconnected; volume := 0;
              errorMessage := []; permissionDenied := false;
              transcript := []; queued := []; realtimeText := None |};
     refs := {| audioContextRef := None; inputContextRef := None;
                sessionRef := None; nextStartTimeRef := 0;
                sourcesRef := ∅; streamRef := None; processorRef := None;
                currentInputBuffer := []; currentOutputBuffer := [] |};
     world := {| nodes := []; streams := []; processors := [];
                 sessions := [] |} |}.

(** A JavaScript exception as the catch block of [connect] inspects it. *)
Record Exception := { ex_name : jsstring; ex_message : jsstring }.

(** *** Strings *)

Fixpoint starts_with (needle hay : jsstring) : bool :=
  match needle, hay with
  | [], _ => true
  | _ :: _, [] => false
  | a :: n', b :: h' => (a =? b) && starts_with n' h'
  end.

(** [hay.includes(needle)] *)
Fixpoint includes (needle hay : jsstring) : bool :=
  starts_with needle hay
  || match hay with
     | [] => false
     | _ :: h' => includes needle h'
     end.

(** The code units [String.prototype.trim] removes: WhiteSpace and
    LineTerminator of ECMAScript. *)
Definition is_js_whitespace (c : N) : bool :=
  ((9 <=? c) && (c <=? 13)) || (c =? 32) || (c =? 160) || (c =? 5760)
  || ((8192 <=? c) && (c <=? 8202)) || (c =? 8232) || (c =? 8233)
  || (c =? 8239) || (c =? 8287) || (c =? 12288) || (c =? 65279).

Fixpoint trimStart (s : jsstring) : jsstring :=
  match s with
  | c :: r => if is_js_whitespace c then trimStart r else s
  | [] => []
  end.

Definition trimEnd (s : jsstring) : jsstring := rev (trimStart (rev s)).

Definition trim (s : jsstring) : jsstring := trimEnd (trimStart s).

(** [n.toString()] for an integral number. *)
Definition number_toString (z : Z) : jsstring :=
  lit (NilZero.string_of_int (Z.to_int z)).

(** *** Messages and their environment *)

(** The fields of a [LiveServerMessage] the handler reads. A transcription
    is [Some t] when [serverContent.inputTranscription] is present, [t]
    being its [text] ([None] when undefined); [audioData] is
    [serverContent?.modelTurn?.parts?.[0]?.inlineData?.data]. *)
Record LiveServerMessage := {
  inputTranscription : option (option jsstring);
  outputTranscription : option (option jsstring);
  turnComplete : bool;
  audioData : option jsstring;
  interrupted : bool
}.

(** What one run of the handler, and the render that follows it, read from
    the platform: the audio clock [ctx.currentTime]; the successive values
    of [Date.now()] during the handler and during the render; and, for the
    n-th updater function the handler passes to [setTranscript], whether
    React runs it inside the call ([eager n = true]: a root that renders
    synchronously, or the first update of an idle component) or during the
    next render ([eager n = false]: batched updates). *)
Record MsgEnv := {
  currentTime : Q;
  dateNow : nat -> Z;
  eager : nat -> bool;
  renderNow : nat -> Z
}.

(** How a handler ends: the state it leaves, and the exception when it
    threw (the promise of the async handler is then rejected). *)
Record Outcome := { post : State; thrown : option JsError }.

(** *** [onmessage] *)

Definition text_of (t : option (option jsstring)) : jsstring :=
  match t with
  | Some (Some txt) => txt
  | _ => []
  end.

(** Lines 133-139. *)
Definition on_inputTranscription (m : LiveServerMessage) (s : State) : State :=
  let txt := text_of (inputTranscription m) in
  if truthy txt then
    let buf := currentInputBuffer (refs s) ++ txt in
    upd_ui (set_realtimeText (Some (user, buf)))
      (upd_refs (set_currentInputBuffer buf) s)
  else s.

(** Lines 141-147. *)
Definition on_outputTranscription (m : LiveServerMessage) (s : State) : State :=
  let txt := text_of (outputTranscription m) in
  if truthy txt then
    let buf := currentOutputBuffer (refs s) ++ txt in
    upd_ui (set_realtimeText (Some (model, buf)))
      (upd_refs (set_currentOutputBuffer buf) s)
  else s.

(** The entry built by the updater of lines 152-157, from the refs and the
    clock as they are when the updater runs. *)
Definition user_entry (now : nat -> Z) (k : nat) (r : Refs) : ChatMessage :=
  {| id := number_toString (now k) ++ lit "-user";
     role := user;
     text := trim (currentInputBuffer r);
     timestamp := now (S k) |}.

(** The entry built by the updater of lines 163-168. *)
Definition model_entry (now : nat -> Z) (k : nat) (r : Refs) : ChatMessage :=
  {| id := number_toString (now k) ++ lit "-model";
     role := model;
     text := trim (currentOutputBuffer r);
     timestamp := now (S k) |}.

(** [setTranscript(updater)]: the update joins the queue. *)
Definition enqueue (update : TranscriptUpdate) (s : State) : State :=
  upd_ui (fun u => set_queued (queued u ++ [update]) u) s.

(** Lines 151-159: commit the user side. [j] counts the updater functions
    passed so far and [k] the readings of [Date.now()] made so far; the
    buffer is cleared right after the call of [setTranscript]. *)
Definition commit_user (env : MsgEnv) (j k : nat) (s : State)
  : State * nat * nat :=
  if truthy (trim (currentInputBuffer (refs s))) then
    let update := if eager env j
                  then Computed (user_entry (dateNow env) k (refs s))
                  else UserUpdater in
    (upd_refs (set_currentInputBuffer []) (enqueue update s),
     S j, if eager env j then S (S k) else k)
  else (s, j, k).

(** Lines 162-170: commit the model side. *)
Definition commit_model (env : MsgEnv) (j k : nat) (s : State)
  : State * nat * nat :=
  if truthy (trim (currentOutputBuffer (refs s))) then
    let update := if eager env j
                  then Computed (model_entry (dateNow env) k (refs s))
                  else ModelUpdater in
    (upd_refs (set_currentOutputBuffer []) (enqueue update s),
     S j, if eager env j then S (S k) else k)
  else (s, j, k).

(** Lines 149-173: the turn-complete branch. *)
Definition commitTurn (env : MsgEnv) (s : State) : State :=
  let '(s1, j1, k1) := commit_user env 0 0 s in
  let '(s2, _, _) := commit_model env j1 k1 s1 in
  upd_ui (set_realtimeText None) s2.

(** The queued updates applied in order, as the render does: an updater
    reads the refs as they are at the render. *)
Fixpoint run_updates (now : nat -> Z) (k : nat) (r : Refs)
    (q : list TranscriptUpdate) (t : list ChatMessage) : list ChatMessage :=
  match q with
  | [] => t
  | Computed entry :: q' => run_updates now k r q' (t ++ [entry])
  | UserUpdater :: q' =>
      run_updates now (S (S k)) r q' (t ++ [user_entry now k r])
  | ModelUpdater :: q' =>
      run_updates now (S (S k)) r q' (t ++ [model_entry now k r])
  end.

(** The render that follows a handler. *)
Definition render (now : nat -> Z) (s : State) : State :=
  upd_ui (fun u =>
            set_queued []
              (set_transcript
                 (run_updates now 0 (refs s) (queued u) (transcript u)) u)) s.

Definition on_turnComplete (env : MsgEnv) (m : LiveServerMessage) (s : State)
  : State :=
  if turnComplete m then commitTurn env s else s.

(** Lines 188-198: create the source node for a decoded buffer, start it at
    the cursor, advance the cursor by the duration and add the node to the
    active set. *)
Definition schedule (audioBuffer : AudioBuffer) (s : State) : State :=
  let source := length (nodes (world s)) in
  let start := nextStartTimeRef (refs s) in
  let s1 := upd_world (fun w =>
              set_nodes (nodes w ++ [ {| node_buffer := audioBuffer;
                                         node_start := Some start;
                                         node_stopped := false |} ]) w) s in
  let s2 := upd_refs (set_nextStartTimeRef (start + duration audioBuffer)%Q) s1 in
  upd_refs (fun r => set_sourcesRef (sourcesRef r ∪ {[ source ]}) r) s2.

(** Line 179: [nextStartTimeRef.current = Math.max(nextStartTimeRef.current,
    ctx.currentTime)]. *)
Definition raise_cursor (env : MsgEnv) (s : State) : State :=
  upd_refs (fun r =>
              set_nextStartTimeRef
                (Qmax (nextStartTimeRef r) (currentTime env)) r) s.

(** Lines 176-199: the audio branch. The cursor is raised to the clock
    before the payload is decoded, so that assignment survives a decoding
    exception. *)
Definition on_audio (env : MsgEnv) (m : LiveServerMessage) (s : State)
  : Outcome :=
  match audioData m, audioContextRef (refs s) with
  | Some base64Audio, Some ctx =>
      if truthy base64Audio then
        let s1 := raise_cursor env s in
        match decodeAudioData base64Audio with
        | None => {| post := s1; thrown := Some InvalidCharacterError |}
        | Some bytes =>
            match convertPCMToAudioBuffer bytes 24000 1 with
            | Err e => {| post := s1; thrown := Some e |}
            | Ok audioBuffer =>
                {| post := schedule audioBuffer s1; thrown := None |}
            end
        end
      else {| post := s; thrown := None |}
  | _, _ => {| post := s; thrown := None |}
  end.

(** [source.stop()] on every node of the set. *)
Definition stop_all (set : gset nat) (ns : list SourceNode) : list SourceNode :=
  imap (fun i n =>
          if decide (i ∈ set)
          then {| node_buffer := node_buffer n; node_start := node_start n;
                  node_stopped := true |}
          else n) ns.

(** Lines 202-206: the body of the interrupted branch. *)
Definition interrupt (s : State) : State :=
  let s1 := upd_world (fun w =>
              set_nodes (stop_all (sourcesRef (refs s)) (nodes w)) w) s in
  let s2 := upd_refs (set_sourcesRef ∅) s1 in
  let s3 := upd_refs (set_nextStartTimeRef 0) s2 in
  let s4 := upd_refs (set_currentOutputBuffer []) s3 in
  upd_ui (set_realtimeText None) s4.

Definition on_interrupted (m : LiveServerMessage) (s : State) : State :=
  if interrupted m then interrupt s else s.

(** Lines 129-208. An exception of the audio branch ends the handler, so the
    interrupted branch of the same message is not reached. *)
Definition onmessage (env : MsgEnv) (m : LiveServerMessage) (s : State)
  : Outcome :=
  let s1 := on_inputTranscription m s in
  let s2 := on_outputTranscription m s1 in
  let s3 := on_turnComplete env m s2 in
  let r := on_audio env m s3 in
  match thrown r with
  | Some e => r
  | None => {| post := on_interrupted m (post r); thrown := None |}
  end.

(** The ['ended'] listener of a source (lines 192-194). *)
Definition onended (source : nat) (s : State) : State :=
  upd_refs (fun r => set_sourcesRef (sourcesRef r ∖ {[ source ]}) r) s.

(** *** [onopen], [onclose], [onerror] *)

(** Lines 102-128; [session] is the session promise of the enclosing
    [connect] call. *)
Definition onopen (session : nat) (s : State) : State :=
  let s1 := upd_ui (set_isConnected true) (upd_ui (set_status connected) s) in
  match inputContextRef (refs s1), streamRef (refs s1) with
  | Some _, Some _ =>
      let processor := length (processors (world s1)) in
      upd_world (fun w =>
                   set_processors (processors w
                                   ++ [ {| proc_session := session;
                                           proc_connected := true |} ]) w)
        (upd_refs (set_processorRef (Some processor)) s1)
  | _, _ => s1
  end.

(** Lines 209-212. *)
Definition onclose (s : State) : State :=
  upd_ui (set_isConnected false) (upd_ui (set_status disconnected) s).

(** Lines 213-218. *)
Definition onerror (s : State) : State :=
  upd_ui (set_isConnected false)
    (upd_ui (set_status error)
       (upd_ui (set_errorMessage
                  (lit "Connection error. Check console for details.")) s)).

(** *** [connect] *)

(** What the platform answers during one [connect]: the state of a newly
    built [AudioContext], and for each call that can fail the exception it
    raises, if any. *)
Record ConnectEnv := {
  new_context_state : AudioContextState;
  resume_fails : option Exception;
  new_GoogleGenAI_fails : option Exception;
  getUserMedia_fails : option Exception
}.

(** Lines 42-54. *)
Definition initAudio (env : ConnectEnv) (s : State) : State * option Exception :=
  let s1 :=
    match audioContextRef (refs s) with
    | Some _ => s
    | None => upd_refs (set_audioContextRef
                          (Some {| ctx_sampleRate := 24000;
                                   ctx_state := new_context_state env |})) s
    end in
  let s2 :=
    match inputContextRef (refs s1) with
    | Some _ => s1
    | None => upd_refs (set_inputContextRef
                          (Some {| ctx_sampleRate := 16000;
                                   ctx_state := new_context_state env |})) s1
    end in
  match audioContextRef (refs s2) with
  | Some ctx =>
      match ctx_state ctx with
      | suspended =>
          match resume_fails env with
          | Some e => (s2, Some e)
          | None =>
              (upd_refs (set_audioContextRef
                           (Some {| ctx_sampleRate := ctx_sampleRate ctx;
                                    ctx_state := running |})) s2, None)
          end
      | _ => (s2, None)
      end
  | None => (s2, None)
  end.

(** Lines 69-74: what [connect] resets before the [try].
    [setTranscript([])] replaces whatever the queue would have produced. *)
Definition connect_reset (s : State) : State :=
  let s1 := upd_ui (set_errorMessage []) s in
  let s2 := upd_ui (set_status connecting) s1 in
  let s3 := upd_ui (set_permissionDenied false) s2 in
  let s4 := upd_ui (set_queued []) (upd_ui (set_transcript []) s3) in
  let s5 := upd_refs (set_currentInputBuffer []) s4 in
  upd_refs (set_currentOutputBuffer []) s5.

Definition str_eqb (a b : jsstring) : bool := bool_decide (a = b).

(** Lines 224-234: the catch block. *)
Definition connect_catch (e : Exception) (s : State) : State :=
  let s1 := upd_ui (set_status error) s in
  let s2 :=
    if includes (lit "Microphone") (ex_message e)
       || str_eqb (ex_name e) (lit "NotAllowedError")
       || str_eqb (ex_name e) (lit "PermissionDeniedError")
    then
      upd_ui (set_permissionDenied true)
        (upd_ui (set_errorMessage
                   (lit "Microphone access was denied. Please allow microphone permissions in your browser settings and reload the page.")) s1)
    else
      upd_ui (set_errorMessage (lit "Failed to connect. Please try again.")) s1
  in
  upd_ui (set_isConnected false) s2.

(** Line 83, when the promise of [getUserMedia] resolves: the new stream is
    kept in [streamRef]. *)
Definition acquire_stream (s : State) : State :=
  let stream := length (streams (world s)) in
  upd_refs (set_streamRef (Some stream))
    (upd_world (fun w =>
       set_streams (streams w ++ [ {| tracks_live := true |} ]) w) s).

(** Lines 90 and 222: [ai.live.connect] is async, so the call itself cannot
    throw; it yields the session promise, which is kept in [sessionRef]. *)
Definition open_session (s : State) : State :=
  let session := length (sessions (world s)) in
  upd_refs (set_sessionRef (Some session))
    (upd_world (fun w =>
       set_sessions (sessions w ++ [ {| session_closed := false |} ]) w) s).

(** Line 87: the error a refused microphone is rethrown as. *)
Definition microphone_error : Exception :=
  {| ex_name := lit "Error";
     ex_message := lit "Microphone permission denied" |}.

(** Lines 76-222: the [try] block. The microphone is requested before the
    remote session is opened. *)
Definition connect_try (env : ConnectEnv) (s : State) : State :=
  let (s1, failed) := initAudio env s in
  match failed with
  | Some e => connect_catch e s1
  | None =>
      match new_GoogleGenAI_fails env with
      | Some e => connect_catch e s1
      | None =>
          match getUserMedia_fails env with
          | Some permError =>
              connect_catch microphone_error
                (upd_ui (set_permissionDenied true) s1)
          | None => open_session (acquire_stream s1)
          end
      end
  end.

(** Lines 68-235. *)
Definition connect (env : ConnectEnv) (s : State) : State :=
  connect_try env (connect_reset s).

(** *** [disconnect] and the button *)

Definition stop_tracks (stream : option nat) (l : list MediaStream)
  : list MediaStream :=
  match stream with
  | Some i => <[ i := {| tracks_live := false |} ]> l
  | None => l
  end.

Definition disconnect_processor (p : option nat) (l : list Processor)
  : list Processor :=
  match p with
  | Some i => alter (fun x => {| proc_session := proc_session x;
                                 proc_connected := false |}) i l
  | None => l
  end.

Definition close_session (session : option nat) (l : list RemoteSession)
  : list RemoteSession :=
  match session with
  | Some i => <[ i := {| session_closed := true |} ]> l
  | None => l
  end.

(** Lines 237-264. [session_settled] tells whether the awaited session
    promise resolves; when it rejects, [disconnect] throws at its first
    statement and does nothing else. *)
Definition disconnect (session_settled : bool) (s : State) : State :=
  match sessionRef (refs s), session_settled with
  | Some _, false => s
  | _, _ =>
      let s1 := upd_world (fun w =>
                  set_sessions (close_session (sessionRef (refs s)) (sessions w)) w) s in
      let s2 := upd_world (fun w =>
                  set_streams (stop_tracks (streamRef (refs s)) (streams w)) w) s1 in
      let s3 := upd_world (fun w =>
                  set_processors
                    (disconnect_processor (processorRef (refs s)) (processors w)) w) s2 in
      let s4 := upd_refs (set_inputContextRef None) s3 in
      let s5 := upd_refs (set_audioContextRef None) s4 in
      let s6 := upd_world (fun w =>
                  set_nodes (stop_all (sourcesRef (refs s)) (nodes w)) w) s5 in
      let s7 := upd_refs (set_sourcesRef ∅) s6 in
      let s8 := upd_ui (set_status disconnected) s7 in
      let s9 := upd_ui (set_isConnected false) s8 in
      let s10 := upd_ui (set_volume 0) s9 in
      let s11 := upd_ui (set_errorMessage []) s10 in
      let s12 := upd_ui (set_permissionDenied false) s11 in
      upd_ui (set_realtimeText None) s12
  end.

(** What the platform answers to a click, whichever handler runs. *)
Record ClickEnv := { click_connect : ConnectEnv; click_settled : bool }.

(** Lines 390-392: [onClick={isConnected ? disconnect : connect}],
    [disabled={permissionDenied || status === 'connecting'}]. *)
Definition button_disabled (s : State) : bool :=
  permissionDenied (ui s)
  || match status (ui s) with connecting => true | _ => false end.

Definition click (env : ClickEnv) (s : State) : State :=
  if button_disabled s then s
  else if isConnected (ui s) then disconnect (click_settled env) s
  else connect (click_connect env) s.

(** *** Events *)

Inductive Event :=
  | Click (env : ClickEnv)
  | Open (session : nat)
  | Message (env : MsgEnv) (m : LiveServerMessage)
  | Close
  | ErrorEvent
  | Ended (source : nat)
  | Unmount (session_settled : bool).

(** An event runs its handler; the handler of a message is followed by the
    render that applies the queued updates of the transcript (no other
    handler queues any). *)
Definition handle (e : Event) (s : State) : State :=
  match e with
  | Click env => click env s
  | Open session => onopen session s
  | Message env m => render (renderNow env) (post (onmessage env m s))
  | Close => onclose s
  | ErrorEvent => onerror s
  | Ended source => onended source s
  | Unmount settled => disconnect settled s
  end.

(** The states the component can be in. *)
Inductive reachable : State -> Prop :=
  | reachable_initial : reachable initial
  | reachable_step e s : reachable s -> reachable (handle e s).

(** ** Observations used to state the properties *)

(** Messages that carry a single kind of payload. *)
Definition audio_message (base64Audio : jsstring) : LiveServerMessage :=
  {| inputTranscription := None; outputTranscription := None;
     turnComplete := false; audioData := Some base64Audio;
     interrupted := false |}.

Definition interrupted_message : LiveServerMessage :=
  {| inputTranscription := None; outputTranscription := None;
     turnComplete := false; audioData := None; interrupted := true |}.

Definition turnComplete_message : LiveServerMessage :=
  {| inputTranscription := None; outputTranscription := None;
     turnComplete := true; audioData := None; interrupted := false |}.

Definition input_message (txt : jsstring) : LiveServerMessage :=
  {| inputTranscription := Some (Some txt); outputTranscription := None;
     turnComplete := false; audioData := None; interrupted := false |}.

Definition output_message (txt : jsstring) : LiveServerMessage :=
  {| inputTranscription := None; outputTranscription := Some (Some txt);
     turnComplete := false; audioData := None; interrupted := false |}.

(** The text branches of the handler, which run before the audio branch. *)
Definition before_audio (env : MsgEnv) (m : LiveServerMessage) (s : State)
  : State :=
  on_turnComplete env m (on_outputTranscription m (on_inputTranscription m s)).

(** A message whose audio payload the handler decodes into [audioBuffer],
    and that does not carry the interrupted flag. *)
Definition decodes_to (m : LiveServerMessage) (audioBuffer : AudioBuffer)
  : Prop :=
  interrupted m = false
  ∧ ∃ base64Audio bytes,
      audioData m = Some base64Audio
      ∧ truthy base64Audio = true
      ∧ decodeAudioData base64Audio = Some bytes
      ∧ convertPCMToAudioBuffer bytes 24000 1 = Ok audioBuffer.


(** Messages handled one after the other, each with its own readings of the
    clocks and followed by its render. *)
Definition run_messages (frames : list (MsgEnv * LiveServerMessage))
    (s : State) : State :=
  fold_left (fun st f => handle (Message (fst f) (snd f)) st) frames s.

(** Start time and duration of the started sources of a list of nodes. *)
Definition timeline_of (ns : list SourceNode) : list (Q * Q) :=
  omap (fun nd => match node_start nd with
                  | Some t => Some (t, duration (node_buffer nd))
                  | None => None
                  end) ns.

(** Start time and duration of the sources created since the store of nodes
    had [n] elements, oldest first. *)
Definition scheduled_from (n : nat) (s : State) : list (Q * Q) :=
  timeline_of (drop n (nodes (world s))).

(** The timeline the handler builds from a cursor: each frame starts at the
    larger of the cursor and the clock read on its arrival, and moves the
    cursor to its own end. *)
Fixpoint stitched (cursor : Q) (clocks : list Q) (timeline : list (Q * Q))
  : Prop :=
  match clocks, timeline with
  | [], [] => True
  | c :: clocks', (t, d) :: timeline' =>
      t = Qmax cursor c ∧ (0 < d)%Q ∧ stitched (t + d)%Q clocks' timeline'
  | _, _ => False
  end.


(** The text entries of a transcript, without identities and timestamps. *)
Definition spoken (l : list ChatMessage) : list (Role * jsstring) :=
  map (fun e => (role e, text e)) l.

(** ** Concrete sessions used as test inputs *)

(** A platform that grants everything. *)
Definition granted : ConnectEnv :=
  {| new_context_state := running; resume_fails := None;
     new_GoogleGenAI_fails := None; getUserMedia_fails := None |}.

(** A platform whose user refuses the microphone. *)
Definition refused : ConnectEnv :=
  {| new_context_state := running; resume_fails := None;
     new_GoogleGenAI_fails := None;
     getUserMedia_fails :=
       Some {| ex_name := lit "NotAllowedError";
               ex_message := lit "Permission denied" |} |}.

(** A handler run at audio clock [t] under batched updates: every updater
    function runs during the render that follows. *)
Definition at_clock (t : Q) : MsgEnv :=
  {| currentTime := t;
     dateNow := fun k => (1700000000000 + Z.of_nat k)%Z;
     eager := fun _ => false;
     renderNow := fun k => (1700000000010 + Z.of_nat k)%Z |}.

(** The same on an idle component: React computes the first update of the
    handler inside the call, the later ones during the render. *)
Definition at_clock_idle (t : Q) : MsgEnv :=
  {| currentTime := t;
     dateNow := fun k => (1700000000000 + Z.of_nat k)%Z;
     eager := fun j => match j with O => true | _ => false end;
     renderNow := fun k => (1700000000010 + Z.of_nat k)%Z |}.

(** The same under a root that renders synchronously inside every setter:
    every updater function runs inside the call. *)
Definition at_clock_sync (t : Q) : MsgEnv :=
  {| currentTime := t;
     dateNow := fun k => (1700000000000 + Z.of_nat k)%Z;
     eager := fun _ => true;
     renderNow := fun k => (1700000000010 + Z.of_nat k)%Z |}.

(** A session that was opened after a successful [connect]. *)
Definition live : State := onopen 0 (connect granted initial).

(** The base64 text of two zero bytes: one sample, 1/24000 s of audio. *)
Definition one_sample : jsstring := lit "AAA=".

(** The base64 text of three bytes, which is not a whole number of
    samples. *)
Definition odd_payload : jsstring := lit "AAAA".


(** A live session with two sources queued and an agent partial on
    display. *)
Definition two_queued : State :=
  run_messages
    [ (at_clock 0, input_message (lit "stop"));
      (at_clock 0, output_message (lit "Once upon"));
      (at_clock 0, audio_message one_sample);
      (at_clock 0, audio_message one_sample) ] live.

(** A live session whose turn holds user text then agent text. *)
Definition hello_turn : State :=
  run_messages
    [ (at_clock 0, input_message (lit "hello"));
      (at_clock 0, output_message (lit "hi there")) ] live.

(** Six bytes: three samples, one and a half frames of two channels. *)
Definition six_bytes : list byte :=
  [ "001"; "000"; "255"; "255"; "000"; "128" ]%byte.

(** A payload of one blank: a non-empty string that [atob] decodes to no
    byte at all. *)
Definition blank_payload : jsstring := lit " ".


(** A first session that played one frame at clock 30, was ended with the
    button, and a second session opened by the next click. *)
Definition first_session_played : State :=
  run_messages [ (at_clock 30, audio_message one_sample) ] live.

Definition clicking : ClickEnv :=
  {| click_connect := granted; click_settled := true |}.

Definition second_session : State :=
  onopen 1 (click clicking (click clicking first_session_played)).

(** The end-to-end scenario of the specification: the agent's text arrives
    as 'He' then 'llo', the turn completes, and the next turn is interrupted
    while two sources are queued. *)
Definition scenario_partial : State :=
  run_messages
    [ (at_clock 0, output_message (lit "He"));
      (at_clock 0, output_message (lit "llo")) ] live.

Definition scenario_turn : State :=
  run_messages [ (at_clock 0, turnComplete_message) ] scenario_partial.

Definition scenario_interrupted : State :=
  run_messages
    [ (at_clock 1, output_message (lit "And th"));
      (at_clock 1, audio_message one_sample);
      (at_clock 1, audio_message one_sample);
      (at_clock 1, interrupted_message) ] scenario_turn.

(** ** Further observations *)

(** A finite sample of [-1, 1), the range in which PCM16 holds it. *)
Definition unit_sample (x : number) : Prop :=
  ∃ q, x = Fin q ∧ (-1 <= q)%Q ∧ (q < 1)%Q.

(** Two samples less than one quantisation step apart. *)
Definition within_one_step (x y : number) : Prop :=
  ∃ q r, x = Fin q ∧ y = Fin r ∧ (Qabs (q - r) < 1 # 32768)%Q.

(** Two stereo frames: left 256 and 768, right 512 and 1024. *)
Definition stereo_frames : list byte :=
  [ "000"; "001"; "000"; "002"; "000"; "003"; "000"; "004" ]%byte.

(** A captured frame of three samples inside the range. *)
Definition quiet_frame : list number :=
  [ Fin (1 # 2); Fin (-1); Fin (-3 # 7) ].

(** A code unit that [atob] neither skips nor decodes. *)
Definition foreign_char (c : N) : Prop :=
  Base64.b64_val c = None ∧ c ≠ Base64.pad_char
  ∧ Base64.is_ascii_whitespace c = false.

(** A payload with an asterisk in it. *)
Definition starred_payload : jsstring := lit "AA*A".

(** Events handled one after the other. *)
Definition run_events (events : list Event) (s : State) : State :=
  fold_left (fun st e => handle e st) events s.

(** The interval of device time a started source plays in. *)
Definition source_span (nd : SourceNode) : option (Q * Q) :=
  match node_start nd with
  | Some t => Some (t, (t + duration (node_buffer nd))%Q)
  | None => None
  end.

(** The active set is sound: the cursor is not negative; every member is a
    source the component started and did not stop, with a span that is not
    empty and ends at or before the cursor; and of two members the older
    ends before the newer starts. *)
Definition active_set_ok (s : State) : Prop :=
  (0 <= nextStartTimeRef (refs s))%Q
  ∧ (∀ i, i ∈ sourcesRef (refs s) →
       ∃ nd a b, nodes (world s) !! i = Some nd
                 ∧ node_stopped nd = false
                 ∧ source_span nd = Some (a, b)
                 ∧ (0 <= a)%Q ∧ (a < b)%Q
                 ∧ (b <= nextStartTimeRef (refs s))%Q)
  ∧ (∀ i j ni nj a b a' b',
       i ∈ sourcesRef (refs s) → j ∈ sourcesRef (refs s) → (i < j)%nat →
       nodes (world s) !! i = Some ni → nodes (world s) !! j = Some nj →
       source_span ni = Some (a, b) → source_span nj = Some (a', b') →
       (b <= a')%Q).

(** Whose entry a queued update of the transcript appends. *)
Definition update_role (u : TranscriptUpdate) : Role :=
  match u with
  | Computed entry => role entry
  | UserUpdater => user
  | ModelUpdater => model
  end.

(** The transcription deltas of a run of messages, joined in order. *)
Definition input_deltas (frames : list (MsgEnv * LiveServerMessage))
  : jsstring :=
  concat (map (fun f => text_of (inputTranscription (snd f))) frames).

Definition output_deltas (frames : list (MsgEnv * LiveServerMessage))
  : jsstring :=
  concat (map (fun f => text_of (outputTranscription (snd f))) frames).

(** A message that neither completes the turn nor interrupts it. *)
Definition mid_turn (m : LiveServerMessage) : Prop :=
  turnComplete m = false ∧ interrupted m = false.

(** Deltas that arrive with audio in between, one payload being broken. *)
Definition mixed_frames : list (MsgEnv * LiveServerMessage) :=
  [ (at_clock 0, output_message (lit "Once "));
    (at_clock 0, audio_message one_sample);
    (at_clock 1, input_message (lit "wait"));
    (at_clock 1, audio_message odd_payload);
    (at_clock 2, output_message (lit "upon")) ].

(** A platform on which everything succeeds but [getUserMedia], which
    rejects with [permError]. *)
Definition microphone_fails (state : AudioContextState) (permError : Exception)
  : ConnectEnv :=
  {| new_context_state := state; resume_fails := None;
     new_GoogleGenAI_fails := None; getUserMedia_fails := Some permError |}.

(** The rejection of [getUserMedia] on a machine without a microphone. *)
Definition no_device : Exception :=
  {| ex_name := lit "NotFoundError";
     ex_message := lit "Requested device not found" |}.




(** A message that brings no agent text. *)
Definition no_agent_text (m : LiveServerMessage) : Prop :=
  truthy (text_of (outputTranscription m)) = false.

(** After the interruption of [hello_turn]: the user goes on, and the turn
    completes. *)
Definition after_barge_in : list (MsgEnv * LiveServerMessage) :=
  [ (at_clock 2, input_message (lit " again"));
    (at_clock_sync 3, turnComplete_message);
    (at_clock 4, audio_message odd_payload);
    (at_clock_idle 5, turnComplete_message) ].

(** ** AudioTools: the WAV download and the speech handler *)

(** Sequencing of calls that may throw. *)
#[global] Instance result_bind : MBind result :=
  fun A B f r => match r with Ok a => f a | Err e => Err e end.

Module AudioTools.

(** [new ArrayBuffer(byteLength)]: zeroed. *)
Definition new_ArrayBuffer (byteLength : nat) : list byte :=
  replicate byteLength "000"%byte.

(** A store of a [DataView]: RangeError when the bytes do not fit the
    buffer at the offset. *)
Definition write_at (view : list byte) (byteOffset : nat) (bs : list byte)
  : result (list byte) :=
  if (byteOffset + length bs <=? length view)%nat
  then Ok (take byteOffset view ++ bs ++ drop (byteOffset + length bs) view)
  else Err RangeError.

(** The four bytes of ToUint32 of an integral number, little-endian. *)
Definition uint32_bytes (v : Z) : list byte :=
  let u := (v mod 4294967296)%Z in
  [ to_uint8 (Z.to_N (u mod 256));
    to_uint8 (Z.to_N (u / 256 mod 256));
    to_uint8 (Z.to_N (u / 65536 mod 256));
    to_uint8 (Z.to_N (u / 16777216)) ].

Definition setUint8 (view : list byte) (byteOffset : nat) (value : N)
  : result (list byte) :=
  write_at view byteOffset [ to_uint8 value ].

(** [view.setUint16(byteOffset, value, true)]: the value modulo 2^16, low
    byte first. *)
Definition setUint16 (view : list byte) (byteOffset : nat) (value : Z)
  : result (list byte) :=
  write_at view byteOffset (int16_bytes value).

(** [view.setInt16(byteOffset, value, true)]: the same two bytes. *)
Definition setInt16 (view : list byte) (byteOffset : nat) (value : Z)
  : result (list byte) :=
  write_at view byteOffset (int16_bytes value).

(** [view.setUint32(byteOffset, value, true)] *)
Definition setUint32 (view : list byte) (byteOffset : nat) (value : Z)
  : result (list byte) :=
  write_at view byteOffset (uint32_bytes value).

(** Lines 10-14. *)
Fixpoint writeString (view : list byte) (offset : nat) (string : jsstring)
  : result (list byte) :=
  match string with
  | [] => Ok view
  | c :: rest =>
      view' ← setUint8 view offset c;
      writeString view' (S offset) rest
  end.

(** Lines 44-47: the loop over the samples, [offset] being [44 + i * 2]. *)
Fixpoint write_samples (view : list byte) (offset : nat) (samples : list Z)
  : result (list byte) :=
  match samples with
  | [] => Ok view
  | x :: rest =>
      view' ← setInt16 view offset x;
      write_samples view' (offset + 2) rest
  end.

(** A DOM [Blob]: its bytes and its type. *)
Record FileBlob := { blob_bytes : list byte; blob_type : jsstring }.

(** Lines 6-50; [samples] is an [Int16Array], [sampleRate] an integral
    number. *)
Definition createWavBlob (samples : list Z) (sampleRate : Z)
  : result FileBlob :=
  let n := length samples in
  let view := new_ArrayBuffer (44 + n * 2) in
  view ← writeString view 0 (lit "RIFF");
  view ← setUint32 view 4 (Z.of_nat (36 + n * 2));
  view ← writeString view 8 (lit "WAVE");
  view ← writeString view 12 (lit "fmt ");
  view ← setUint32 view 16 16;
  view ← setUint16 view 20 1;
  view ← setUint16 view 22 1;
  view ← setUint32 view 24 sampleRate;
  view ← setUint32 view 28 (sampleRate * 2);
  view ← setUint16 view 32 2;
  view ← setUint16 view 34 16;
  view ← writeString view 36 (lit "data");
  view ← setUint32 view 40 (Z.of_nat (n * 2));
  view ← write_samples view 44 samples;
  Ok {| blob_bytes := view; blob_type := lit "audio/wav" |}.

(** The text-to-speech half of the component: its React state, the ref
    [activeGainNode], and the browser objects it creates. A gain node is
    its gain value, named by its index in [gainNodes]; a started source is
    its buffer and the gain node it plays through; an object URL is the
    index of its blob in [objectURLs]; [consoleErrors] counts the calls of
    [console.error]. *)
Record TtsState := {
  ttsText : jsstring;
  ttsLoading : bool;
  audioDownloadUrl : option nat;
  volume : Q;
  activeGainNode : option nat;
  audioContexts : nat;
  gainNodes : list Q;
  startedSources : list (AudioBuffer * nat);
  objectURLs : list FileBlob;
  consoleErrors : nat
}.

Definition set_ttsLoading (v : bool) (r : TtsState) : TtsState :=
  {| ttsText := ttsText r; ttsLoading := v; audioDownloadUrl :=
     audioDownloadUrl r; volume := volume r; activeGainNode :=
     activeGainNode r; audioContexts := audioContexts r; gainNodes :=
     gainNodes r; startedSources := startedSources r; objectURLs :=
     objectURLs r; consoleErrors := consoleErrors r |}.

Definition set_audioDownloadUrl (v : option nat) (r : TtsState) : TtsState :=
  {| ttsText := ttsText r; ttsLoading := ttsLoading r; audioDownloadUrl :=
     v; volume := volume r; activeGainNode := activeGainNode r;
     audioContexts := audioContexts r; gainNodes := gainNodes r;
     startedSources := startedSources r; objectURLs := objectURLs r;
     consoleErrors := consoleErrors r |}.

Definition set_activeGainNode (v : option nat) (r : TtsState) : TtsState :=
  {| ttsText := ttsText r; ttsLoading := ttsLoading r; audioDownloadUrl :=
     audioDownloadUrl r; volume := volume r; activeGainNode := v;
     audioContexts := audioContexts r; gainNodes := gainNodes r;
     startedSources := startedSources r; objectURLs := objectURLs r;
     consoleErrors := consoleErrors r |}.

Definition set_audioContexts (v : nat) (r : TtsState) : TtsState :=
  {| ttsText := ttsText r; ttsLoading := ttsLoading r; audioDownloadUrl :=
     audioDownloadUrl r; volume := volume r; activeGainNode :=
     activeGainNode r; audioContexts := v; gainNodes := gainNodes r;
     startedSources := startedSources r; objectURLs := objectURLs r;
     consoleErrors := consoleErrors r |}.

Definition set_gainNodes (v : list Q) (r : TtsState) : TtsState :=
  {| ttsText := ttsText r; ttsLoading := ttsLoading r; audioDownloadUrl :=
     audioDownloadUrl r; volume := volume r; activeGainNode :=
     activeGainNode r; audioContexts := audioContexts r; gainNodes := v;
     startedSources := startedSources r; objectURLs := objectURLs r;
     consoleErrors := consoleErrors r |}.

Definition set_startedSources (v : list (AudioBuffer * nat)) (r : TtsState) : TtsState :=
  {| ttsText := ttsText r; ttsLoading := ttsLoading r; audioDownloadUrl :=
     audioDownloadUrl r; volume := volume r; activeGainNode :=
     activeGainNode r; audioContexts := audioContexts r; gainNodes :=
     gainNodes r; startedSources := v; objectURLs := objectURLs r;
     consoleErrors := consoleErrors r |}.

Definition set_objectURLs (v : list FileBlob) (r : TtsState) : TtsState :=
  {| ttsText := ttsText r; ttsLoading := ttsLoading r; audioDownloadUrl :=
     audioDownloadUrl r; volume := volume r; activeGainNode :=
     activeGainNode r; audioContexts := audioContexts r; gainNodes :=
     gainNodes r; startedSources := startedSources r; objectURLs := v;
     consoleErrors := consoleErrors r |}.

Definition set_consoleErrors (v : nat) (r : TtsState) : TtsState :=
  {| ttsText := ttsText r; ttsLoading := ttsLoading r; audioDownloadUrl :=
     audioDownloadUrl r; volume := volume r; activeGainNode :=
     activeGainNode r; audioContexts := audioContexts r; gainNodes :=
     gainNodes r; startedSources := startedSources r; objectURLs :=
     objectURLs r; consoleErrors := v |}.

(** What [await generateSpeech(...)] gives: a rejection, or the value of
    [response.candidates?.[0]?.content?.parts?.[0]?.inlineData?.data],
    a string or [undefined]. *)
Inductive Reply :=
  | Rejected
  | Resolved (base64Audio : option jsstring).

(** Line 90: [for (i = 0; i < dataInt16.length; i++) channelData[i] =
    dataInt16[i] / 32768.0]. *)
Fixpoint fill_playback_from (fuel i : nat) (dataInt16 : list Z)
    (channelData : list number) : list number :=
  match fuel with
  | O => channelData
  | S fuel' =>
      if (i <? length dataInt16)%nat
      then fill_playback_from fuel' (S i) dataInt16
             (<[ i := match dataInt16 !! i with
                      | Some d => pcm16ToFloat d
                      | None => NaN
                      end ]> channelData)
      else channelData
  end.

Definition fill_playback (dataInt16 : list Z) (channelData : list number)
  : list number :=
  fill_playback_from (length dataInt16) 0 dataInt16 channelData.

(** Lines 78-109: the body of [if (base64Audio)], with the exception that
    ends it, if any. The state written before a throw stays written. *)
Definition speak (base64Audio : jsstring) (s : TtsState)
  : TtsState * option JsError :=
  let s := set_audioContexts (S (audioContexts s)) s in
  match Base64.atob base64Audio with
  | None => (s, Some InvalidCharacterError)
  | Some binaryString =>
      let bytes := map to_uint8 binaryString in
      match Int16Array_of_buffer bytes with
      | Err e => (s, Some e)
      | Ok dataInt16 =>
          match createBuffer 1 (length dataInt16) 24000 with
          | Err e => (s, Some e)
          | Ok buffer =>
              let filled :=
                {| numberOfChannels := numberOfChannels buffer;
                   ab_length := ab_length buffer;
                   sampleRate := sampleRate buffer;
                   channelData :=
                     match channelData buffer with
                     | c0 :: others => fill_playback dataInt16 c0 :: others
                     | [] => []
                     end |} in
              let gainNode := length (gainNodes s) in
              let s := set_gainNodes (gainNodes s ++ [ volume s ]) s in
              let s := set_activeGainNode (Some gainNode) s in
              let s := set_startedSources
                         (startedSources s ++ [ (filled, gainNode) ]) s in
              match createWavBlob dataInt16 24000 with
              | Err e => (s, Some e)
              | Ok wavBlob =>
                  let url := length (objectURLs s) in
                  let s := set_objectURLs (objectURLs s ++ [ wavBlob ]) s in
                  (set_audioDownloadUrl (Some url) s, None)
              end
          end
      end
  end.

(** Lines 71-117, taken as one step. *)
Definition handleGenerateSpeech (reply : Reply) (s : TtsState) : TtsState :=
  if truthy (ttsText s) then
    let s1 := set_audioDownloadUrl None (set_ttsLoading true s) in
    let s2 :=
      match reply with
      | Rejected => set_consoleErrors (S (consoleErrors s1)) s1
      | Resolved None => s1
      | Resolved (Some base64Audio) =>
          if truthy base64Audio then
            match speak base64Audio s1 with
            | (s', None) => s'
            | (s', Some _) => set_consoleErrors (S (consoleErrors s')) s'
            end
          else s1
      end in
    set_ttsLoading false s2
  else s.

(** The little-endian value of some bytes. *)
Fixpoint le_value (bs : list byte) : Z :=
  match bs with
  | [] => 0
  | b :: rest => (Z.of_N (Byte.to_N b) + 256 * le_value rest)%Z
  end.

(** The unsigned field of [width] bytes at [offset] of a file. *)
Definition field (file : list byte) (offset width : nat) : Z :=
  le_value (take width (drop offset file)).

(** The characters of the file from [offset], as a string of [width] code
    units. *)
Definition tag (file : list byte) (offset width : nat) : jsstring :=
  map fromCharCode (take width (drop offset file)).

(** What the decoder of the live path makes of a reply: the buffer
    [decodeAudioData] and [convertPCMToAudioBuffer] (24 kHz, mono) give for
    its payload, if there is a payload and they accept it. *)
Definition speech_of (reply : Reply) : option (list byte * AudioBuffer) :=
  match reply with
  | Resolved (Some base64Audio) =>
      if truthy base64Audio then
        match decodeAudioData base64Audio with
        | Some bytes =>
            match convertPCMToAudioBuffer bytes 24000 1 with
            | Ok audioBuffer => Some (bytes, audioBuffer)
            | Err _ => None
            end
        | None => None
        end
      else None
  | _ => None
  end.

(** A component with a text to speak, at volume 1/2, that has produced
    nothing yet. *)
Definition ready : TtsState :=
  {| ttsText := lit "Hello"; ttsLoading := false; audioDownloadUrl := None;
     volume := 1 # 2; activeGainNode := None; audioContexts := 0;
     gainNodes := []; startedSources := []; objectURLs := [];
     consoleErrors := 0 |}.

End AudioTools.

(** ** ChatInterface: sending a message *)

Module ChatInterface.

(** A call of [sendChatMessage] that has not settled: the history and the
    message it was given. *)
Record Request := {
  history : list (Role * jsstring);
  message : jsstring
}.

(** The React state of the component that [handleSend] reads and writes,
    and the calls in flight. *)
Record ChatState := {
  messages : list ChatMessage;
  input : jsstring;
  loading : bool;
  inflight : list Request
}.

Definition mounted : ChatState :=
  {| messages := []; input := []; loading := false; inflight := [] |}.

(** How a call of [sendChatMessage] settles: a rejection, or
    [response.text], a string or [undefined]. *)
Inductive ChatReply :=
  | ChatRejected
  | ChatResolved (responseText : option jsstring).

(** Lines 395-416: [handleSend] up to its [await]. The guard and the
    history read the state of the render the handler belongs to. *)
Definition handleSend (now : nat -> Z) (s : ChatState) : ChatState :=
  if negb (truthy (trim (input s))) || loading s then s
  else
    let userMsg := {| id := number_toString (now 0%nat); role := user;
                      text := input s; timestamp := now 1%nat |} in
    {| messages := messages s ++ [ userMsg ];
       input := [];
       loading := true;
       inflight := inflight s
                   ++ [ {| history := map (fun m => (role m, text m))
                                          (messages s);
                           message := text userMsg |} ] |}.

(** Lines 418-439: the rest of [handleSend], when the call settles. *)
Definition settle (now : nat -> Z) (reply : ChatReply) (s : ChatState)
  : ChatState :=
  let answer :=
    match reply with
    | ChatResolved responseText =>
        {| id := number_toString (now 0%nat + 1); role := model;
           text := match responseText with
                   | Some t => if truthy t then t
                               else lit "No response generated."
                   | None => lit "No response generated."
                   end;
           timestamp := now 1%nat |}
    | ChatRejected =>
        {| id := number_toString (now 0%nat); role := model;
           text := lit "Error: Could not generate response. Please check your API key.";
           timestamp := now 1%nat |}
    end in
  {| messages := messages s ++ [ answer ];
     input := input s;
     loading := false;
     inflight := inflight s |}.

(** Lines 473-481: the voice input reuses [loading] while it transcribes,
    then appends the text to the input. *)
Definition transcribing (s : ChatState) : ChatState :=
  {| messages := messages s; input := input s; loading := true;
     inflight := inflight s |}.

Definition transcribed (text : option jsstring) (s : ChatState) : ChatState :=
  {| messages := messages s;
     input := match text with
              | Some t =>
                  if truthy t
                  then if truthy (input s) then input s ++ lit " " ++ t else t
                  else input s
              | None => input s
              end;
     loading := false;
     inflight := inflight s |}.

Inductive ChatEvent :=
  | Typed (value : jsstring)                 (* onChange of the input *)
  | Send (now : nat -> Z)                    (* the button, or Enter *)
  | Settle (i : nat) (now : nat -> Z) (reply : ChatReply)
  | Transcribing
  | Transcribed (text : option jsstring).

(** The [i]-th call in flight settles; an event for a call that is not in
    flight does not happen. *)
Definition handle (e : ChatEvent) (s : ChatState) : ChatState :=
  match e with
  | Typed value =>
      {| messages := messages s; input := value; loading := loading s;
         inflight := inflight s |}
  | Send now => handleSend now s
  | Settle i now reply =>
      match inflight s !! i with
      | Some _ =>
          settle now reply
            {| messages := messages s; input := input s;
               loading := loading s; inflight := delete i (inflight s) |}
      | None => s
      end
  | Transcribing => transcribing s
  | Transcribed text => transcribed text s
  end.

Definition run (events : list ChatEvent) (s : ChatState) : ChatState :=
  fold_left (fun st e => handle e st) events s.




(** How many messages of the list are of the role. *)
Definition said_by (r : Role) (l : list ChatMessage) : nat :=
  length (List.filter (fun m => match role m, r with
                                | user, user | model, model => true
                                | _, _ => false
                                end) l).

(** A clock for the examples. *)
Definition ticking (k : nat) : Z := (1700000000000 + Z.of_nat k)%Z.


(** A question asked by voice while another is pending. *)
Definition spoken_meanwhile : list ChatEvent :=
  [ Typed (lit "Hi"); Send ticking; Transcribing;
    Transcribed (Some (lit "and you")); Send ticking;
    Settle 1%nat ticking (ChatResolved None);
    Settle O ticking (ChatResolved (Some (lit "Hello!"))) ].

End ChatInterface.

(** * Properties *)
(** ** Facts on base64 *)

(** [lia] on divisions and remainders by constants. *)
Ltac Zify.zify_post_hook ::= Z.to_euclidean_division_equations.

Module Base64Facts.
Import Base64.


(** Induction over a list three elements at a time, as [btoa] reads it. *)
Lemma list_ind3 {A} (P : list A → Prop) :
  P [] → (∀ a, P [a]) → (∀ a b, P [a; b]) →
  (∀ a b c r, P r → P (a :: b :: c :: r)) → ∀ l, P l.
Proof.
  intros H0 H1 H2 H3. fix IH 1.
  intros [|a [|b [|c r]]];
    [exact H0 | apply H1 | apply H2 | apply H3, IH].
Qed.

(** Decides the comparisons of the goal, first to last, from the
    hypotheses. *)
Ltac settle_comparisons :=
  repeat match goal with
         | |- context [?a <=? ?b] =>
             first [ rewrite (proj2 (N.leb_le a b)) by lia
                   | rewrite (proj2 (N.leb_gt a b)) by lia ]
         | |- context [?a <? ?b] =>
             first [ rewrite (proj2 (N.ltb_lt a b)) by lia
                   | rewrite (proj2 (N.ltb_ge a b)) by lia ]
         | |- context [?a =? ?b] =>
             first [ rewrite (proj2 (N.eqb_eq a b)) by lia
                   | rewrite (proj2 (N.eqb_neq a b)) by lia ]
         end.

Lemma b64_val_char v : v < 64 → b64_val (b64_char v) = Some v.
Proof.
  intros Hv.
  assert (C : v < 26 ∨ 26 <= v < 52 ∨ 52 <= v < 62 ∨ v = 62 ∨ v = 63)
    by lia.
  unfold b64_char.
  destruct C as [C|[C|[C|[C|C]]]]; settle_comparisons;
    unfold b64_val; settle_comparisons; cbn [andb]; f_equal; lia.
Qed.

Lemma b64_val_range c v :
  b64_val c = Some v →
  65 <= c <= 90 ∨ 97 <= c <= 122 ∨ 48 <= c <= 57 ∨ c = 43 ∨ c = 47.
Proof.
  unfold b64_val.
  destruct ((65 <=? c) && (c <=? 90)) eqn:E1;
    [apply andb_true_iff in E1; destruct E1 as [?%N.leb_le ?%N.leb_le];
     intros _; lia|].
  destruct ((97 <=? c) && (c <=? 122)) eqn:E2;
    [apply andb_true_iff in E2; destruct E2 as [?%N.leb_le ?%N.leb_le];
     intros _; lia|].
  destruct ((48 <=? c) && (c <=? 57)) eqn:E3;
    [apply andb_true_iff in E3; destruct E3 as [?%N.leb_le ?%N.leb_le];
     intros _; lia|].
  destruct (N.eqb_spec c 43); [intros _; lia|].
  destruct (N.eqb_spec c 47); [intros _; lia|].
  discriminate.
Qed.

Lemma b64_val_not_special c v :
  b64_val c = Some v → is_ascii_whitespace c = false ∧ c ≠ pad_char.
Proof.
  intros H. apply b64_val_range in H.
  unfold is_ascii_whitespace, pad_char.
  split; [settle_comparisons; reflexivity | lia].
Qed.

Lemma to_sextets_bound (l : list N) :
  Forall (λ b, b < 256) l → Forall (λ s, s < 64) (to_sextets l).
Proof.
  induction l as [|a|a b|a b c r IH] using list_ind3; intros Hl; simpl.
  - constructor.
  - inversion_clear Hl. repeat constructor; lia.
  - inversion_clear Hl as [|? ? ? Hl']. inversion_clear Hl'.
    repeat constructor; lia.
  - inversion_clear Hl as [|? ? ? Hl1]. inversion_clear Hl1 as [|? ? ? Hl2].
    inversion_clear Hl2. repeat (constructor; [lia|]). auto.
Qed.

Lemma from_to_sextets (l : list N) :
  Forall (λ b, b < 256) l → from_sextets (to_sextets l) = l.
Proof.
  induction l as [|a|a b|a b c r IH] using list_ind3; intros Hl; simpl.
  - reflexivity.
  - inversion_clear Hl. f_equal. lia.
  - inversion_clear Hl as [|? ? ? Hl']. inversion_clear Hl'.
    repeat f_equal; lia.
  - inversion_clear Hl as [|? ? ? Hl1]. inversion_clear Hl1 as [|? ? ? Hl2].
    inversion_clear Hl2. rewrite IH by assumption.
    repeat f_equal; lia.
Qed.

(** The shape of an encoding: the padding and the number of sextets go
    together. *)
Lemma padding_cases (l : list N) :
  (padding l = [] ∧ (length (to_sextets l) mod 4 = 0)%nat)
  ∨ (padding l = [pad_char] ∧ (length (to_sextets l) mod 4 = 3)%nat)
  ∨ (padding l = [pad_char; pad_char]
     ∧ (length (to_sextets l) mod 4 = 2)%nat).
Proof.
  induction l as [|a|a b|a b c r IH] using list_ind3.
  - left. auto.
  - right. right. auto.
  - right. left. auto.
  - cbn [padding to_sextets length].
    destruct IH as [[-> H]|[[-> H]|[-> H]]];
      [left|right; left|right; right]; (split; [reflexivity|]); lia.
Qed.

Lemma mapM_val_char (l : list N) :
  Forall (λ s, s < 64) l → mapM b64_val (map b64_char l) = Some l.
Proof.
  induction 1 as [|s l Hs _ IH]; simpl; [reflexivity|].
  rewrite b64_val_char by assumption. simpl. rewrite IH. reflexivity.
Qed.

Lemma filter_all_true {A} (f : A → bool) (l : list A) :
  Forall (λ x, f x = true) l → List.filter f l = l.
Proof.
  induction 1 as [|x l Hx _ IH]; simpl; [reflexivity|].
  rewrite Hx, IH. reflexivity.
Qed.

Lemma body_alphabet (l : list N) :
  Forall (λ b, b < 256) l →
  Forall (λ c, is_ascii_whitespace c = false ∧ c ≠ pad_char) (body l).
Proof.
  intros Hl. apply to_sextets_bound in Hl. unfold body.
  induction Hl as [|s r Hs _ IH]; simpl; constructor; [|assumption].
  eapply b64_val_not_special, b64_val_char, Hs.
Qed.

Lemma strip_padding_alphabet (s : list N) :
  Forall (λ c, c ≠ pad_char) s → strip_padding s = s.
Proof.
  intros Hs. unfold strip_padding.
  apply Forall_rev in Hs.
  destruct (rev s) as [|c1 [|c2 r]]; [reflexivity| |];
    inversion_clear Hs as [|? ? Hc _];
    apply N.eqb_neq in Hc; rewrite Hc; reflexivity.
Qed.

Lemma strip_padding_one (s : list N) :
  s ≠ [] → Forall (λ c, c ≠ pad_char) s →
  strip_padding (s ++ [pad_char]) = s.
Proof.
  intros Hne Hs. unfold strip_padding.
  rewrite rev_app_distr. simpl.
  apply Forall_rev in Hs.
  destruct (rev s) as [|c2 r] eqn:E.
  - apply (f_equal (@rev N)) in E. rewrite rev_involutive in E. contradiction.
  - inversion_clear Hs as [|? ? Hc _]. apply N.eqb_neq in Hc. rewrite Hc.
    change (rev r ++ [c2]) with (rev (c2 :: r)).
    rewrite <- E. apply rev_involutive.
Qed.

Lemma strip_padding_two (s : list N) :
  strip_padding (s ++ [pad_char; pad_char]) = s.
Proof.
  unfold strip_padding. rewrite rev_app_distr. simpl. apply rev_involutive.
Qed.

(** [atob] undoes [btoa] on every binary string. *)
Lemma atob_btoa (s : jsstring) :
  Forall (λ b, b < 256) s →
  ∃ t, btoa s = Some t ∧ atob t = Some s.
Proof.
  intros Hs. exists (body s ++ padding s). split.
  - unfold btoa. replace (forallb _ s) with true; [reflexivity|].
    symmetry. apply forallb_forall. intros c Hc.
    rewrite Forall_forall in Hs. apply N.leb_le.
    assert (c < 256) by (apply Hs, list_elem_of_In, Hc). lia.
  - pose proof (body_alphabet s Hs) as Hb.
    assert (Hnp : Forall (λ c, c ≠ pad_char) (body s))
      by (eapply Forall_impl; [exact Hb|]; simpl; tauto).
    assert (Hlen : length (body s) = length (to_sextets s))
      by apply length_map.
    assert (Hdec : from_sextets <$> mapM b64_val (body s) = Some s).
    { unfold body. rewrite mapM_val_char by (apply to_sextets_bound, Hs).
      simpl. f_equal. apply from_to_sextets, Hs. }
    unfold atob. cbv zeta. rewrite filter_all_true.
    2:{ apply Forall_app. split.
        - eapply Forall_impl; [exact Hb|]. simpl. intros c [-> _]. reflexivity.
        - destruct (padding_cases s) as [[-> _]|[[-> _]|[-> _]]];
            repeat constructor. }
    assert (Hstrip : strip_padding (body s ++ padding s) = body s).
    { destruct (padding_cases s) as [[-> H]|[[-> H]|[-> H]]].
      - rewrite app_nil_r. apply strip_padding_alphabet, Hnp.
      - apply strip_padding_one; [|exact Hnp].
        intros E. rewrite E in Hlen. simpl in Hlen. rewrite <- Hlen in H.
        discriminate.
      - apply strip_padding_two. }
    assert (H0 : (length (body s ++ padding s) mod 4 =? 0)%nat = true).
    { apply Nat.eqb_eq. rewrite length_app, Hlen.
      destruct (padding_cases s) as [[-> H]|[[-> H]|[-> H]]];
        simpl length; lia. }
    assert (H1 : (length (body s) mod 4 =? 1)%nat = false).
    { apply Nat.eqb_neq. rewrite Hlen.
      destruct (padding_cases s) as [[_ H]|[[_ H]|[_ H]]]; lia. }
    rewrite H0, Hstrip, H1. exact Hdec.
Qed.

End Base64Facts.

Lemma to_uint8_fromCharCode (b : byte) : to_uint8 (fromCharCode b) = b.
Proof.
  unfold to_uint8, fromCharCode.
  rewrite N.mod_small by (pose proof (Byte.to_N_bounded b); lia).
  rewrite Byte.of_to_N. reflexivity.
Qed.

Lemma decode_encode_bytes (x : list byte) :
  ∃ t, encodeAudioData x = Some t ∧ decodeAudioData t = Some x.
Proof.
  destruct (Base64Facts.atob_btoa (map fromCharCode x)) as (t & Ht & Hd).
  { apply Forall_forall. intros c Hc. apply list_elem_of_In, in_map_iff in Hc.
    destruct Hc as (b & <- & _). unfold fromCharCode.
    pose proof (Byte.to_N_bounded b). lia. }
  exists t. split; [exact Ht|].
  unfold decodeAudioData. rewrite Hd. simpl. f_equal.
  rewrite map_map. rewrite <- (map_id x) at 2.
  apply map_ext. intros b. apply to_uint8_fromCharCode.
Qed.

(** ** Facts on the sample conversions *)

Lemma truncQ_remainder (q : Q) :
  (Z.abs (Qnum q - truncQ q * Zpos (Qden q)) < Zpos (Qden q))%Z.
Proof.
  unfold truncQ.
  pose proof (Z.quot_rem' (Qnum q) (Zpos (Qden q))) as E.
  pose proof (Z.rem_bound_abs (Qnum q) (Zpos (Qden q)) ltac:(lia)) as B.
  replace (Qnum q - Qnum q ÷ Zpos (Qden q) * Zpos (Qden q))%Z
    with (Z.rem (Qnum q) (Zpos (Qden q))) by lia.
  lia.
Qed.

Lemma wrap16_small (z : Z) : (-32768 <= z < 32768)%Z → wrap16 z = z.
Proof.
  intros H. unfold wrap16. rewrite Z.mod_small by lia. lia.
Qed.

Lemma wrap16_range (z : Z) : (-32768 <= wrap16 z < 32768)%Z.
Proof.
  unfold wrap16. pose proof (Z.mod_pos_bound (z + 32768) 65536 ltac:(lia)). lia.
Qed.

(** Scaling a sample of [-1, 1) and truncating stays inside the int16
    range, so the store does not wrap. *)
Lemma scaled_trunc_range (q : Q) :
  (-1 <= q)%Q → (q < 1)%Q →
  (-32768 <= truncQ (q * 32768) < 32768)%Z.
Proof.
  destruct q as [n d]. unfold Qle, Qlt, truncQ. simpl.
  rewrite Pos.mul_1_r. intros Hlo Hhi.
  assert (Hd : (0 < Zpos d)%Z) by lia.
  split.
  - apply Z.quot_le_lower_bound; lia.
  - destruct (Z_le_gt_dec 0 (n * 32768)) as [Hn|Hn].
    + apply Z.quot_lt_upper_bound; lia.
    + pose proof (Z.quot_le_mono (n * 32768) 0 (Zpos d) Hd ltac:(lia)) as Hq.
      rewrite Z.quot_0_l in Hq by lia. lia.
Qed.

(** On [-1, 1) the conversion to PCM16 and back loses less than one
    quantisation step. *)
Lemma pcm16_roundtrip_below_one (q : Q) :
  (-1 <= q)%Q → (q < 1)%Q →
  ∃ r, pcm16ToFloat (floatToPcm16 (Fin q)) = Fin r
       ∧ (Qabs (q - r) < 1 # 32768)%Q.
Proof.
  intros Hlo Hhi. eexists. split; [reflexivity|].
  unfold floatToPcm16, times32768, ToInt16.
  rewrite wrap16_small by (apply scaled_trunc_range; assumption).
  pose proof (truncQ_remainder (q * 32768)) as R.
  destruct q as [n d]. unfold truncQ in *. simpl in R |- *.
  rewrite Pos.mul_1_r in *.
  set (t := (n * 32768 ÷ Zpos d)%Z) in *.
  unfold Qlt, Qabs, Qminus, Qplus, Qopp, Qdiv, Qmult, Qinv, inject_Z. simpl.
  clearbody t. rewrite !Pos2Z.inj_mul. lia.
Qed.

(** ** Facts on [convertPCMToAudioBuffer] *)

Lemma list_ind_pairs {A} (P : list A → Prop) :
  P [] → (∀ a, P [a]) → (∀ a b r, P r → P (a :: b :: r)) → ∀ l, P l.
Proof.
  intros H0 H1 H2. fix IH 1.
  intros [|a [|b r]]; [exact H0 | apply H1 | apply H2, IH].
Qed.

Lemma int16_pairs_length (bs : list byte) :
  length (int16_pairs bs) = (length bs / 2)%nat.
Proof.
  induction bs as [|a|a b r IH] using list_ind_pairs; [reflexivity..|].
  cbn [int16_pairs length]. rewrite IH. lia.
Qed.

Lemma Int16Array_odd (bs : list byte) :
  Nat.even (length bs) = false → Int16Array_of_buffer bs = Err RangeError.
Proof. intros H. unfold Int16Array_of_buffer. rewrite H. reflexivity. Qed.

(** The result of the conversion, by cases on the byte length and on the
    number of whole frames. *)
Lemma convert_cases (data : list byte) (rate : positive) (c : nat) :
  (Nat.even (length data) = false
   ∧ convertPCMToAudioBuffer data rate c = Err RangeError)
  ∨ (Nat.even (length data) = true
     ∧ (c = 0 ∨ length data / 2 / c = 0)%nat
     ∧ convertPCMToAudioBuffer data rate c = Err NotSupportedError)
  ∨ (Nat.even (length data) = true
     ∧ (0 < c)%nat ∧ (0 < length data / 2 / c)%nat
     ∧ ∃ buf, convertPCMToAudioBuffer data rate c = Ok buf
              ∧ ab_length buf = (length data / 2 / c)%nat
              ∧ numberOfChannels buf = c
              ∧ sampleRate buf = rate).
Proof.
  unfold convertPCMToAudioBuffer, Int16Array_of_buffer.
  destruct (Nat.even (length data)) eqn:E; [|left; auto].
  right. rewrite int16_pairs_length.
  unfold createBuffer.
  destruct c as [|c']; [left; auto|].
  destruct (length data / 2 / S c')%nat as [|n] eqn:F; [left; auto|].
  right. repeat split; try lia. eexists. repeat split.
Qed.

Lemma convert_err_iff (data : list byte) (rate : positive) (c : nat) :
  is_err (convertPCMToAudioBuffer data rate c) = true
  ↔ Nat.even (length data) = false ∨ c = 0%nat
    ∨ (length data / 2 / c = 0)%nat.
Proof.
  destruct (convert_cases data rate c)
    as [[E ->]|[(E & H & ->)|(E & Hc & Hn & buf & -> & _)]]; cbn [is_err].
  - tauto.
  - tauto.
  - split; [discriminate|]. intros [H|[H|H]]; [congruence | lia | rewrite H in Hn; inversion Hn].
Qed.

Lemma convert_ok_duration (data : list byte) (rate : positive) (c : nat)
    (buf : AudioBuffer) :
  convertPCMToAudioBuffer data rate c = Ok buf → (0 < duration buf)%Q.
Proof.
  intros H.
  destruct (convert_cases data rate c)
    as [[E H']|[(E & _ & H')|(E & Hc & Hn & buf' & H' & L & _)]];
    rewrite H' in H; try discriminate.
  injection H as <-. unfold duration, Qlt. simpl. lia.
Qed.

(** The loop of [convertPCMToAudioBuffer] with one channel copies every
    sample, converted, into the channel. *)
Lemma fill_channel_mono (d : list Z) : ∀ fuel i (cd : list number),
  length cd = length d → (i + fuel = length d)%nat →
  fill_channel_from fuel i d 1 0 cd
  = take i cd ++ map pcm16ToFloat (drop i d).
Proof.
  induction fuel as [|fuel IH]; intros i cd Hl Hi.
  - cbn. rewrite Nat.add_0_r in Hi. subst i.
    rewrite drop_all, <- Hl, firstn_all. cbn. rewrite app_nil_r. reflexivity.
  - cbn [fill_channel_from].
    replace (i * 1 <? length d)%nat with true
      by (symmetry; apply Nat.ltb_lt; lia).
    replace (i * 1 + 0)%nat with i by lia.
    destruct (lookup_lt_is_Some_2 d i ltac:(lia)) as [x Hx].
    rewrite Hx, IH by (rewrite ?length_insert; lia).
    rewrite (take_S_r _ _ (pcm16ToFloat x))
      by (apply list_lookup_insert_eq; lia).
    rewrite take_insert_ge by lia.
    rewrite (drop_S d x i Hx). cbn [map]. rewrite <- app_assoc. reflexivity.
Qed.

Lemma convert_mono (data : list byte) (rate : positive) :
  Nat.even (length data) = true → data ≠ [] →
  convertPCMToAudioBuffer data rate 1
  = Ok {| numberOfChannels := 1;
          ab_length := length data / 2;
          sampleRate := rate;
          channelData := [ map pcm16ToFloat (int16_pairs data) ] |}.
Proof.
  intros He Hne.
  unfold convertPCMToAudioBuffer, Int16Array_of_buffer. rewrite He.
  rewrite int16_pairs_length, Nat.div_1_r.
  destruct data as [|a [|b r]]; [contradiction | discriminate |].
  unfold createBuffer.
  destruct (length (a :: b :: r) / 2)%nat as [|n] eqn:E;
    [cbn [length] in E; lia|].
  rewrite <- E. cbn [numberOfChannels ab_length sampleRate channelData].
  f_equal. f_equal. cbn [replicate imap]. f_equal.
  unfold fill_channel.
  rewrite fill_channel_mono
    by (rewrite ?length_replicate, ?int16_pairs_length; lia).
  reflexivity.
Qed.

(** An int16 survives the view of its two bytes. *)
Lemma to_uint8_value (n : N) : Byte.to_N (to_uint8 n) = n mod 256.
Proof.
  unfold to_uint8.
  destruct (Byte.of_N (n mod 256)) as [b|] eqn:E.
  - cbn. apply Byte.to_of_N, E.
  - apply Byte.of_N_None_iff in E.
    pose proof (N.mod_upper_bound n 256 ltac:(lia)). lia.
Qed.

Lemma int16_of_its_bytes (z : Z) :
  (-32768 <= z < 32768)%Z →
  int16_pairs (int16_bytes z) = [z].
Proof.
  intros Hz. unfold int16_bytes. cbn [int16_pairs]. f_equal.
  unfold int16_of_bytes. rewrite !to_uint8_value.
  rewrite !N2Z.inj_mod, !Z2N.id
    by (first [apply Z.mod_pos_bound | apply Z.div_pos]; try lia;
        apply Z.mod_pos_bound; lia).
  unfold wrap16. lia.
Qed.

Lemma int16_pairs_app2 (lo hi : byte) (r : list byte) :
  int16_pairs (lo :: hi :: r) = int16_of_bytes lo hi :: int16_pairs r.
Proof. reflexivity. Qed.

Lemma int16_pairs_bytes (l : list Z) :
  Forall (λ z, (-32768 <= z < 32768)%Z) l →
  int16_pairs (flat_map int16_bytes l) = l.
Proof.
  induction 1 as [|z l Hz _ IH]; [reflexivity|].
  cbn [flat_map]. unfold int16_bytes at 1. cbn [app].
  rewrite int16_pairs_app2, IH. f_equal.
  pose proof (int16_of_its_bytes z Hz) as E.
  unfold int16_bytes in E. cbn [int16_pairs] in E. congruence.
Qed.

Lemma flat_map_int16_bytes_length (l : list Z) :
  length (flat_map int16_bytes l) = (2 * length l)%nat.
Proof.
  induction l as [|z l IH]; [reflexivity|].
  cbn [flat_map]. rewrite length_app, IH. cbn [length int16_bytes]. lia.
Qed.

Lemma floatToPcm16_range (x : number) :
  (-32768 <= floatToPcm16 x < 32768)%Z.
Proof.
  unfold floatToPcm16, ToInt16.
  destruct (times32768 x); try lia. apply wrap16_range.
Qed.

(** From the microphone to the playback buffer: a captured frame, encoded
    by [createBlob] and decoded as the inbound path decodes, comes back as
    the frame converted to PCM16 and back, sample by sample. *)
Lemma capture_playback_roundtrip (data : list number) (rate : positive) :
  data ≠ [] →
  ∃ blob bytes,
    createBlob data = Some blob
    ∧ decodeAudioData (blob_data blob) = Some bytes
    ∧ convertPCMToAudioBuffer bytes rate 1
      = Ok {| numberOfChannels := 1;
              ab_length := length data;
              sampleRate := rate;
              channelData :=
                [ map (λ x, pcm16ToFloat (floatToPcm16 x)) data ] |}.
Proof.
  intros Hne. unfold createBlob.
  destruct (decode_encode_bytes (flat_map int16_bytes (map floatToPcm16 data)))
    as (t & Ht & Hd).
  rewrite Ht. cbn. do 2 eexists. split; [reflexivity|].
  cbn. split; [exact Hd|].
  rewrite convert_mono.
  - rewrite flat_map_int16_bytes_length, length_map.
    rewrite int16_pairs_bytes, map_map.
    + replace (2 * length data / 2)%nat with (length data)
        by (rewrite Nat.mul_comm, Nat.div_mul; lia).
      reflexivity.
    + apply Forall_forall. intros z Hz.
      apply list_elem_of_In, in_map_iff in Hz. destruct Hz as (x & <- & _).
      apply floatToPcm16_range.
  - rewrite flat_map_int16_bytes_length, Nat.even_mul. reflexivity.
  - destruct data as [|x data]; [contradiction|]. discriminate.
Qed.

(** ** The playback scheduler *)

Lemma onmessage_unfold env m s :
  onmessage env m s =
    match thrown (on_audio env m (before_audio env m s)) with
    | Some e => on_audio env m (before_audio env m s)
    | None => {| post := on_interrupted m
                           (post (on_audio env m (before_audio env m s)));
                 thrown := None |}
    end.
Proof. reflexivity. Qed.

(** The text branches touch neither the scheduler nor the browser objects. *)
Lemma before_audio_frame env m s :
  world (before_audio env m s) = world s
  ∧ audioContextRef (refs (before_audio env m s)) = audioContextRef (refs s)
  ∧ nextStartTimeRef (refs (before_audio env m s)) = nextStartTimeRef (refs s)
  ∧ sourcesRef (refs (before_audio env m s)) = sourcesRef (refs s)
  ∧ status (ui (before_audio env m s)) = status (ui s)
  ∧ isConnected (ui (before_audio env m s)) = isConnected (ui s).
Proof.
  unfold before_audio, on_turnComplete, commitTurn, commit_user, commit_model,
    enqueue, on_outputTranscription, on_inputTranscription.
  repeat match goal with
         | |- context [if ?b then _ else _] => destruct b
         end; cbn; auto 10.
Qed.

(** One valid frame: the source is created, started at the raised cursor and
    added to the active set, and the cursor moves to the end of the frame. *)
Lemma valid_frame_step env m s buf :
  is_Some (audioContextRef (refs s)) → decodes_to m buf →
  let s' := post (onmessage env m s) in
  let t := Qmax (nextStartTimeRef (refs s)) (currentTime env) in
  thrown (onmessage env m s) = None
  ∧ nodes (world s') =
      nodes (world s) ++ [ {| node_buffer := buf; node_start := Some t;
                              node_stopped := false |} ]
  ∧ nextStartTimeRef (refs s') = (t + duration buf)%Q
  ∧ sourcesRef (refs s') = sourcesRef (refs s) ∪ {[ length (nodes (world s)) ]}
  ∧ audioContextRef (refs s') = audioContextRef (refs s)
  ∧ status (ui s') = status (ui s)
  ∧ isConnected (ui s') = isConnected (ui s).
Proof.
  intros [ctx Hctx] (Hint & b & bytes & Hb & Ht & Hd & Hc).
  destruct (before_audio_frame env m s) as (Hw & Ha & Hn & Hs & Hst & Hic).
  cbv zeta. rewrite onmessage_unfold.
  unfold on_audio, on_interrupted. rewrite Hb, Ha, Hctx, Ht, Hd, Hc, Hint.
  cbn. rewrite Hw, Hn, Hs, Ha, Hst, Hic. auto 10.
Qed.


(** A render applies the queue to the transcript and touches nothing
    else. *)
Lemma render_frame (now : nat → Z) (s : State) :
  refs (render now s) = refs s
  ∧ world (render now s) = world s
  ∧ status (ui (render now s)) = status (ui s)
  ∧ isConnected (ui (render now s)) = isConnected (ui s)
  ∧ realtimeText (ui (render now s)) = realtimeText (ui s)
  ∧ queued (ui (render now s)) = [].
Proof. repeat split. Qed.

Lemma run_messages_cons f frames s :
  run_messages (f :: frames) s =
    run_messages frames
      (render (renderNow (fst f)) (post (onmessage (fst f) (snd f) s))).
Proof. reflexivity. Qed.





Lemma stitched_length clocks : ∀ cursor timeline,
  stitched cursor clocks timeline → length timeline = length clocks.
Proof.
  induction clocks as [|c0 clocks IH]; intros cursor [|[t0 d0] tl] H;
    try contradiction; [reflexivity|].
  destruct H as (_ & _ & H'). cbn. f_equal. eapply IH, H'.
Qed.






(** ** Interruption *)


Lemma stop_all_length (set : gset nat) (ns : list SourceNode) :
  length (stop_all set ns) = length ns.
Proof. apply length_imap. Qed.

Lemma stop_all_empty (ns : list SourceNode) : stop_all ∅ ns = ns.
Proof.
  apply list_eq. intros i. unfold stop_all. rewrite list_lookup_imap.
  destruct (ns !! i) as [n|]; [|reflexivity]. cbn.
  destruct (decide (i ∈ (∅ : gset nat))) as [Hin|Hin]; [set_solver|reflexivity].
Qed.

(** A message that carries the interrupted flag among other fields ends in
    the interrupted branch, unless its audio payload made the handler
    throw. *)
Lemma onmessage_interrupted env m s :
  interrupted m = true → thrown (onmessage env m s) = None →
  post (onmessage env m s)
  = interrupt (post (on_audio env m (before_audio env m s))).
Proof.
  intros Hi. rewrite onmessage_unfold.
  destruct (thrown (on_audio env m (before_audio env m s))) eqn:E.
  - rewrite E. discriminate.
  - intros _. cbn [post]. unfold on_interrupted. rewrite Hi. reflexivity.
Qed.

(** ** The transcript assembler *)

(** The handler clears a buffer right after it has passed the updater that
    reads it. *)
Lemma commitTurn_buffers (env : MsgEnv) (s : State) :
  let ib := currentInputBuffer (refs s) in
  let ob := currentOutputBuffer (refs s) in
  let s' := commitTurn env s in
  currentInputBuffer (refs s') = (if truthy (trim ib) then [] else ib)
  ∧ currentOutputBuffer (refs s') = (if truthy (trim ob) then [] else ob)
  ∧ realtimeText (ui s') = None
  ∧ transcript (ui s') = transcript (ui s)
  ∧ length (queued (ui s'))
    = (length (queued (ui s))
       + (if truthy (trim ib) then 1 else 0)
       + (if truthy (trim ob) then 1 else 0))%nat.
Proof.
  cbv zeta. unfold commitTurn, commit_user, commit_model, enqueue.
  destruct (truthy (trim (currentInputBuffer (refs s)))) eqn:Ei;
    cbn -[trim truthy lit number_toString];
    destruct (truthy (trim (currentOutputBuffer (refs s)))) eqn:Eo;
    cbn -[trim truthy lit number_toString];
    rewrite ?length_app; cbn [length]; repeat split; lia.
Qed.

(** After a commit neither side has anything left to commit. *)
Lemma commitTurn_settles env s :
  truthy (trim (currentInputBuffer (refs (commitTurn env s)))) = false
  ∧ truthy (trim (currentOutputBuffer (refs (commitTurn env s)))) = false.
Proof.
  destruct (commitTurn_buffers env s) as (-> & -> & _).
  destruct (truthy (trim (currentInputBuffer (refs s)))) eqn:Ei,
    (truthy (trim (currentOutputBuffer (refs s)))) eqn:Eo; auto.
Qed.

Lemma commitTurn_nothing env s :
  truthy (trim (currentInputBuffer (refs s))) = false →
  truthy (trim (currentOutputBuffer (refs s))) = false →
  commitTurn env s = upd_ui (set_realtimeText None) s.
Proof.
  intros Hi Ho. unfold commitTurn, commit_user, commit_model.
  rewrite Hi. rewrite Ho. reflexivity.
Qed.

(** A turn-complete right after a turn-complete queues nothing. *)
Lemma commitTurn_twice env env' s :
  queued (ui (commitTurn env' (commitTurn env s)))
  = queued (ui (commitTurn env s))
  ∧ transcript (ui (commitTurn env' (commitTurn env s)))
    = transcript (ui (commitTurn env s)).
Proof.
  destruct (commitTurn_settles env s) as [Hi Ho].
  rewrite (commitTurn_nothing env' _ Hi Ho). split; reflexivity.
Qed.

(** When every updater runs inside its call (a root that renders
    synchronously), the turn-complete branch does what the specification
    asks: one entry with the trimmed text for each side that has some, the
    user's before the agent's. *)
Lemma commitTurn_synchronous (env : MsgEnv) (s : State) :
  (∀ j, eager env j = true) → queued (ui s) = [] →
  let ib := currentInputBuffer (refs s) in
  let ob := currentOutputBuffer (refs s) in
  let s' := render (renderNow env) (commitTurn env s) in
  ∃ new, transcript (ui s') = transcript (ui s) ++ new
         ∧ spoken new
           = (if truthy (trim ib) then [(user, trim ib)] else [])
             ++ (if truthy (trim ob) then [(model, trim ob)] else []).
Proof.
  intros He Hq. cbv zeta.
  unfold render, commitTurn, commit_user, commit_model, enqueue.
  rewrite !He.
  destruct (truthy (trim (currentInputBuffer (refs s)))) eqn:Ei;
    cbn -[trim truthy lit number_toString];
    rewrite ?He;
    destruct (truthy (trim (currentOutputBuffer (refs s)))) eqn:Eo;
    cbn -[trim truthy lit number_toString];
    rewrite Hq; cbn -[trim truthy lit number_toString];
    eexists; (split; [try rewrite <- app_assoc; try reflexivity;
                      symmetry; apply app_nil_r
                     | reflexivity]).
Qed.

(** When the second updater of a handler runs during the render (batched
    updates), a turn in which both sides have text ends with an agent entry
    whose text is empty: the updater reads the agent buffer after the
    handler has cleared it. The user entry holds its text only if React ran
    the first updater inside the call. *)
Lemma commitTurn_batched (env : MsgEnv) (s : State) :
  eager env 1 = false → queued (ui s) = [] →
  truthy (trim (currentInputBuffer (refs s))) = true →
  truthy (trim (currentOutputBuffer (refs s))) = true →
  spoken (transcript (ui (render (renderNow env) (commitTurn env s))))
  = spoken (transcript (ui s))
    ++ [ (user, if eager env 0
                then trim (currentInputBuffer (refs s)) else []);
         (model, []) ].
Proof.
  intros He Hq Hi Ho.
  unfold render, commitTurn, commit_user, commit_model, enqueue.
  rewrite Hi. cbn -[trim truthy lit number_toString].
  rewrite Ho, He. cbn -[trim truthy lit number_toString].
  rewrite Hq. unfold spoken.
  destruct (eager env 0); cbn -[trim truthy lit number_toString];
    rewrite !map_app; cbn; rewrite <- app_assoc; reflexivity.
Qed.

(** C3, at the turn of the specification's own example (user text 'hello',
    agent text 'hi there', then turn-complete). The updater functions passed
    to [setTranscript] read the buffers when React runs them, and the handler
    clears each buffer right after the call. Under batched updates both
    entries are appended in the right order but with an empty text; on an
    idle component the first one keeps its text and the agent entry is
    empty; only when every updater runs inside its call do the entries hold
    the trimmed texts. In all three cases the buffers are empty afterwards
    and a second turn-complete appends nothing. *)
Theorem commit_reads_cleared_buffers :
  let batched := handle (Message (at_clock 0) turnComplete_message) hello_turn in
  let idle := handle (Message (at_clock_idle 0) turnComplete_message) hello_turn in
  let sync := handle (Message (at_clock_sync 0) turnComplete_message) hello_turn in
  currentInputBuffer (refs hello_turn) = lit "hello"
  ∧ currentOutputBuffer (refs hello_turn) = lit "hi there"
  ∧ spoken (transcript (ui batched)) = [ (user, []); (model, []) ]
  ∧ spoken (transcript (ui idle)) = [ (user, lit "hello"); (model, []) ]
  ∧ spoken (transcript (ui sync))
    = [ (user, lit "hello"); (model, lit "hi there") ]
  ∧ currentInputBuffer (refs batched) = []
  ∧ currentOutputBuffer (refs batched) = []
  ∧ spoken (transcript
              (ui (handle (Message (at_clock 1) turnComplete_message) batched)))
    = [ (user, []); (model, []) ].
Proof.
  cbv zeta.
  repeat match goal with |- _ ∧ _ => split end; vm_compute; reflexivity.
Qed.

(** Identity and timestamp of the entries, read when the updaters run. *)
Example hello_turn_identities :
  map (λ e, (id e, timestamp e))
      (transcript
         (ui (handle (Message (at_clock_sync 0) turnComplete_message)
                hello_turn)))
  = [ (lit "1700000000000-user", 1700000000001%Z);
      (lit "1700000000002-model", 1700000000003%Z) ]
  ∧ map (λ e, (id e, timestamp e))
      (transcript
         (ui (handle (Message (at_clock 0) turnComplete_message) hello_turn)))
    = [ (lit "1700000000010-user", 1700000000011%Z);
        (lit "1700000000012-model", 1700000000013%Z) ].
Proof. split; vm_compute; reflexivity. Qed.

(** The end-to-end scenario of the specification: the agent's turn is
    committed and the interruption stops and clears the two queued
    sources. The committed text is 'Hello' when the updater runs inside the
    call. *)
Example scenario_commits_hello :
  map role (transcript (ui scenario_turn)) = [ model ]
  ∧ spoken (transcript
              (ui (handle (Message (at_clock_sync 0) turnComplete_message)
                     scenario_partial)))
    = [ (model, lit "Hello") ]
  ∧ size (sourcesRef (refs scenario_interrupted)) = 0%nat
  ∧ map node_stopped (nodes (world scenario_interrupted)) = [true; true]
  ∧ currentOutputBuffer (refs scenario_interrupted) = []
  ∧ realtimeText (ui scenario_interrupted) = None.
Proof.
  repeat match goal with |- _ ∧ _ => split end; vm_compute; reflexivity.
Qed.

(** ** Malformed inbound audio *)

(** With one channel, the conversion fails on an odd length or on an empty
    buffer, and on nothing else. *)
Lemma convert_mono_err_iff (data : list byte) (rate : positive) :
  is_err (convertPCMToAudioBuffer data rate 1) = true
  ↔ Nat.even (length data) = false ∨ data = [].
Proof.
  rewrite convert_err_iff. split.
  - intros [H|[H|H]]; [left; exact H | discriminate |].
    destruct data as [|a [|b r]]; [right; reflexivity | left; reflexivity |].
    exfalso. cbn [length] in H. rewrite Nat.div_1_r in H. lia.
  - intros [H| ->]; [left; exact H | right; right; reflexivity].
Qed.

Lemma on_audio_failure env s ctx base64Audio bytes e :
  audioContextRef (refs s) = Some ctx →
  truthy base64Audio = true →
  decodeAudioData base64Audio = Some bytes →
  convertPCMToAudioBuffer bytes 24000 1 = Err e →
  onmessage env (audio_message base64Audio) s
  = {| post := raise_cursor env s; thrown := Some e |}.
Proof.
  intros Hctx Ht Hd Hc. unfold onmessage.
  change (on_turnComplete env (audio_message base64Audio)
            (on_outputTranscription (audio_message base64Audio)
               (on_inputTranscription (audio_message base64Audio) s)))
    with s.
  unfold on_audio. cbn [audioData audio_message].
  rewrite Hctx, Ht, Hd, Hc. reflexivity.
Qed.

(** C4 (as amended). [convertPCMToAudioBuffer] fails exactly when the byte
    length is odd or the buffer holds no whole frame; an even length that is
    not a multiple of 2 x channelCount is accepted. On the inbound path (one
    channel) a payload whose conversion fails has an odd length or is
    empty; the exception ends the handler of that message only: no source is
    created, the React state, the browser objects, the active set and both
    transcript buffers are as before, the cursor alone having been raised to
    the device clock; a later payload that decodes is scheduled. *)
Theorem malformed_audio_contained (s : State) (env : MsgEnv)
    (base64Audio : jsstring) (bytes : list byte) (e : JsError) :
  is_Some (audioContextRef (refs s)) →
  truthy base64Audio = true →
  decodeAudioData base64Audio = Some bytes →
  convertPCMToAudioBuffer bytes 24000 1 = Err e →
  let r := onmessage env (audio_message base64Audio) s in
  (∀ data rate c,
     is_err (convertPCMToAudioBuffer data rate c) = true
     ↔ Nat.even (length data) = false ∨ c = 0%nat
       ∨ (length data / 2 / c = 0)%nat)
  ∧ (Nat.even (length bytes) = false ∨ bytes = [])
  ∧ thrown r = Some e
  ∧ post r = raise_cursor env s
  ∧ ui (post r) = ui s
  ∧ world (post r) = world s
  ∧ sourcesRef (refs (post r)) = sourcesRef (refs s)
  ∧ currentInputBuffer (refs (post r)) = currentInputBuffer (refs s)
  ∧ currentOutputBuffer (refs (post r)) = currentOutputBuffer (refs s)
  ∧ nextStartTimeRef (refs (post r))
    = Qmax (nextStartTimeRef (refs s)) (currentTime env)
  ∧ (∀ env' m' buf,
       decodes_to m' buf →
       thrown (onmessage env' m' (post r)) = None
       ∧ nodes (world (post (onmessage env' m' (post r))))
         = nodes (world s)
           ++ [ {| node_buffer := buf;
                   node_start :=
                     Some (Qmax (nextStartTimeRef (refs (post r)))
                             (currentTime env'));
                   node_stopped := false |} ]).
Proof.
  intros [ctx Hctx] Ht Hd Hc r.
  assert (Hr : r = {| post := raise_cursor env s; thrown := Some e |})
    by (eapply on_audio_failure; eassumption).
  split; [intros; apply convert_err_iff|].
  split; [apply (convert_mono_err_iff bytes 24000); rewrite Hc; reflexivity|].
  rewrite Hr. cbn [post thrown].
  do 8 (split; [reflexivity|]).
  intros env' m' buf Hv.
  destruct (valid_frame_step env' m' (raise_cursor env s) buf)
    as (Hth & Hn & _); [|exact Hv|split; [exact Hth|exact Hn]].
  cbn. rewrite Hctx. eexists; reflexivity.
Qed.

Lemma malformed_audio_contained_witness :
  thrown (onmessage (at_clock 5) (audio_message odd_payload) live)
  = Some RangeError
  ∧ post (onmessage (at_clock 5) (audio_message odd_payload) live)
    = raise_cursor (at_clock 5) live.
Proof.
  assert (H1 : is_Some (audioContextRef (refs live))) by (eexists; reflexivity).
  assert (H2 : truthy odd_payload = true) by reflexivity.
  assert (H3 : decodeAudioData odd_payload
               = Some [ "000"; "000"; "000" ]%byte)
    by (vm_compute; reflexivity).
  assert (H4 : convertPCMToAudioBuffer [ "000"; "000"; "000" ]%byte 24000 1
               = Err RangeError) by reflexivity.
  pose proof (malformed_audio_contained live (at_clock 5) odd_payload
                _ _ H1 H2 H3 H4) as H.
  cbv zeta in H. destruct H as (_ & _ & Hthrown & Hpost & _).
  split; [exact Hthrown | exact Hpost].
Defined.

(** C4 (as stated) fails. With two channels, six bytes are not a multiple of
    2 x 2 and are decoded all the same, the half frame being dropped; and on
    the inbound path a payload of one blank decodes to zero bytes, a multiple
    of 2, and its conversion throws. *)
Lemma length_rule_is_not_exact :
  (length six_bytes mod (2 * 2) ≠ 0)%nat
  ∧ (∃ buf, convertPCMToAudioBuffer six_bytes 24000 2 = Ok buf
            ∧ ab_length buf = 1%nat)
  ∧ truthy blank_payload = true
  ∧ decodeAudioData blank_payload = Some []
  ∧ (length ([] : list byte) mod (2 * 1) = 0)%nat
  ∧ thrown (onmessage (at_clock 0) (audio_message blank_payload) live)
    = Some NotSupportedError.
Proof.
  split; [vm_compute; discriminate|].
  split; [eexists; split; vm_compute; reflexivity|].
  repeat split; vm_compute; reflexivity.
Qed.

(** ** Connection lifecycle *)

Lemma connect_catch_spec (e : Exception) (s : State) :
  refs (connect_catch e s) = refs s
  ∧ world (connect_catch e s) = world s
  ∧ status (ui (connect_catch e s)) = error
  ∧ isConnected (ui (connect_catch e s)) = false
  ∧ transcript (ui (connect_catch e s)) = transcript (ui s)
  ∧ realtimeText (ui (connect_catch e s)) = realtimeText (ui s).
Proof. unfold connect_catch. destruct (_ || _); repeat split. Qed.

Lemma initAudio_spec (env : ConnectEnv) (s : State) :
  let s1 := fst (initAudio env s) in
  ui s1 = ui s ∧ world s1 = world s
  ∧ nextStartTimeRef (refs s1) = nextStartTimeRef (refs s)
  ∧ sourcesRef (refs s1) = sourcesRef (refs s)
  ∧ sessionRef (refs s1) = sessionRef (refs s)
  ∧ streamRef (refs s1) = streamRef (refs s)
  ∧ processorRef (refs s1) = processorRef (refs s)
  ∧ currentInputBuffer (refs s1) = currentInputBuffer (refs s)
  ∧ currentOutputBuffer (refs s1) = currentOutputBuffer (refs s)
  ∧ is_Some (audioContextRef (refs s1))
  ∧ (snd (initAudio env s) = None ∨ snd (initAudio env s) = resume_fails env).
Proof.
  cbv zeta. unfold initAudio.
  destruct (audioContextRef (refs s)) as [[r1 st]|] eqn:Ea;
    destruct (inputContextRef (refs s)) as [c2|] eqn:Ei;
    cbn; rewrite ?Ea, ?Ei; cbn; rewrite ?Ea; cbn.
  all: first [ destruct st | destruct (new_context_state env) ];
    try destruct (resume_fails env); cbn; rewrite ?Ea; repeat split; eauto.
Qed.

(** The result of [connect], by what the platform answers. *)
Lemma connect_cases (env : ConnectEnv) (s : State) :
  let s1 := fst (initAudio env (connect_reset s)) in
  (∃ e, (snd (initAudio env (connect_reset s)) = Some e
         ∨ new_GoogleGenAI_fails env = Some e)
        ∧ connect env s = connect_catch e s1)
  ∨ (is_Some (getUserMedia_fails env)
     ∧ connect env s
       = connect_catch microphone_error
           (upd_ui (set_permissionDenied true) s1))
  ∨ (getUserMedia_fails env = None
     ∧ connect env s = open_session (acquire_stream s1)).
Proof.
  cbv zeta. unfold connect, connect_try.
  destruct (initAudio env (connect_reset s)) as [s1 f]. cbn [fst snd].
  destruct f as [e|]; [left; eauto|].
  destruct (new_GoogleGenAI_fails env) as [e|]; [left; eauto|].
  destruct (getUserMedia_fails env) as [pe|].
  - right. left. split; eauto.
  - right. right. auto.
Qed.

(** What [connect] never writes: the cursor, the active set, the nodes, the
    processors and the live partial view. *)
Lemma connect_frame (env : ConnectEnv) (s : State) :
  nextStartTimeRef (refs (connect env s)) = nextStartTimeRef (refs s)
  ∧ sourcesRef (refs (connect env s)) = sourcesRef (refs s)
  ∧ nodes (world (connect env s)) = nodes (world s)
  ∧ realtimeText (ui (connect env s)) = realtimeText (ui s)
  ∧ processors (world (connect env s)) = processors (world s)
  ∧ processorRef (refs (connect env s)) = processorRef (refs s).
Proof.
  destruct (initAudio_spec env (connect_reset s))
    as (Hu & Hw & Hn & Hs & _ & _ & Hp & _).
  destruct (connect_cases env s) as [(e & _ & ->)|[[_ ->]|[_ ->]]].
  - destruct (connect_catch_spec e (fst (initAudio env (connect_reset s))))
      as (-> & -> & _ & _ & _ & ->).
    rewrite Hu, Hw, Hn, Hs, Hp. repeat split.
  - destruct (connect_catch_spec microphone_error
                (upd_ui (set_permissionDenied true)
                   (fst (initAudio env (connect_reset s)))))
      as (-> & -> & _ & _ & _ & ->).
    cbn. rewrite Hu, Hw, Hn, Hs, Hp. repeat split.
  - cbn. rewrite Hu, Hw, Hn, Hs, Hp. repeat split.
Qed.

(** What [connect] resets, whatever the platform answers. *)
Lemma connect_resets (env : ConnectEnv) (s : State) :
  transcript (ui (connect env s)) = []
  ∧ currentInputBuffer (refs (connect env s)) = []
  ∧ currentOutputBuffer (refs (connect env s)) = []
  ∧ (status (ui (connect env s)) = connecting
     ∨ status (ui (connect env s)) = error)
  ∧ (length (sessions (world s))
     <= length (sessions (world (connect env s))))%nat.
Proof.
  destruct (initAudio_spec env (connect_reset s))
    as (Hu & Hw & _ & _ & _ & _ & _ & Hi & Ho & _).
  destruct (connect_cases env s) as [(e & _ & ->)|[[_ ->]|[_ ->]]].
  - destruct (connect_catch_spec e (fst (initAudio env (connect_reset s))))
      as (-> & -> & -> & _ & -> & _).
    rewrite Hu, Hw, Hi, Ho.
    repeat split; try reflexivity; right; reflexivity.
  - destruct (connect_catch_spec microphone_error
                (upd_ui (set_permissionDenied true)
                   (fst (initAudio env (connect_reset s)))))
      as (-> & -> & -> & _ & -> & _).
    cbn. rewrite Hu, Hw, Hi, Ho.
    repeat split; try reflexivity; right; reflexivity.
  - cbn. rewrite Hu, Hw, Hi, Ho. cbn. rewrite length_app. cbn.
    repeat split; [left; reflexivity | lia].
Qed.

(** A refused microphone: state [error], the permission flag raised and its
    message shown, no stream kept and no remote session opened. *)
Lemma connect_permission_denied (env : ConnectEnv) (s : State) :
  resume_fails env = None → new_GoogleGenAI_fails env = None →
  is_Some (getUserMedia_fails env) →
  status (ui (connect env s)) = error
  ∧ permissionDenied (ui (connect env s)) = true
  ∧ includes (lit "Microphone") (errorMessage (ui (connect env s))) = true
  ∧ isConnected (ui (connect env s)) = false
  ∧ sessions (world (connect env s)) = sessions (world s)
  ∧ sessionRef (refs (connect env s)) = sessionRef (refs s)
  ∧ streams (world (connect env s)) = streams (world s)
  ∧ streamRef (refs (connect env s)) = streamRef (refs s).
Proof.
  intros Hr Hg [pe Hm].
  destruct (initAudio_spec env (connect_reset s))
    as (Hu & Hw & _ & _ & Hse & Hst & _ & _ & _ & _ & Hf).
  rewrite Hr in Hf.
  destruct (connect_cases env s) as [(e & [He|He] & _)|[[_ E]|[He _]]];
    try congruence; [destruct Hf; congruence|].
  rewrite E.
  destruct (connect_catch_spec microphone_error
              (upd_ui (set_permissionDenied true)
                 (fst (initAudio env (connect_reset s)))))
    as (-> & -> & -> & -> & _ & _).
  cbn [refs world upd_ui]. rewrite Hw, Hse, Hst.
  repeat split; vm_compute; reflexivity.
Qed.

(** A granted microphone: one new stream, then one new session promise. *)
Lemma connect_granted (env : ConnectEnv) (s : State) :
  resume_fails env = None → new_GoogleGenAI_fails env = None →
  getUserMedia_fails env = None →
  status (ui (connect env s)) = connecting
  ∧ sessions (world (connect env s))
    = sessions (world s) ++ [ {| session_closed := false |} ]
  ∧ streams (world (connect env s))
    = streams (world s) ++ [ {| tracks_live := true |} ]
  ∧ sessionRef (refs (connect env s)) = Some (length (sessions (world s)))
  ∧ streamRef (refs (connect env s)) = Some (length (streams (world s))).
Proof.
  intros Hr Hg Hm.
  destruct (initAudio_spec env (connect_reset s))
    as (Hu & Hw & _ & _ & _ & _ & _ & _ & _ & _ & Hf).
  rewrite Hr in Hf.
  destruct (connect_cases env s) as [(e & [He|He] & _)|[[[pe He] _]|[_ E]]];
    try congruence; [destruct Hf; congruence|].
  rewrite E. cbn. rewrite Hu, Hw. repeat split.
Qed.

(** The close and error callbacks write two or three React states and
    nothing else. *)
Lemma onclose_frame (s : State) :
  refs (onclose s) = refs s ∧ world (onclose s) = world s
  ∧ status (ui (onclose s)) = disconnected
  ∧ isConnected (ui (onclose s)) = false
  ∧ realtimeText (ui (onclose s)) = realtimeText (ui s)
  ∧ transcript (ui (onclose s)) = transcript (ui s).
Proof. repeat split. Qed.

Lemma onerror_frame (s : State) :
  refs (onerror s) = refs s ∧ world (onerror s) = world s
  ∧ status (ui (onerror s)) = error
  ∧ isConnected (ui (onerror s)) = false
  ∧ realtimeText (ui (onerror s)) = realtimeText (ui s)
  ∧ transcript (ui (onerror s)) = transcript (ui s).
Proof. repeat split. Qed.

(** What [disconnect] does when the session promise has resolved: the
    teardown the close and error callbacks leave out. *)
Lemma disconnect_teardown (s : State) :
  let s' := disconnect true s in
  status (ui s') = disconnected
  ∧ isConnected (ui s') = false
  ∧ sourcesRef (refs s') = ∅
  ∧ nodes (world s') = stop_all (sourcesRef (refs s)) (nodes (world s))
  ∧ streams (world s') = stop_tracks (streamRef (refs s)) (streams (world s))
  ∧ processors (world s')
    = disconnect_processor (processorRef (refs s)) (processors (world s))
  ∧ sessions (world s')
    = close_session (sessionRef (refs s)) (sessions (world s))
  ∧ audioContextRef (refs s') = None
  ∧ inputContextRef (refs s') = None
  ∧ realtimeText (ui s') = None
  ∧ transcript (ui s') = transcript (ui s)
  ∧ nextStartTimeRef (refs s') = nextStartTimeRef (refs s).
Proof.
  cbv zeta. unfold disconnect. destruct (sessionRef (refs s)); repeat split.
Qed.

Lemma disconnect_frame (settled : bool) (s : State) :
  transcript (ui (disconnect settled s)) = transcript (ui s)
  ∧ length (sessions (world (disconnect settled s)))
    = length (sessions (world s))
  ∧ length (streams (world (disconnect settled s)))
    = length (streams (world s))
  ∧ nextStartTimeRef (refs (disconnect settled s)) = nextStartTimeRef (refs s)
  ∧ status (ui (disconnect settled s)) ≠ connected ∨ disconnect settled s = s.
Proof.
  unfold disconnect.
  destruct (sessionRef (refs s)) as [i|], settled; cbn;
    try (right; reflexivity); left;
    unfold close_session, stop_tracks; repeat case_match;
    rewrite ?length_insert; repeat split; discriminate.
Qed.

(** Splits a conjunction without trying to close its parts. *)
Ltac split_ands := repeat match goal with |- _ ∧ _ => split end.

Lemma onopen_spec (session : nat) (s : State) :
  status (ui (onopen session s)) = connected
  ∧ isConnected (ui (onopen session s)) = true
  ∧ transcript (ui (onopen session s)) = transcript (ui s)
  ∧ realtimeText (ui (onopen session s)) = realtimeText (ui s)
  ∧ nextStartTimeRef (refs (onopen session s)) = nextStartTimeRef (refs s)
  ∧ sessions (world (onopen session s)) = sessions (world s)
  ∧ streams (world (onopen session s)) = streams (world s).
Proof.
  unfold onopen. cbn.
  destruct (inputContextRef (refs s)), (streamRef (refs s)); repeat split.
Qed.

(** The audio and interrupted branches leave the React state of the
    connection and the transcript alone. *)
Lemma on_audio_ui env m s : ui (post (on_audio env m s)) = ui s.
Proof.
  unfold on_audio.
  destruct (audioData m) as [b|]; [|reflexivity].
  destruct (audioContextRef (refs s)); [|reflexivity].
  destruct (truthy b); [|reflexivity].
  destruct (decodeAudioData b) as [bytes|]; [|reflexivity].
  destruct (convertPCMToAudioBuffer bytes 24000 1); reflexivity.
Qed.

Lemma onmessage_connection env m s :
  status (ui (post (onmessage env m s))) = status (ui s)
  ∧ isConnected (ui (post (onmessage env m s))) = isConnected (ui s).
Proof.
  destruct (before_audio_frame env m s) as (_ & _ & _ & _ & Hst & Hic).
  pose proof (on_audio_ui env m (before_audio env m s)) as Hu.
  rewrite onmessage_unfold.
  destruct (thrown (on_audio env m (before_audio env m s))).
  - rewrite Hu, Hst, Hic. auto.
  - cbn [post]. unfold on_interrupted.
    destruct (interrupted m); cbn; rewrite Hu, Hst, Hic; auto.
Qed.

(** The flag [isConnected] is raised whenever the status is [connected]. *)
Lemma connected_flag (s : State) :
  reachable s → status (ui s) = connected → isConnected (ui s) = true.
Proof.
  induction 1 as [|e s Hs IH]; [discriminate|].
  destruct e as [env|session|env m| | |source|settled]; cbn [handle].
  - unfold click. destruct (button_disabled s); [exact IH|].
    destruct (isConnected (ui s)) eqn:Ec.
    + destruct (disconnect_frame (click_settled env) s)
        as [(_ & _ & _ & _ & Hd)|Hd]; [contradiction | rewrite Hd; auto].
    + destruct (connect_resets (click_connect env) s)
        as (_ & _ & _ & [Hc|Hc] & _); rewrite Hc; discriminate.
  - intros _. apply onopen_spec.
  - destruct (render_frame (renderNow env) (post (onmessage env m s)))
      as (_ & _ & -> & -> & _).
    destruct (onmessage_connection env m s) as [-> ->]. exact IH.
  - discriminate.
  - discriminate.
  - exact IH.
  - destruct (disconnect_frame settled s)
      as [(_ & _ & _ & _ & Hd)|Hd]; [contradiction | rewrite Hd; exact IH].
Qed.


Lemma live_reachable : reachable live.
Proof.
  assert (E : live = handle (Open 0) (handle (Click clicking) initial))
    by (vm_compute; reflexivity).
  rewrite E. do 2 apply reachable_step. apply reachable_initial.
Qed.




(** C5, at a live session with two sources queued. The close callback sets
    the status to [disconnected] and the error callback to [error], and
    neither tears anything down: both sources stay in the active set
    unstopped, the microphone stream stays live, the script processor stays
    connected and both audio contexts stay open. [disconnect], from the same
    state, stops and clears all of them. *)
Theorem remote_close_skips_teardown :
  status (ui (onclose two_queued)) = disconnected
  ∧ status (ui (onerror two_queued)) = error
  ∧ refs (onclose two_queued) = refs two_queued
  ∧ world (onclose two_queued) = world two_queued
  ∧ refs (onerror two_queued) = refs two_queued
  ∧ world (onerror two_queued) = world two_queued
  ∧ size (sourcesRef (refs (onclose two_queued))) = 2%nat
  ∧ map node_stopped (nodes (world (onclose two_queued))) = [false; false]
  ∧ streams (world (onclose two_queued)) = [ {| tracks_live := true |} ]
  ∧ processors (world (onclose two_queued))
    = [ {| proc_session := 0; proc_connected := true |} ]
  ∧ is_Some (audioContextRef (refs (onclose two_queued)))
  ∧ is_Some (inputContextRef (refs (onclose two_queued)))
  ∧ size (sourcesRef (refs (disconnect true two_queued))) = 0%nat
  ∧ map node_stopped (nodes (world (disconnect true two_queued)))
    = [true; true]
  ∧ streams (world (disconnect true two_queued))
    = [ {| tracks_live := false |} ]
  ∧ processors (world (disconnect true two_queued))
    = [ {| proc_session := 0; proc_connected := false |} ]
  ∧ audioContextRef (refs (disconnect true two_queued)) = None
  ∧ inputContextRef (refs (disconnect true two_queued)) = None.
Proof.
  split_ands;
    first [ vm_compute; reflexivity | eexists; vm_compute; reflexivity ].
Qed.

(** C7, at a session that played one frame at clock 30, was ended with the
    button and reconnected. [connect] (like [disconnect]) leaves the cursor
    where the first session left it, 30 s + 1/24000 s, although the new
    audio context starts its clock at 0: the first frame of the second
    session, arriving at clock 0, is started at that stale time. The rest of
    the reset is done: transcript and both buffers are empty. *)
Theorem reconnect_keeps_stale_cursor :
  nextStartTimeRef (refs first_session_played) = (720001 # 24000)%Q
  ∧ audioContextRef (refs (click clicking first_session_played)) = None
  ∧ status (ui second_session) = connected
  ∧ transcript (ui second_session) = []
  ∧ currentInputBuffer (refs second_session) = []
  ∧ currentOutputBuffer (refs second_session) = []
  ∧ sourcesRef (refs second_session) = ∅
  ∧ audioContextRef (refs second_session)
    = Some {| ctx_sampleRate := 24000; ctx_state := running |}
  ∧ nextStartTimeRef (refs second_session) = (720001 # 24000)%Q
  ∧ scheduled_from (length (nodes (world second_session)))
      (run_messages [ (at_clock 0, audio_message one_sample) ] second_session)
    = [ (720001 # 24000, 1 # 24000) ]%Q.
Proof. split_ands; vm_compute; reflexivity. Qed.

(** C10. [connect] empties the transcript and both transcription buffers
    and keeps the live partial view; the close callback, the error callback
    and [onopen] keep it too, so a partial left on display when the remote
    side closed or failed is still there after the next [connect] and open;
    an audio message keeps it as well. It is replaced by the next
    transcription text and removed by the next turn-complete or interrupted
    message. *)
Theorem stale_partial_view (s : State) (cenv : ConnectEnv) (env : MsgEnv)
    (session : nat) (base64Audio : jsstring) (c : N) (txt : jsstring) :
  transcript (ui (connect cenv s)) = []
  ∧ currentInputBuffer (refs (connect cenv s)) = []
  ∧ currentOutputBuffer (refs (connect cenv s)) = []
  ∧ realtimeText (ui (connect cenv s)) = realtimeText (ui s)
  ∧ realtimeText (ui (onclose s)) = realtimeText (ui s)
  ∧ realtimeText (ui (onerror s)) = realtimeText (ui s)
  ∧ realtimeText (ui (connect cenv (onclose s))) = realtimeText (ui s)
  ∧ realtimeText (ui (connect cenv (onerror s))) = realtimeText (ui s)
  ∧ realtimeText (ui (onopen session (connect cenv (onclose s))))
    = realtimeText (ui s)
  ∧ realtimeText (ui (onopen session (connect cenv (onerror s))))
    = realtimeText (ui s)
  ∧ realtimeText (ui (post (onmessage env (audio_message base64Audio) s)))
    = realtimeText (ui s)
  ∧ realtimeText (ui (post (onmessage env (input_message (c :: txt)) s)))
    = Some (user, currentInputBuffer (refs s) ++ c :: txt)
  ∧ realtimeText (ui (post (onmessage env (output_message (c :: txt)) s)))
    = Some (model, currentOutputBuffer (refs s) ++ c :: txt)
  ∧ realtimeText (ui (post (onmessage env turnComplete_message s))) = None
  ∧ realtimeText (ui (post (onmessage env interrupted_message s))) = None.
Proof.
  assert (Hc : ∀ s0, realtimeText (ui (connect cenv s0)) = realtimeText (ui s0))
    by (intros s0; apply (connect_frame cenv s0)).
  assert (Ho : ∀ s0, realtimeText (ui (onopen session s0))
                     = realtimeText (ui s0))
    by (intros s0; apply (onopen_spec session s0)).
  destruct (connect_resets cenv s) as (Ht & Hi & Hb & _).
  do 3 (split; [assumption|]).
  repeat split; rewrite ?Ho, ?Hc; try reflexivity.
  - unfold onmessage.
    change (on_turnComplete env (audio_message base64Audio)
              (on_outputTranscription (audio_message base64Audio)
                 (on_inputTranscription (audio_message base64Audio) s)))
      with s.
    pose proof (on_audio_ui env (audio_message base64Audio) s) as Hu.
    destruct (on_audio env (audio_message base64Audio) s) as [p [e|]];
      cbn [post thrown on_interrupted audio_message interrupted] in *;
      rewrite Hu; reflexivity.
  - change (post (onmessage env turnComplete_message s))
      with (commitTurn env s).
    apply (commitTurn_buffers env s).
Qed.

(** A partial on display when the remote side closes is still on display
    after the next connect and open. *)
Example partial_survives_reconnect :
  realtimeText (ui two_queued) = Some (model, lit "Once upon")
  ∧ realtimeText (ui (onopen 1 (click clicking (onclose two_queued))))
    = Some (model, lit "Once upon").
Proof. split; vm_compute; reflexivity. Qed.

(** A refused microphone stops [connect] before any remote call. *)
Example refused_microphone :
  status (ui (connect refused initial)) = error
  ∧ permissionDenied (ui (connect refused initial)) = true
  ∧ sessions (world (connect refused initial)) = []
  ∧ sessionRef (refs (connect refused initial)) = None
  ∧ button_disabled (connect refused initial) = true.
Proof. split_ands; vm_compute; reflexivity. Qed.

(** ** The codec round trips *)

(** C8, at the full-scale sample 1.0. The scaled value 32768 does not fit an
    int16 and the store wraps it to -32768, which converts back to -1.0: the
    reconstruction error is 2, not 1/32768 or less. The same happens through
    the whole path [createBlob], [decodeAudioData],
    [convertPCMToAudioBuffer]. *)
Theorem full_scale_sample_wraps :
  floatToPcm16 (Fin 1) = (-32768)%Z
  ∧ pcm16ToFloat (floatToPcm16 (Fin 1)) = Fin (-32768 # 32768)
  ∧ (Qabs (1 - (-32768 # 32768)) == 2)%Q
  ∧ ¬ (Qabs (1 - (-32768 # 32768)) <= 1 # 32768)%Q
  ∧ (blob ← createBlob [Fin 1];
     bytes ← decodeAudioData (blob_data blob);
     match convertPCMToAudioBuffer bytes 24000 1 with
     | Ok buffer => Some (channelData buffer)
     | Err _ => None
     end) = Some [ [ Fin (-32768 # 32768) ] ].
Proof.
  split_ands; try (vm_compute; reflexivity).
  vm_compute. intros H. apply H. reflexivity.
Qed.

(** C9. Decoding the transport encoding of a byte buffer of even length
    gives the buffer back, byte for byte; both directions are functions of
    their argument alone. (The length plays no part: see
    [decode_encode_bytes].) *)
Theorem transport_roundtrip (x : list byte) :
  Nat.even (length x) = true →
  ∃ t, encodeAudioData x = Some t ∧ decodeAudioData t = Some x.
Proof. intros _. apply decode_encode_bytes. Qed.

Lemma transport_roundtrip_witness :
  Nat.even (length six_bytes) = true
  ∧ ∃ t, encodeAudioData six_bytes = Some t
         ∧ decodeAudioData t = Some six_bytes.
Proof.
  assert (H : Nat.even (length six_bytes) = true) by reflexivity.
  split; [exact H|]. exact (transport_roundtrip six_bytes H).
Defined.

(** * Further properties of the code *)

(** ** The transport encoding *)

Lemma encoded_length (l : list N) :
  (length (Base64.body l) + length (Base64.padding l)
   = 4 * ((length l + 2) / 3))%nat.
Proof.
  unfold Base64.body. rewrite length_map.
  induction l as [|a|a b|a b c r IH] using Base64Facts.list_ind3;
    [reflexivity..|].
  cbn [Base64.to_sextets Base64.padding length]. lia.
Qed.

Lemma padding_is_pad (l : list N) :
  Forall (λ c, c = Base64.pad_char) (Base64.padding l).
Proof.
  induction l as [|a|a b|a b c r IH] using Base64Facts.list_ind3; cbn;
    repeat constructor; assumption.
Qed.

(** X1. [encodeAudioData] never throws, and what it returns is text-safe: four
    characters for every three bytes (the last group padded), each one a
    letter, a digit, '+', '/' or the padding '='. *)
Theorem encodeAudioData_is_base64_text (bytes : list byte) :
  ∃ t, encodeAudioData bytes = Some t
       ∧ length t = (4 * ((length bytes + 2) / 3))%nat
       ∧ Forall (λ c, is_Some (Base64.b64_val c) ∨ c = Base64.pad_char) t.
Proof.
  assert (Hb : Forall (λ b, b < 256) (map fromCharCode bytes)).
  { apply Forall_forall. intros c Hc.
    apply list_elem_of_In, in_map_iff in Hc. destruct Hc as (b & <- & _).
    unfold fromCharCode. pose proof (Byte.to_N_bounded b). lia. }
  destruct (Base64Facts.atob_btoa _ Hb) as (t & Ht & _).
  exists t. split; [exact Ht|].
  unfold Base64.btoa in Ht.
  destruct (forallb _ _); [|discriminate]. injection Ht as <-.
  split.
  - rewrite length_app, encoded_length, length_map. reflexivity.
  - apply Forall_app. split.
    + apply Base64Facts.to_sextets_bound in Hb. unfold Base64.body.
      induction Hb as [|s r Hs _ IH]; cbn; constructor; [|exact IH].
      left. rewrite Base64Facts.b64_val_char by exact Hs. eexists; reflexivity.
    + eapply Forall_impl; [apply padding_is_pad|]. cbn. auto.
Qed.

(** ** The playback buffer *)

(** The loop of [convertPCMToAudioBuffer] for any number of channels: frame
    [j] of the channel is rewritten when the loop reaches it and the channel
    has room for it, and is left alone otherwise. *)
Lemma fill_channel_from_lookup (d : list Z) (c ch : nat) :
  (0 < c)%nat →
  ∀ fuel i (cd : list number) j,
  (length d <= (i + fuel) * c)%nat →
  fill_channel_from fuel i d c ch cd !! j
  = if decide (i <= j ∧ j * c < length d ∧ j < length cd)%nat
    then Some (match d !! (j * c + ch)%nat with
               | Some x => pcm16ToFloat x
               | None => NaN
               end)
    else cd !! j.
Proof.
  intros Hc. induction fuel as [|fuel IH]; intros i cd j Hfuel.
  - cbn [fill_channel_from]. rewrite Nat.add_0_r in Hfuel.
    destruct (decide _) as [(Hi & Hj & _)|]; [|reflexivity].
    pose proof (Nat.mul_le_mono_r i j c Hi). lia.
  - cbn [fill_channel_from].
    destruct (i * c <? length d)%nat eqn:E.
    + rewrite IH by lia. rewrite length_insert.
      destruct (decide (i = j)) as [->|Hne].
      * destruct (decide (S j <= j ∧ _)%nat) as [?|_]; [lia|].
        apply Nat.ltb_lt in E.
        destruct (decide _) as [(_ & _ & Hlt)|Hn].
        -- apply list_lookup_insert_eq, Hlt.
        -- assert (length cd <= j)%nat by lia.
           rewrite list_insert_ge by lia. reflexivity.
      * rewrite list_lookup_insert_ne by exact Hne.
        repeat destruct (decide _); try reflexivity; lia.
    + apply Nat.ltb_ge in E.
      destruct (decide _) as [(Hi & Hj & _)|]; [|reflexivity].
      pose proof (Nat.mul_le_mono_r i j c Hi). lia.
Qed.

Lemma fill_channel_from_length (d : list Z) (c ch : nat) :
  ∀ fuel i (cd : list number),
  length (fill_channel_from fuel i d c ch cd) = length cd.
Proof.
  induction fuel as [|fuel IH]; intros i cd; cbn [fill_channel_from];
    [reflexivity|].
  destruct (_ <? _)%nat; [|reflexivity].
  rewrite IH, length_insert. reflexivity.
Qed.

(** A frame below [frameCount] lies wholly inside the interleaved data. *)
Lemma frame_in_range (n c ch i : nat) :
  (ch < c)%nat → (i < n / c)%nat → (i * c + ch < n)%nat ∧ (i * c < n)%nat.
Proof.
  intros Hch Hi.
  assert (S i * c <= n / c * c)%nat by (apply Nat.mul_le_mono_r; lia).
  pose proof (Nat.Div0.mul_div_le n c). lia.
Qed.

Lemma createBuffer_cases (c n : nat) (rate : positive) :
  ((c = 0 ∨ n = 0)%nat ∧ createBuffer c n rate = Err NotSupportedError)
  ∨ ((0 < c)%nat ∧ (0 < n)%nat
     ∧ createBuffer c n rate
       = Ok {| numberOfChannels := c; ab_length := n; sampleRate := rate;
               channelData := replicate c (replicate n (Fin 0)) |}).
Proof.
  destruct c, n; [left; auto..|]. right. split_ands; [lia | lia | reflexivity].
Qed.

(** The channels of a converted buffer, sample by sample. *)
Lemma convert_samples (data : list byte) (rate : positive) (c : nat)
    (buf : AudioBuffer) :
  convertPCMToAudioBuffer data rate c = Ok buf →
  length (channelData buf) = c
  ∧ ∀ ch cd, channelData buf !! ch = Some cd →
      length cd = ab_length buf
      ∧ ∀ i, (i < ab_length buf)%nat →
          ∃ x, int16_pairs data !! (i * c + ch)%nat = Some x
               ∧ cd !! i = Some (pcm16ToFloat x).
Proof.
  unfold convertPCMToAudioBuffer, Int16Array_of_buffer.
  destruct (Nat.even (length data)); [|discriminate].
  set (d := int16_pairs data).
  destruct (createBuffer_cases c (length d / c) rate)
    as [[_ ->]|(Hc & Hn & ->)]; [discriminate|].
  intros [= <-]. cbn [channelData ab_length]. split.
  - rewrite length_imap, length_replicate. reflexivity.
  - intros ch cd Hcd. rewrite list_lookup_imap in Hcd.
    destruct (replicate c (replicate (length d / c) (Fin 0)) !! ch)
      as [cd0|] eqn:E0; [|discriminate].
    apply lookup_replicate in E0. destruct E0 as [-> Hch].
    injection Hcd as <-. unfold fill_channel. split.
    + rewrite fill_channel_from_length, length_replicate. reflexivity.
    + intros i Hi.
      destruct (frame_in_range (length d) c ch i Hch Hi) as [H1 H2].
      destruct (lookup_lt_is_Some_2 d _ H1) as [x Hx].
      exists x. split; [exact Hx|].
      rewrite fill_channel_from_lookup by nia.
      rewrite length_replicate, Hx.
      destruct (decide _) as [_|Hno]; [reflexivity|]. exfalso. apply Hno. lia.
Qed.

(** X2. [convertPCMToAudioBuffer] de-interleaves: a buffer it returns has
    [numChannels] channels of exactly [ab_length] frames each, the whole
    frames of the data, and frame
    [i] of channel [ch] is the 16-bit sample number [i * numChannels + ch]
    of the data, which exists, divided by 32768. So whatever the loop does
    in the extra round it makes on a trailing partial frame, nothing of it
    is in the buffer. *)
Theorem convert_deinterleaves (data : list byte) (rate : positive) (c : nat)
    (buf : AudioBuffer) (ch i : nat) :
  convertPCMToAudioBuffer data rate c = Ok buf →
  (ch < c)%nat → (i < ab_length buf)%nat →
  length (channelData buf) = c
  ∧ ab_length buf = (length data / 2 / c)%nat
  ∧ ∃ cd x, channelData buf !! ch = Some cd
            ∧ length cd = ab_length buf
            ∧ int16_pairs data !! (i * c + ch)%nat = Some x
            ∧ cd !! i = Some (pcm16ToFloat x).
Proof.
  intros H Hch Hi.
  destruct (convert_samples _ _ _ _ H) as [Hl Hs].
  split; [exact Hl|]. split.
  - destruct (convert_cases data rate c)
      as [[_ E]|[(_ & _ & E)|(_ & _ & _ & buf' & E & L & _)]];
      rewrite E in H; try discriminate.
    injection H as <-. exact L.
  - destruct (lookup_lt_is_Some_2 (channelData buf) ch ltac:(lia))
      as [cd Hcd].
    destruct (Hs ch cd Hcd) as [Hlen Hx]. destruct (Hx i Hi) as (x & H1 & H2).
    exists cd, x. auto.
Qed.

Lemma convert_deinterleaves_witness :
  ∃ buf cd,
    convertPCMToAudioBuffer stereo_frames 48000 2 = Ok buf
    ∧ length (channelData buf) = 2%nat
    ∧ ab_length buf = 2%nat
    ∧ channelData buf !! 1%nat = Some cd
    ∧ length cd = 2%nat
    ∧ int16_pairs stereo_frames !! 3%nat = Some 1024%Z
    ∧ cd !! 1%nat = Some (pcm16ToFloat 1024).
Proof.
  eexists.
  assert (H : convertPCMToAudioBuffer stereo_frames 48000 2 = Ok _)
    by (vm_compute; reflexivity).
  destruct (convert_deinterleaves stereo_frames 48000 2 _ 1 1 H)
    as (Hc & Ha & cd & x & H1 & Hl & H2 & H3); [cbn; lia | cbn; lia |].
  exists cd. split; [exact H|]. split; [exact Hc|]. split; [exact Ha|].
  split; [exact H1|].
  split; [exact Hl|].
  assert (Hx : x = 1024%Z) by (vm_compute in H2; congruence).
  subst x. split; [exact H2 | exact H3].
Defined.

Lemma int16_of_bytes_range (lo hi : byte) :
  (-32768 <= int16_of_bytes lo hi < 32768)%Z.
Proof. apply wrap16_range. Qed.

Lemma int16_pairs_range (bs : list byte) :
  Forall (λ z, (-32768 <= z < 32768)%Z) (int16_pairs bs).
Proof.
  induction bs as [|a|a b r IH] using list_ind_pairs; cbn [int16_pairs];
    constructor; [apply int16_of_bytes_range | exact IH].
Qed.

(** X3. Whatever bytes arrive, a buffer that [convertPCMToAudioBuffer] returns
    holds only finite samples in [-1, 1): no NaN from a read past the data,
    nothing at or above full scale. *)
Theorem converted_samples_in_unit_range (data : list byte) (rate : positive)
    (c : nat) (buf : AudioBuffer) (cd : list number) (s : number) :
  convertPCMToAudioBuffer data rate c = Ok buf →
  cd ∈ channelData buf → s ∈ cd →
  unit_sample s.
Proof.
  intros H Hcd Hs.
  destruct (convert_samples _ _ _ _ H) as [_ Hall].
  apply list_elem_of_lookup in Hcd. destruct Hcd as [ch Hcd].
  apply list_elem_of_lookup in Hs. destruct Hs as [i Hi].
  destruct (Hall ch cd Hcd) as [Hlen Hx].
  destruct (Hx i) as (x & Hin & Hout).
  { rewrite <- Hlen. eapply lookup_lt_Some, Hi. }
  rewrite Hi in Hout. injection Hout as ->.
  pose proof (int16_pairs_range data) as R.
  rewrite Forall_forall in R.
  specialize (R x (list_elem_of_lookup_2 _ _ _ Hin)).
  eexists. split; [reflexivity|].
  unfold Qle, Qlt, Qdiv, Qmult, Qinv, inject_Z. simpl. lia.
Qed.

Lemma converted_samples_in_unit_range_witness :
  unit_sample (pcm16ToFloat 1024).
Proof.
  assert (H : convertPCMToAudioBuffer stereo_frames 48000 2 = Ok _)
    by (vm_compute; reflexivity).
  refine (converted_samples_in_unit_range stereo_frames 48000 2 _
            [pcm16ToFloat 512; pcm16ToFloat 1024] _ H _ _).
  - cbn [channelData]. apply list_elem_of_lookup. exists 1%nat. reflexivity.
  - apply list_elem_of_lookup. exists 1%nat. reflexivity.
Defined.

(** ** From the microphone to the loudspeaker *)

(** X4. A frame of samples in [-1, 1) that goes through [createBlob], the
    transport decoding and [convertPCMToAudioBuffer] comes out as one mono
    channel of as many samples, each less than 1/32768 away from the
    captured one. *)
Theorem capture_to_playback_fidelity (data : list number) (rate : positive) :
  data ≠ [] → Forall unit_sample data →
  ∃ blob bytes out,
    createBlob data = Some blob
    ∧ decodeAudioData (blob_data blob) = Some bytes
    ∧ convertPCMToAudioBuffer bytes rate 1
      = Ok {| numberOfChannels := 1; ab_length := length data;
              sampleRate := rate; channelData := [ out ] |}
    ∧ Forall2 within_one_step data out.
Proof.
  intros Hne Hall.
  destruct (capture_playback_roundtrip data rate Hne)
    as (blob & bytes & H1 & H2 & H3).
  exists blob, bytes. eexists. split_ands; [exact H1 | exact H2 | exact H3 |].
  clear H1 H2 H3 Hne.
  induction Hall as [|x l (q & -> & Hlo & Hhi) _ IH]; cbn [map];
    constructor; [|exact IH].
  destruct (pcm16_roundtrip_below_one q Hlo Hhi) as (r & Hr & Hd).
  exists q, r. auto.
Qed.

Lemma capture_to_playback_fidelity_witness :
  ∃ blob bytes out,
    createBlob quiet_frame = Some blob
    ∧ decodeAudioData (blob_data blob) = Some bytes
    ∧ convertPCMToAudioBuffer bytes 16000 1
      = Ok {| numberOfChannels := 1; ab_length := 3;
              sampleRate := 16000; channelData := [ out ] |}
    ∧ Forall2 within_one_step quiet_frame out.
Proof.
  apply (capture_to_playback_fidelity quiet_frame 16000).
  - discriminate.
  - repeat constructor; eexists; (split; [reflexivity|]);
      unfold Qle, Qlt; simpl; lia.
Defined.

(** X5. [createBlob] does not clamp: a sample of [1, 2) is stored, wrapped, as
    a negative PCM16 value, and plays back lowered by two (to within one
    quantisation step). *)
Theorem overdriven_sample_wraps (q : Q) :
  (1 <= q)%Q → (q < 2)%Q →
  ∃ r, pcm16ToFloat (floatToPcm16 (Fin q)) = Fin r
       ∧ (floatToPcm16 (Fin q) < 0)%Z
       ∧ (r < 0)%Q ∧ (2 <= q - r)%Q ∧ (q - r < 2 + (1 # 32768))%Q.
Proof.
  intros Hlo Hhi. eexists. split; [reflexivity|].
  unfold floatToPcm16, times32768, ToInt16.
  pose proof (truncQ_remainder (q * 32768)) as R.
  assert (B : (32768 <= truncQ (q * 32768) < 65536)%Z).
  { destruct q as [n d]. unfold Qle, Qlt, truncQ in *. simpl in *.
    rewrite Pos.mul_1_r in *. split.
    - apply Z.quot_le_lower_bound; lia.
    - apply Z.quot_lt_upper_bound; lia. }
  assert (W : wrap16 (truncQ (q * 32768)) = (truncQ (q * 32768) - 65536)%Z).
  { unfold wrap16.
    replace (truncQ (q * 32768) + 32768)%Z
      with (truncQ (q * 32768) - 32768 + 1 * 65536)%Z by lia.
    rewrite Z.mod_add, Z.mod_small by lia. lia. }
  rewrite W.
  destruct q as [n d]. unfold truncQ in *. simpl in R, B |- *.
  rewrite Pos.mul_1_r in *. clear W.
  unfold Qle, Qlt in Hlo, Hhi. simpl in Hlo, Hhi.
  pose proof (Z.mul_quot_le (n * 32768) (Zpos d) ltac:(lia) ltac:(lia)) as P.
  set (t := (n * 32768 ÷ Zpos d)%Z) in *. clearbody t.
  unfold Qle, Qlt, Qminus, Qplus, Qopp, Qdiv, Qmult, Qinv, inject_Z.
  simpl. rewrite ?Pos2Z.inj_mul. split_ands; lia.
Qed.

Lemma overdriven_sample_wraps_witness :
  ∃ r, pcm16ToFloat (floatToPcm16 (Fin (3 # 2))) = Fin r
       ∧ (floatToPcm16 (Fin (3 # 2)) < 0)%Z
       ∧ (r < 0)%Q ∧ (2 <= (3 # 2) - r)%Q ∧ ((3 # 2) - r < 2 + (1 # 32768))%Q.
Proof.
  apply (overdriven_sample_wraps (3 # 2)); unfold Qle, Qlt; simpl; lia.
Defined.

(** ** Messages *)

Lemma elem_of_rev {A} (l : list A) (x : A) : x ∈ rev l ↔ x ∈ l.
Proof. rewrite !list_elem_of_In. symmetry. apply in_rev. Qed.

Lemma strip_padding_keeps (s : list N) (c : N) :
  c ∈ s → c ≠ Base64.pad_char → c ∈ Base64.strip_padding s.
Proof.
  intros Hin Hne. unfold Base64.strip_padding.
  assert (Hr : c ∈ rev s) by (apply elem_of_rev, Hin).
  destruct (rev s) as [|c1 [|c2 r]] eqn:E; [exact Hin| |].
  - destruct (N.eqb_spec c1 Base64.pad_char) as [->|_]; [|exact Hin].
    apply list_elem_of_singleton in Hr. contradiction.
  - destruct (N.eqb_spec c1 Base64.pad_char) as [->|_]; [|exact Hin].
    apply elem_of_cons in Hr. destruct Hr as [->|Hr]; [contradiction|].
    destruct (N.eqb_spec c2 Base64.pad_char) as [->|_].
    + apply elem_of_cons in Hr. destruct Hr as [->|Hr]; [contradiction|].
      apply elem_of_rev, Hr.
    + apply elem_of_rev, Hr.
Qed.

(** [atob] throws on a string that holds a foreign character, wherever it
    stands. *)
Lemma atob_foreign (s : jsstring) (c : N) :
  c ∈ s → foreign_char c → Base64.atob s = None.
Proof.
  intros Hin (Hv & Hp & Hw). unfold Base64.atob. cbv zeta.
  set (d := List.filter (λ c0 : N, negb (Base64.is_ascii_whitespace c0)) s).
  assert (Hd : c ∈ d).
  { apply list_elem_of_In, filter_In. split; [apply list_elem_of_In, Hin|].
    rewrite Hw. reflexivity. }
  set (d' := if (length d mod 4 =? 0)%nat then Base64.strip_padding d else d).
  assert (Hd' : c ∈ d').
  { subst d'. destruct (_ =? _)%nat; [apply strip_padding_keeps|]; assumption. }
  destruct (length d' mod 4 =? 1)%nat; [reflexivity|].
  destruct (mapM Base64.b64_val d') as [l|] eqn:E; [|reflexivity].
  assert (Hs : is_Some (mapM Base64.b64_val d')) by (eexists; exact E).
  apply mapM_is_Some in Hs. rewrite Forall_forall in Hs.
  specialize (Hs c Hd'). cbn in Hs. rewrite Hv in Hs.
  destruct Hs as [? Hs]. discriminate.
Qed.

(** X6. A payload with a character outside the base64 alphabet (not a blank,
    not '=') makes the handler of its message throw InvalidCharacterError
    at [decodeAudioData]: the text branches have run and the cursor has been
    raised to the clock, no source is created, and the interrupted branch of
    the same message is not reached. *)
Theorem foreign_character_rejected (env : MsgEnv) (m : LiveServerMessage)
    (s : State) (payload : jsstring) (c : N) :
  audioData m = Some payload → is_Some (audioContextRef (refs s)) →
  c ∈ payload → foreign_char c →
  onmessage env m s
  = {| post := raise_cursor env (before_audio env m s);
       thrown := Some InvalidCharacterError |}
  ∧ world (post (onmessage env m s)) = world s
  ∧ sourcesRef (refs (post (onmessage env m s))) = sourcesRef (refs s).
Proof.
  intros Hm [ctx Hctx] Hin Hf.
  destruct (before_audio_frame env m s) as (Hw & Ha & _ & Hs & _).
  assert (E : on_audio env m (before_audio env m s)
              = {| post := raise_cursor env (before_audio env m s);
                   thrown := Some InvalidCharacterError |}).
  { unfold on_audio. rewrite Hm, Ha, Hctx.
    destruct payload as [|c0 r]; [inversion Hin|]. cbn [truthy].
    unfold decodeAudioData. rewrite (atob_foreign _ c Hin Hf). reflexivity. }
  rewrite onmessage_unfold, E. cbn [thrown post].
  split_ands; [reflexivity | exact Hw | exact Hs].
Qed.

Lemma foreign_character_rejected_witness :
  thrown (onmessage (at_clock 5)
            {| inputTranscription := None; outputTranscription := None;
               turnComplete := false; audioData := Some starred_payload;
               interrupted := true |} two_queued)
  = Some InvalidCharacterError
  ∧ sourcesRef (refs (post (onmessage (at_clock 5)
            {| inputTranscription := None; outputTranscription := None;
               turnComplete := false; audioData := Some starred_payload;
               interrupted := true |} two_queued)))
    = sourcesRef (refs two_queued).
Proof.
  destruct (foreign_character_rejected (at_clock 5)
              {| inputTranscription := None; outputTranscription := None;
                 turnComplete := false; audioData := Some starred_payload;
                 interrupted := true |} two_queued starred_payload 42)
    as (H1 & _ & H3).
  - reflexivity.
  - eexists. vm_compute. reflexivity.
  - apply list_elem_of_lookup. exists 2%nat. reflexivity.
  - unfold foreign_char. split_ands; [reflexivity | discriminate | reflexivity].
  - rewrite H1 at 1. split; [reflexivity | exact H3].
Defined.

(** ** What one event does to the schedule *)

Lemma on_audio_cases env m s :
  on_audio env m s = {| post := s; thrown := None |}
  ∨ (∃ e, on_audio env m s
          = {| post := raise_cursor env s; thrown := Some e |})
  ∨ (∃ buf, (0 < duration buf)%Q
            ∧ on_audio env m s
              = {| post := schedule buf (raise_cursor env s);
                   thrown := None |}).
Proof.
  unfold on_audio.
  destruct (audioData m) as [b|]; [|left; reflexivity].
  destruct (audioContextRef (refs s)); [|left; reflexivity].
  destruct (truthy b); [|left; reflexivity].
  destruct (decodeAudioData b) as [bytes|];
    [|right; left; eexists; reflexivity].
  destruct (convertPCMToAudioBuffer bytes 24000 1) as [buf|e] eqn:E.
  - right. right. exists buf. split; [|reflexivity].
    eapply convert_ok_duration, E.
  - right. left. eexists. reflexivity.
Qed.

(** The four things an event can do to the nodes, the active set and the
    cursor: leave the nodes alone, shrink the set and raise the cursor;
    empty the set and keep the cursor ([disconnect]); empty the set and
    zero the cursor (a message that carries [interrupted]); or start one
    more source at or after the cursor. *)
Lemma handle_schedule_cases (e : Event) (s : State) :
  let s' := handle e s in
  (nodes (world s') = nodes (world s)
   ∧ sourcesRef (refs s') ⊆ sourcesRef (refs s)
   ∧ (nextStartTimeRef (refs s) <= nextStartTimeRef (refs s'))%Q)
  ∨ (sourcesRef (refs s') = ∅
     ∧ nextStartTimeRef (refs s') = nextStartTimeRef (refs s))
  ∨ (sourcesRef (refs s') = ∅ ∧ nextStartTimeRef (refs s') = 0%Q
     ∧ ∃ env m, e = Message env m ∧ interrupted m = true)
  ∨ (∃ buf t,
       (0 < duration buf)%Q ∧ (nextStartTimeRef (refs s) <= t)%Q
       ∧ nodes (world s')
         = nodes (world s) ++ [ {| node_buffer := buf; node_start := Some t;
                                   node_stopped := false |} ]
       ∧ sourcesRef (refs s')
         = sourcesRef (refs s) ∪ {[ length (nodes (world s)) ]}
       ∧ nextStartTimeRef (refs s') = (t + duration buf)%Q).
Proof.
  assert (Same : ∀ s' : State,
            nodes (world s') = nodes (world s) →
            sourcesRef (refs s') = sourcesRef (refs s) →
            nextStartTimeRef (refs s') = nextStartTimeRef (refs s) →
            nodes (world s') = nodes (world s)
            ∧ sourcesRef (refs s') ⊆ sourcesRef (refs s)
            ∧ (nextStartTimeRef (refs s) <= nextStartTimeRef (refs s'))%Q).
  { intros s' -> -> ->. split_ands; [reflexivity | reflexivity | apply Qle_refl]. }
  assert (Disc : ∀ settled,
            sourcesRef (refs (disconnect settled s)) = ∅
            ∧ nextStartTimeRef (refs (disconnect settled s))
              = nextStartTimeRef (refs s)
            ∨ disconnect settled s = s).
  { intros settled. unfold disconnect.
    destruct (sessionRef (refs s)), settled; auto. }
  destruct e as [env|session|env m| | |source|settled]; cbn [handle] in *; cbv zeta.
  - unfold click. destruct (button_disabled s); [left; apply Same; reflexivity|].
    destruct (isConnected (ui s)).
    + destruct (Disc (click_settled env)) as [H| ->];
        [right; left; exact H | left; apply Same; reflexivity].
    + destruct (connect_frame (click_connect env) s) as (H1 & H2 & H3 & _).
      left. apply Same; assumption.
  - left. apply Same; unfold onopen; cbn;
      destruct (inputContextRef (refs s)), (streamRef (refs s)); reflexivity.
  - destruct (render_frame (renderNow env) (post (onmessage env m s)))
      as (-> & -> & _).
    destruct (before_audio_frame env m s) as (Hw & _ & Hc & Hs & _).
    rewrite onmessage_unfold.
    destruct (on_audio_cases env m (before_audio env m s))
      as [E|[[e E]|(buf & Hd & E)]]; rewrite E; cbn [thrown post].
    + unfold on_interrupted. destruct (interrupted m) eqn:Ei.
      * right. right. left. split_ands; [reflexivity | reflexivity |].
        exists env, m. auto.
      * left. apply Same; congruence.
    + left. cbn. rewrite Hw, Hs, Hc.
      split_ands; [reflexivity | reflexivity | apply Q.le_max_l].
    + unfold on_interrupted. destruct (interrupted m) eqn:Ei.
      * right. right. left. split_ands; [reflexivity | reflexivity |].
        exists env, m. auto.
      * right. right. right.
        exists buf, (Qmax (nextStartTimeRef (refs s)) (currentTime env)).
        cbn. rewrite Hw, Hs, Hc.
        split_ands; [exact Hd | apply Q.le_max_l | reflexivity..].
  - left. apply Same; reflexivity.
  - left. apply Same; reflexivity.
  - left. cbn.
    split_ands; [reflexivity | apply subseteq_difference_l; reflexivity
                | apply Qle_refl].
  - destruct (Disc settled) as [H| ->];
      [right; left; exact H | left; apply Same; reflexivity].
Qed.

(** X7. In every state the component can reach the active set is sound: its
    members are sources that were started and not stopped, each ends at or
    before the cursor, and no two of them overlap in time. *)
Theorem active_sources_never_overlap (s : State) :
  reachable s → active_set_ok s.
Proof.
  induction 1 as [|e s Hs (Hc & Hm & Ho)].
  - (unfold active_set_ok; split_ands); [apply Qle_refl | intros i Hi | intros i j ? ? ? ? ? ? Hi];
      cbn in Hi; apply not_elem_of_empty in Hi; contradiction.
  - destruct (handle_schedule_cases e s)
      as [(Hn & Hsub & Hle)|[(He & Hk)|[(He & Hz & _)|
          (buf & t & Hd & Ht & Hn & Hsrc & Hcur)]]].
    + (unfold active_set_ok; split_ands).
      * eapply Qle_trans; [exact Hc | exact Hle].
      * intros i Hi. destruct (Hm i (Hsub i Hi))
          as (nd & a & b & H1 & H2 & H3 & H4 & H5 & H6).
        exists nd, a, b. rewrite Hn.
        (unfold active_set_ok; split_ands); try assumption. eapply Qle_trans; [exact H6 | exact Hle].
      * intros i j ni nj a b a' b' Hi Hj Hij H1 H2. rewrite Hn in H1, H2.
        exact (Ho i j ni nj a b a' b' (Hsub i Hi) (Hsub j Hj) Hij H1 H2).
    + (unfold active_set_ok; split_ands).
      * rewrite Hk. exact Hc.
      * intros i Hi. rewrite He in Hi.
        apply not_elem_of_empty in Hi. contradiction.
      * intros i j ? ? ? ? ? ? Hi. rewrite He in Hi.
        apply not_elem_of_empty in Hi. contradiction.
    + (unfold active_set_ok; split_ands).
      * rewrite Hz. apply Qle_refl.
      * intros i Hi. rewrite He in Hi.
        apply not_elem_of_empty in Hi. contradiction.
      * intros i j ? ? ? ? ? ? Hi. rewrite He in Hi.
        apply not_elem_of_empty in Hi. contradiction.
    + assert (Hold : ∀ i, i ∈ sourcesRef (refs s) →
                (i < length (nodes (world s)))%nat).
      { intros i Hi. destruct (Hm i Hi) as (nd & ? & ? & H1 & _).
        eapply lookup_lt_Some, H1. }
      assert (Hnew : (t < t + duration buf)%Q).
      { rewrite <- (Qplus_0_r t) at 1. apply Qplus_lt_r, Hd. }
      assert (Ht0 : (0 <= t)%Q) by (eapply Qle_trans; [exact Hc | exact Ht]).
      (unfold active_set_ok; split_ands).
      * rewrite Hcur. apply Qlt_le_weak.
        eapply Qle_lt_trans; [exact Ht0 | exact Hnew].
      * intros i Hi. rewrite Hsrc in Hi. rewrite Hn, Hcur.
        apply elem_of_union in Hi. destruct Hi as [Hi|Hi].
        -- destruct (Hm i Hi) as (nd & a & b & H1 & H2 & H3 & H4 & H5 & H6).
           exists nd, a, b. rewrite lookup_app_l by (eapply lookup_lt_Some, H1).
           (unfold active_set_ok; split_ands); try assumption.
           eapply Qle_trans; [exact H6|]. eapply Qle_trans; [exact Ht|].
           apply Qlt_le_weak, Hnew.
        -- apply elem_of_singleton in Hi. subst i.
           eexists _, t, (t + duration buf)%Q.
           rewrite list_lookup_middle by reflexivity.
           (unfold active_set_ok; split_ands); [reflexivity | reflexivity | reflexivity | exact Ht0
                       | exact Hnew | apply Qle_refl].
      * intros i j ni nj a b a' b' Hi Hj Hij H1 H2 H3 H4.
        rewrite Hsrc in Hi, Hj. rewrite Hn in H1, H2.
        apply elem_of_union in Hi, Hj.
        destruct Hj as [Hj|Hj].
        -- destruct Hi as [Hi|Hi].
           ++ rewrite lookup_app_l in H1, H2 by auto.
              exact (Ho i j ni nj a b a' b' Hi Hj Hij H1 H2 H3 H4).
           ++ apply elem_of_singleton in Hi. specialize (Hold j Hj). lia.
        -- apply elem_of_singleton in Hj. subst j.
           rewrite list_lookup_middle in H2 by reflexivity.
           injection H2 as <-. cbn in H4. injection H4 as <- <-.
           destruct Hi as [Hi|Hi]; [|apply elem_of_singleton in Hi; lia].
           rewrite lookup_app_l in H1 by auto.
           destruct (Hm i Hi) as (nd & x & y & G1 & _ & G3 & _ & _ & G6).
           rewrite H1 in G1. injection G1 as <-.
           rewrite H3 in G3. injection G3 as <- <-.
           eapply Qle_trans; [exact G6 | exact Ht].
Qed.

(** X8. Only an interruption moves the cursor backwards: after any event other
    than a message that carries [interrupted], the cursor is where it was
    or later. Neither [connect] nor [disconnect] resets it. *)
Theorem cursor_only_falls_on_interruption (e : Event) (s : State) :
  (∀ env m, e = Message env m → interrupted m = false) →
  (nextStartTimeRef (refs s) <= nextStartTimeRef (refs (handle e s)))%Q.
Proof.
  intros Hno.
  destruct (handle_schedule_cases e s)
    as [(_ & _ & Hle)|[(_ & Hk)|[(_ & _ & env & m & -> & Hi)|
        (buf & t & Hd & Ht & _ & _ & Hcur)]]].
  - exact Hle.
  - rewrite Hk. apply Qle_refl.
  - rewrite (Hno env m eq_refl) in Hi. discriminate.
  - rewrite Hcur. eapply Qle_trans; [exact Ht|].
    rewrite <- (Qplus_0_r t) at 1. apply Qplus_le_r, Qlt_le_weak, Hd.
Qed.

Lemma reachable_run_events (events : list Event) : ∀ s,
  reachable s → reachable (run_events events s).
Proof.
  induction events as [|e events IH]; intros s Hs; [exact Hs|].
  apply IH, reachable_step, Hs.
Qed.

Lemma reachable_run_messages (frames : list (MsgEnv * LiveServerMessage)) :
  ∀ s, reachable s → reachable (run_messages frames s).
Proof.
  induction frames as [|f frames IH]; intros s Hs; [exact Hs|].
  apply IH, reachable_step, Hs.
Qed.

Lemma two_queued_reachable : reachable two_queued.
Proof. apply reachable_run_messages, live_reachable. Qed.

Lemma active_sources_never_overlap_witness :
  size (sourcesRef (refs two_queued)) = 2%nat ∧ active_set_ok two_queued.
Proof.
  split; [vm_compute; reflexivity|].
  apply (active_sources_never_overlap two_queued), two_queued_reachable.
Defined.

Lemma cursor_only_falls_on_interruption_witness :
  (nextStartTimeRef (refs two_queued)
   <= nextStartTimeRef
        (refs (handle (Message (at_clock 5) (audio_message odd_payload))
                 two_queued)))%Q.
Proof.
  apply (cursor_only_falls_on_interruption
           (Message (at_clock 5) (audio_message odd_payload)) two_queued).
  intros env m H. injection H as _ <-. reflexivity.
Defined.

(** ** The connection flags *)

Lemma connect_not_connected (env : ConnectEnv) (s : State) :
  isConnected (ui s) = false → isConnected (ui (connect env s)) = false.
Proof.
  intros H.
  destruct (initAudio_spec env (connect_reset s)) as (Hu & _).
  destruct (connect_cases env s) as [(e & _ & ->)|[(_ & ->)|(_ & ->)]].
  - apply connect_catch_spec.
  - apply connect_catch_spec.
  - cbn. rewrite Hu. exact H.
Qed.

Lemma connect_catch_queued (e : Exception) (s : State) :
  queued (ui (connect_catch e s)) = queued (ui s)
  ∧ permissionDenied (ui (connect_catch e s))
    = (includes (lit "Microphone") (ex_message e)
       || str_eqb (ex_name e) (lit "NotAllowedError")
       || str_eqb (ex_name e) (lit "PermissionDeniedError")
       || permissionDenied (ui s)).
Proof.
  unfold connect_catch. destruct (_ || _); split; reflexivity.
Qed.

Lemma connect_queue (env : ConnectEnv) (s : State) :
  queued (ui (connect env s)) = [].
Proof.
  destruct (initAudio_spec env (connect_reset s)) as (Hu & _).
  destruct (connect_cases env s) as [(e & _ & ->)|[(_ & ->)|(_ & ->)]].
  - destruct (connect_catch_queued e (fst (initAudio env (connect_reset s))))
      as [-> _]. rewrite Hu. reflexivity.
  - destruct (connect_catch_queued microphone_error
                (upd_ui (set_permissionDenied true)
                   (fst (initAudio env (connect_reset s))))) as [-> _].
    change (queued (ui (fst (initAudio env (connect_reset s)))) = []).
    rewrite Hu. reflexivity.
  - change (queued (ui (fst (initAudio env (connect_reset s)))) = []).
    rewrite Hu. reflexivity.
Qed.

(** A message never queues an update that outlives its render, so between
    events the queue of the transcript is empty. *)
Lemma queue_empty_between_events (s : State) :
  reachable s → queued (ui s) = [].
Proof.
  induction 1 as [|e s Hs IH]; [reflexivity|].
  destruct e as [env|session|env m| | |source|settled]; cbn [handle].
  - unfold click. destruct (button_disabled s); [exact IH|].
    destruct (isConnected (ui s)).
    + unfold disconnect.
      destruct (sessionRef (refs s)), (click_settled env); exact IH.
    + apply connect_queue.
  - unfold onopen. cbn.
    destruct (inputContextRef (refs s)), (streamRef (refs s)); exact IH.
  - apply render_frame.
  - exact IH.
  - exact IH.
  - exact IH.
  - unfold disconnect. destruct (sessionRef (refs s)), settled; exact IH.
Qed.

(** X9. In every state the component can reach the two connection flags agree:
    [isConnected] is true exactly when the status is [connected], so the
    button offers [disconnect] exactly on a connected session. *)
Theorem connection_flags_agree (s : State) :
  reachable s → (isConnected (ui s) = true ↔ status (ui s) = connected).
Proof.
  intros Hs. split; [|apply connected_flag, Hs].
  induction Hs as [|e s Hs IH]; [discriminate|].
  destruct e as [env|session|env m| | |source|settled]; cbn [handle].
  - unfold click. destruct (button_disabled s); [exact IH|].
    destruct (isConnected (ui s)) eqn:Ec.
    + unfold disconnect.
      destruct (sessionRef (refs s)), (click_settled env);
        first [cbn; discriminate | intros _; exact (IH eq_refl)].
    + rewrite connect_not_connected by exact Ec. discriminate.
  - intros _. apply onopen_spec.
  - destruct (render_frame (renderNow env) (post (onmessage env m s)))
      as (_ & _ & -> & -> & _).
    destruct (onmessage_connection env m s) as [-> ->]. exact IH.
  - discriminate.
  - discriminate.
  - exact IH.
  - unfold disconnect.
    destruct (sessionRef (refs s)), settled; first [exact IH | cbn; discriminate].
Qed.

Lemma connection_flags_agree_witness :
  isConnected (ui two_queued) = true ↔ status (ui two_queued) = connected.
Proof. exact (connection_flags_agree two_queued two_queued_reachable). Defined.

(** ** The permission latch *)

(** X10. Once the microphone has been refused the component is latched: the
    button is disabled, so a click runs nothing, and no event other than
    the unmount clears the flag. *)
Theorem permission_denied_latches (e : Event) (s : State) :
  permissionDenied (ui s) = true →
  (∀ settled, e ≠ Unmount settled) →
  permissionDenied (ui (handle e s)) = true
  ∧ ∀ env, handle (Click env) s = s.
Proof.
  intros Hp Hne.
  assert (Hb : button_disabled s = true)
    by (unfold button_disabled; rewrite Hp; reflexivity).
  split.
  - destruct e as [env|session|env m| | |source|settled]; cbn [handle].
    + unfold click. rewrite Hb. exact Hp.
    + unfold onopen. cbn.
      destruct (inputContextRef (refs s)), (streamRef (refs s)); exact Hp.
    + pose proof (on_audio_ui env m (before_audio env m s)) as Hu.
      assert (Hq : permissionDenied (ui (before_audio env m s)) = true).
      { rewrite <- Hp.
        unfold before_audio, on_turnComplete, commitTurn, commit_user,
          commit_model, enqueue, on_outputTranscription,
          on_inputTranscription.
        repeat match goal with
               | |- context [if ?b then _ else _] => destruct b
               end; reflexivity. }
      rewrite onmessage_unfold.
      destruct (thrown (on_audio env m (before_audio env m s))).
      * cbn. rewrite Hu. exact Hq.
      * cbn [post]. unfold on_interrupted.
        destruct (interrupted m); cbn; rewrite Hu; exact Hq.
    + exact Hp.
    + exact Hp.
    + exact Hp.
    + exfalso. exact (Hne settled eq_refl).
  - intros env. cbn [handle]. unfold click. rewrite Hb. reflexivity.
Qed.

Lemma permission_denied_latches_witness :
  permissionDenied (ui (handle (Click clicking) (connect refused initial)))
  = true
  ∧ ∀ env, handle (Click env) (connect refused initial)
           = connect refused initial.
Proof.
  apply (permission_denied_latches (Click clicking) (connect refused initial)).
  - vm_compute. reflexivity.
  - discriminate.
Defined.

(** ** The transcript *)

Lemma on_audio_buffers env m s :
  currentInputBuffer (refs (post (on_audio env m s)))
  = currentInputBuffer (refs s)
  ∧ currentOutputBuffer (refs (post (on_audio env m s)))
    = currentOutputBuffer (refs s).
Proof.
  destruct (on_audio_cases env m s) as [E|[[e E]|(buf & _ & E)]];
    rewrite E; split; reflexivity.
Qed.

(** What a message leaves in the React state and in the two buffers, from
    what the text branches left. *)
Lemma onmessage_text env m s :
  let s1 := before_audio env m s in
  let s' := post (onmessage env m s) in
  queued (ui s') = queued (ui s1)
  ∧ transcript (ui s') = transcript (ui s1)
  ∧ currentInputBuffer (refs s') = currentInputBuffer (refs s1)
  ∧ (currentOutputBuffer (refs s') = currentOutputBuffer (refs s1)
     ∨ interrupted m = true ∧ currentOutputBuffer (refs s') = []).
Proof.
  cbv zeta.
  pose proof (on_audio_ui env m (before_audio env m s)) as Hu.
  destruct (on_audio_buffers env m (before_audio env m s)) as [Hi Ho].
  rewrite onmessage_unfold.
  destruct (thrown (on_audio env m (before_audio env m s))).
  - rewrite Hu, Hi, Ho. auto.
  - cbn [post]. unfold on_interrupted. destruct (interrupted m).
    + cbn. rewrite Hu, Hi. auto 6.
    + rewrite Hu, Hi, Ho. auto.
Qed.

Lemma text_appended (buf : jsstring) (t : option (option jsstring)) :
  (if truthy (text_of t) then buf ++ text_of t else buf) = buf ++ text_of t.
Proof.
  destruct (text_of t); cbn [truthy]; [rewrite app_nil_r|]; reflexivity.
Qed.

(** The text branches of a message that does not complete the turn. *)
Lemma before_audio_mid_turn env m s :
  turnComplete m = false →
  let s1 := before_audio env m s in
  queued (ui s1) = queued (ui s)
  ∧ transcript (ui s1) = transcript (ui s)
  ∧ currentInputBuffer (refs s1)
    = currentInputBuffer (refs s) ++ text_of (inputTranscription m)
  ∧ currentOutputBuffer (refs s1)
    = currentOutputBuffer (refs s) ++ text_of (outputTranscription m).
Proof.
  intros Ht. cbv zeta.
  unfold before_audio, on_turnComplete. rewrite Ht.
  rewrite <- (text_appended (currentInputBuffer (refs s))),
          <- (text_appended (currentOutputBuffer (refs s))).
  unfold on_outputTranscription, on_inputTranscription.
  destruct (truthy (text_of (inputTranscription m)));
    destruct (truthy (text_of (outputTranscription m)));
    split_ands; reflexivity.
Qed.

Lemma run_updates_nil now k r t : run_updates now k r [] t = t.
Proof. reflexivity. Qed.

(** X11. Within a turn the transcription deltas accumulate: after a run of
    messages that neither complete nor interrupt the turn, each buffer is
    what it was followed by the deltas of its side in order of arrival,
    whatever audio the messages carry and whether or not it decodes; the
    transcript is untouched. *)
Theorem deltas_accumulate (frames : list (MsgEnv * LiveServerMessage))
    (s : State) :
  queued (ui s) = [] → Forall (λ f, mid_turn (snd f)) frames →
  let s' := run_messages frames s in
  currentInputBuffer (refs s')
  = currentInputBuffer (refs s) ++ input_deltas frames
  ∧ currentOutputBuffer (refs s')
    = currentOutputBuffer (refs s) ++ output_deltas frames
  ∧ transcript (ui s') = transcript (ui s).
Proof.
  intros Hq Hall. revert s Hq. cbv zeta.
  induction Hall as [|[env m] frames [Ht Hi] _ IH]; intros s Hq.
  - cbn. rewrite !app_nil_r. auto.
  - rewrite run_messages_cons. cbn [fst snd] in *.
    set (s1 := render (renderNow env) (post (onmessage env m s))).
    destruct (render_frame (renderNow env) (post (onmessage env m s)))
      as (Hr & _ & _ & _ & _ & Hq1).
    destruct (onmessage_text env m s) as (Gq & Gt & Gi & Go).
    destruct (before_audio_mid_turn env m s Ht) as (Bq & Bt & Bi & Bo).
    destruct Go as [Go|[Go _]]; [|congruence].
    assert (T1 : transcript (ui s1) = transcript (ui s)).
    { subst s1. unfold render. cbn. rewrite Gq, Bq, Hq, Gt, Bt. reflexivity. }
    destruct (IH s1 Hq1) as (I1 & I2 & I3).
    fold s1 in Hr. rewrite I1, I2, I3, T1, Hr, Gi, Go, Bi, Bo.
    unfold input_deltas, output_deltas. cbn [map concat fst snd].
    rewrite <- !app_assoc. auto.
Qed.

Lemma deltas_accumulate_witness :
  currentInputBuffer (refs (run_messages mixed_frames live)) = lit "wait"
  ∧ currentOutputBuffer (refs (run_messages mixed_frames live))
    = lit "Once upon"
  ∧ transcript (ui (run_messages mixed_frames live)) = [].
Proof.
  apply (deltas_accumulate mixed_frames live).
  - reflexivity.
  - repeat constructor.
Defined.

(** The entries the render appends, one for each queued update and of the
    role of that update. *)
Lemma run_updates_roles now r q : ∀ k t,
  ∃ new, run_updates now k r q t = t ++ new
         ∧ map role new = map update_role q
         ∧ Forall2 (λ u e, match u with
                           | Computed entry => e = entry
                           | UserUpdater => text e = trim (currentInputBuffer r)
                           | ModelUpdater => text e = trim (currentOutputBuffer r)
                           end) q new.
Proof.
  induction q as [|u q IH]; intros k t.
  - exists []. cbn. rewrite app_nil_r. auto.
  - destruct u as [entry| |]; cbn [run_updates].
    + destruct (IH k (t ++ [entry])) as (new & -> & Hr & Hf).
      exists (entry :: new). rewrite <- app_assoc. cbn. rewrite Hr. auto.
    + destruct (IH (S (S k)) (t ++ [user_entry now k r])) as (new & -> & Hr & Hf).
      exists (user_entry now k r :: new). rewrite <- app_assoc. cbn.
      rewrite Hr. auto.
    + destruct (IH (S (S k)) (t ++ [model_entry now k r])) as (new & -> & Hr & Hf).
      exists (model_entry now k r :: new). rewrite <- app_assoc. cbn.
      rewrite Hr. auto.
Qed.

(** What [commitTurn] queues: at most one update of the user side, then at
    most one of the model side, the latter only when the output buffer
    holds more than blanks. *)
Lemma commitTurn_queue env s :
  ∃ us ms,
    queued (ui (commitTurn env s)) = queued (ui s) ++ us ++ ms
    ∧ transcript (ui (commitTurn env s)) = transcript (ui s)
    ∧ (us = [] ∨ ∃ u, us = [u] ∧ update_role u = user)
    ∧ (ms = [] ∨ ∃ u, ms = [u] ∧ update_role u = model)
    ∧ (truthy (trim (currentOutputBuffer (refs s))) = false → ms = []).
Proof.
  unfold commitTurn, commit_user, commit_model, enqueue.
  destruct (truthy (trim (currentInputBuffer (refs s)))) eqn:Ei;
    cbn [refs upd_refs upd_ui set_currentInputBuffer currentOutputBuffer];
    destruct (truthy (trim (currentOutputBuffer (refs s)))) eqn:Eo.
  - destruct (eager env 0), (eager env 1);
      eexists [_], [_]; cbn; rewrite <- app_assoc;
      (split_ands; [reflexivity | reflexivity | right; eexists; split; reflexivity
                   | right; eexists; split; reflexivity | discriminate]).
  - destruct (eager env 0);
      eexists [_], []; cbn;
      (split_ands; [reflexivity | reflexivity | right; eexists; split; reflexivity
                   | left; reflexivity | reflexivity]).
  - destruct (eager env 0);
      eexists [], [_]; cbn;
      (split_ands; [reflexivity | reflexivity | left; reflexivity
                   | right; eexists; split; reflexivity | discriminate]).
  - exists [], []. cbn. rewrite app_nil_r. auto 10.
Qed.

(** The queue and the transcript after the text branches of any message. *)
Lemma before_audio_queue env m s :
  ∃ us ms,
    queued (ui (before_audio env m s)) = queued (ui s) ++ us ++ ms
    ∧ transcript (ui (before_audio env m s)) = transcript (ui s)
    ∧ (us = [] ∨ ∃ u, us = [u] ∧ update_role u = user)
    ∧ (ms = [] ∨ ∃ u, ms = [u] ∧ update_role u = model)
    ∧ (turnComplete m = false → us = [] ∧ ms = [])
    ∧ (truthy (trim (currentOutputBuffer (refs s)
                     ++ text_of (outputTranscription m))) = false → ms = []).
Proof.
  destruct (turnComplete m) eqn:Ht.
  - unfold before_audio, on_turnComplete. rewrite Ht.
    set (s1 := on_outputTranscription m (on_inputTranscription m s)).
    destruct (commitTurn_queue env s1) as (us & ms & Hq & Htr & Hu & Hm & Hb).
    assert (F : queued (ui s1) = queued (ui s)
                ∧ transcript (ui s1) = transcript (ui s)
                ∧ currentOutputBuffer (refs s1)
                  = currentOutputBuffer (refs s)
                    ++ text_of (outputTranscription m)).
    { rewrite <- (text_appended (currentOutputBuffer (refs s))).
      subst s1. unfold on_outputTranscription, on_inputTranscription.
      destruct (truthy (text_of (inputTranscription m)));
        destruct (truthy (text_of (outputTranscription m)));
        split_ands; reflexivity. }
    destruct F as (F1 & F2 & F3).
    exists us, ms. rewrite Hq, Htr, F1, F2, <- F3.
    split_ands; try assumption; try reflexivity. discriminate.
  - destruct (before_audio_mid_turn env m s Ht) as (Bq & Bt & _).
    exists [], []. rewrite Bq, Bt, app_nil_r. auto 10.
Qed.

(** X12. A message only appends to the transcript, at most one entry of the
    user followed by at most one of the agent, and nothing unless it
    completes a turn, however React schedules the updates. *)
Theorem transcript_grows_by_turns (env : MsgEnv) (m : LiveServerMessage)
    (s : State) :
  reachable s →
  ∃ new,
    transcript (ui (handle (Message env m) s)) = transcript (ui s) ++ new
    ∧ (map role new = [] ∨ map role new = [user] ∨ map role new = [model]
       ∨ map role new = [user; model])
    ∧ (turnComplete m = false → new = []).
Proof.
  intros Hs. pose proof (queue_empty_between_events s Hs) as Hq.
  cbn [handle]. unfold render. cbn [ui upd_ui transcript set_queued set_transcript].
  destruct (onmessage_text env m s) as (Gq & Gt & _).
  destruct (before_audio_queue env m s)
    as (us & ms & Bq & Bt & Hu & Hm & Hn & _).
  rewrite Gq, Gt, Bq, Bt, Hq. cbn [app].
  destruct (run_updates_roles (renderNow env) (refs (post (onmessage env m s)))
              (us ++ ms) 0 (transcript (ui s))) as (new & -> & Hr & _).
  exists new. split_ands; [reflexivity | |].
  - rewrite Hr.
    destruct Hu as [->|(u & -> & Eu)], Hm as [->|(v & -> & Ev)]; cbn;
      rewrite ?Eu, ?Ev; auto.
  - intros Ht. destruct (Hn Ht) as [-> ->].
    destruct new; [reflexivity | discriminate].
Qed.

Lemma hello_turn_reachable : reachable hello_turn.
Proof. apply reachable_run_messages, live_reachable. Qed.

Lemma transcript_grows_by_turns_witness :
  ∃ new,
    transcript (ui (handle (Message (at_clock_idle 0) turnComplete_message)
                      hello_turn))
    = transcript (ui hello_turn) ++ new
    ∧ (map role new = [] ∨ map role new = [user] ∨ map role new = [model]
       ∨ map role new = [user; model])
    ∧ (turnComplete turnComplete_message = false → new = []).
Proof.
  exact (transcript_grows_by_turns (at_clock_idle 0) turnComplete_message
           hello_turn hello_turn_reachable).
Defined.

(** ** Interruption *)

Lemma onmessage_audio_context env m s :
  audioContextRef (refs (post (onmessage env m s)))
  = audioContextRef (refs s).
Proof.
  destruct (before_audio_frame env m s) as (_ & Ha & _).
  rewrite onmessage_unfold.
  destruct (on_audio_cases env m (before_audio env m s))
    as [E|[[e E]|(buf & _ & E)]]; rewrite E; cbn [thrown post];
    try (unfold on_interrupted; destruct (interrupted m)); cbn; exact Ha.
Qed.





(** The text branches before the turn-complete branch. *)
Lemma text_branches_buffers (m : LiveServerMessage) (s : State) :
  let s1 := on_outputTranscription m (on_inputTranscription m s) in
  queued (ui s1) = queued (ui s)
  ∧ transcript (ui s1) = transcript (ui s)
  ∧ currentOutputBuffer (refs s1)
    = currentOutputBuffer (refs s) ++ text_of (outputTranscription m).
Proof.
  cbv zeta. rewrite <- (text_appended (currentOutputBuffer (refs s))).
  unfold on_outputTranscription, on_inputTranscription.
  destruct (truthy (text_of (inputTranscription m)));
    destruct (truthy (text_of (outputTranscription m)));
    split_ands; reflexivity.
Qed.

(** With an empty agent buffer, a message that brings no agent text leaves
    it empty. *)
Lemma before_audio_output_empty env m s :
  currentOutputBuffer (refs s) = [] → no_agent_text m →
  currentOutputBuffer (refs (before_audio env m s)) = [].
Proof.
  intros Hb Hno. unfold no_agent_text in Hno.
  assert (Ht : text_of (outputTranscription m) = [])
    by (destruct (text_of (outputTranscription m)); [reflexivity|discriminate]).
  destruct (text_branches_buffers m s) as (_ & _ & Ho).
  cbv zeta in Ho. rewrite Hb, Ht in Ho.
  unfold before_audio, on_turnComplete.
  destruct (turnComplete m); [|exact Ho].
  destruct (commitTurn_buffers env
              (on_outputTranscription m (on_inputTranscription m s)))
    as (_ & Hc & _).
  cbv zeta in Hc. rewrite Hc, Ho. reflexivity.
Qed.

(** One message without agent text, from a state whose agent buffer is
    empty: only entries of the user are appended, and the buffer stays
    empty. *)
Lemma no_agent_text_step env m s :
  queued (ui s) = [] → currentOutputBuffer (refs s) = [] → no_agent_text m →
  let s' := handle (Message env m) s in
  (∃ new, transcript (ui s') = transcript (ui s) ++ new
          ∧ Forall (λ e, role e = user) new)
  ∧ queued (ui s') = []
  ∧ currentOutputBuffer (refs s') = [].
Proof.
  intros Hq Hb Hno. cbv zeta. cbn [handle].
  destruct (render_frame (renderNow env) (post (onmessage env m s)))
    as (Hr & _ & _ & _ & _ & Hq').
  destruct (onmessage_text env m s) as (Gq & Gt & _ & Go).
  pose proof (before_audio_output_empty env m s Hb Hno) as Hb'.
  split_ands; [| exact Hq' |].
  - unfold render. cbn [ui upd_ui transcript set_queued set_transcript].
    destruct (before_audio_queue env m s)
      as (us & ms & Bq & Bt & Hu & _ & _ & Hm).
    assert (Ht : text_of (outputTranscription m) = []).
    { unfold no_agent_text in Hno.
      destruct (text_of (outputTranscription m)); [reflexivity|discriminate]. }
    rewrite Hb, Ht in Hm. rewrite (Hm eq_refl), app_nil_r in Bq.
    rewrite Gq, Gt, Bq, Bt, Hq. cbn [app].
    destruct (run_updates_roles (renderNow env)
                (refs (post (onmessage env m s))) us 0 (transcript (ui s)))
      as (new & -> & Hrl & _).
    exists new. split; [reflexivity|].
    destruct Hu as [->|(u & -> & Eu)].
    + destruct new; [constructor | discriminate].
    + destruct new as [|e [|e' new]]; try discriminate.
      cbn in Hrl. rewrite Eu in Hrl. injection Hrl as Hrl.
      repeat constructor. exact Hrl.
  - rewrite Hr. destruct Go as [Go|[_ Go]]; rewrite Go; [exact Hb' | reflexivity].
Qed.

Lemma no_agent_text_run (frames : list (MsgEnv * LiveServerMessage)) : ∀ s,
  queued (ui s) = [] → currentOutputBuffer (refs s) = [] →
  Forall (λ f, no_agent_text (snd f)) frames →
  ∃ new, transcript (ui (run_messages frames s)) = transcript (ui s) ++ new
         ∧ Forall (λ e, role e = user) new.
Proof.
  induction frames as [|[env m] frames IH]; intros s Hq Hb Hall.
  - exists []. rewrite app_nil_r. split; [reflexivity | constructor].
  - inversion Hall as [|f fs Hm Hrest]; subst. cbn [snd] in Hm.
    destruct (no_agent_text_step env m s Hq Hb Hm)
      as ((new1 & E1 & F1) & Hq1 & Hb1).
    cbv zeta in E1, Hq1, Hb1.
    destruct (IH _ Hq1 Hb1 Hrest) as (new2 & E2 & F2).
    exists (new1 ++ new2). split.
    + change (run_messages ((env, m) :: frames) s)
        with (run_messages frames (handle (Message env m) s)).
      rewrite E2, E1, app_assoc. reflexivity.
    + apply Forall_app. split; assumption.
Qed.

(** X13. What the agent had said when an interruption arrives is dropped
    for good. After a message that carries [interrupted] and does not throw,
    the agent buffer is empty and the live partial is cleared; when that
    message does not itself complete the turn it appends nothing to the
    transcript; and whatever messages follow, as long as they bring no
    agent text, append entries of the user only, even when they complete
    turns or carry audio that fails to decode. (When the interrupting
    message also completes the turn, its turn-complete branch has run
    first.) *)
Theorem interrupted_answer_not_committed (env : MsgEnv)
    (m : LiveServerMessage) (frames : list (MsgEnv * LiveServerMessage))
    (s : State) :
  reachable s → interrupted m = true → thrown (onmessage env m s) = None →
  Forall (λ f, no_agent_text (snd f)) frames →
  let s1 := handle (Message env m) s in
  currentOutputBuffer (refs s1) = []
  ∧ realtimeText (ui s1) = None
  ∧ (turnComplete m = false → transcript (ui s1) = transcript (ui s))
  ∧ ∃ new, transcript (ui (run_messages frames s1))
           = transcript (ui s1) ++ new
           ∧ Forall (λ e, role e = user) new.
Proof.
  intros Hs Hi Hth Hall. cbv zeta.
  assert (Hs1 : reachable (handle (Message env m) s))
    by (apply reachable_step, Hs).
  pose proof (queue_empty_between_events _ Hs1) as Hq1.
  pose proof (queue_empty_between_events _ Hs) as Hq.
  assert (Hb : currentOutputBuffer (refs (handle (Message env m) s)) = []
               ∧ realtimeText (ui (handle (Message env m) s)) = None).
  { cbn [handle].
    destruct (render_frame (renderNow env) (post (onmessage env m s)))
      as (-> & _ & _ & _ & -> & _).
    rewrite (onmessage_interrupted env m s Hi Hth). split; reflexivity. }
  destruct Hb as [Hb Hrt]. split_ands; [exact Hb | exact Hrt | |].
  - intros Ht. cbn [handle]. unfold render.
    cbn [ui upd_ui transcript set_queued set_transcript].
    destruct (onmessage_text env m s) as (Gq & Gt & _).
    destruct (before_audio_mid_turn env m s Ht) as (Bq & Bt & _).
    rewrite Gq, Gt, Bq, Bt, Hq. reflexivity.
  - apply no_agent_text_run; assumption.
Qed.

Lemma interrupted_answer_not_committed_witness :
  currentOutputBuffer
    (refs (handle (Message (at_clock 1) interrupted_message) hello_turn)) = []
  ∧ transcript
      (ui (handle (Message (at_clock 1) interrupted_message) hello_turn)) = []
  ∧ ∃ new,
      transcript
        (ui (run_messages after_barge_in
               (handle (Message (at_clock 1) interrupted_message) hello_turn)))
      = transcript
          (ui (handle (Message (at_clock 1) interrupted_message) hello_turn))
        ++ new
      ∧ Forall (λ e, role e = user) new.
Proof.
  assert (Hall : Forall (λ f, no_agent_text (snd f)) after_barge_in)
    by (repeat constructor).
  destruct (interrupted_answer_not_committed (at_clock 1) interrupted_message
              after_barge_in hello_turn hello_turn_reachable eq_refl eq_refl
              Hall) as (H1 & _ & H3 & H4).
  split_ands; [exact H1 | rewrite (H3 eq_refl); reflexivity | exact H4].
Defined.

(** X14. After an interruption the timeline starts afresh. When a message that
    carries [interrupted] has been handled without throwing and the very
    next message carries audio that decodes (and no [interrupted] flag),
    the frame of that next message starts at the device clock of its
    arrival (at 0 if that clock were negative), not behind the audio that
    was queued, it is alone in the active set, and the cursor is at its
    end. *)
Theorem interruption_restarts_timeline (env env' : MsgEnv)
    (m m' : LiveServerMessage) (buf : AudioBuffer) (s : State) :
  is_Some (audioContextRef (refs s)) →
  interrupted m = true → thrown (onmessage env m s) = None →
  decodes_to m' buf →
  let s1 := handle (Message env m) s in
  let s2 := handle (Message env' m') s1 in
  nodes (world s2)
  = nodes (world s1)
    ++ [ {| node_buffer := buf;
            node_start := Some (Qmax 0 (currentTime env'));
            node_stopped := false |} ]
  ∧ sourcesRef (refs s2) = {[ length (nodes (world s1)) ]}
  ∧ nextStartTimeRef (refs s2)
    = (Qmax 0 (currentTime env') + duration buf)%Q.
Proof.
  intros Hctx Hi Hth Hd. cbv zeta.
  set (s1 := handle (Message env m) s).
  assert (H1 : is_Some (audioContextRef (refs s1))
               ∧ nextStartTimeRef (refs s1) = 0%Q
               ∧ sourcesRef (refs s1) = ∅).
  { subst s1. cbn [handle].
    destruct (render_frame (renderNow env) (post (onmessage env m s)))
      as (-> & _).
    split; [rewrite onmessage_audio_context; exact Hctx|].
    rewrite (onmessage_interrupted env m s Hi Hth). split; reflexivity. }
  destruct H1 as (Hc1 & Hz & He).
  destruct (valid_frame_step env' m' s1 buf Hc1 Hd)
    as (_ & Hn & Hcur & Hsrc & _).
  cbv zeta in Hn, Hcur, Hsrc. rewrite Hz in Hn, Hcur. rewrite He in Hsrc.
  cbn [handle].
  destruct (render_frame (renderNow env') (post (onmessage env' m' s1)))
    as (-> & -> & _).
  rewrite Hn, Hcur, Hsrc, union_empty_l_L. auto.
Qed.

Lemma interruption_restarts_timeline_witness :
  (nextStartTimeRef (refs two_queued) == 1 # 12000)%Q
  ∧ scheduled_from 2
      (handle (Message (at_clock 1) (audio_message one_sample))
         (handle (Message (at_clock 1) interrupted_message) two_queued))
    = [ (Qmax 0 1, 1 # 24000) ]%Q.
Proof.
  split; [vm_compute; reflexivity|].
  assert (Hd : decodes_to (audio_message one_sample)
                 {| numberOfChannels := 1; ab_length := 1;
                    sampleRate := 24000; channelData := [ [ Fin (0 / 32768) ] ] |}).
  { split; [reflexivity|]. exists one_sample, [ "000"; "000" ]%byte.
    split_ands; vm_compute; reflexivity. }
  assert (Hc : is_Some (audioContextRef (refs two_queued)))
    by (eexists; vm_compute; reflexivity).
  assert (Ht : thrown (onmessage (at_clock 1) interrupted_message two_queued)
               = None) by reflexivity.
  destruct (interruption_restarts_timeline (at_clock 1) (at_clock 1)
              interrupted_message (audio_message one_sample) _ two_queued
              Hc eq_refl Ht Hd) as (Hn & _).
  unfold scheduled_from. rewrite Hn.
  assert (L : length (nodes (world (handle (Message (at_clock 1)
                 interrupted_message) two_queued))) = 2%nat)
    by (vm_compute; reflexivity).
  rewrite drop_app_length' by exact L. reflexivity.
Defined.

(** ** Connecting and disconnecting *)

(** X15. [connect] acquires all or nothing. Either it ends in the status
    [error], not connected, with no stream and no remote session added and
    the two refs as they were; or it ends in the status [connecting] with
    exactly one live stream and one open session added, which the refs
    name, and then the microphone was granted: no session is ever opened
    without its stream. *)
Theorem connect_acquires_all_or_nothing (env : ConnectEnv) (s : State) :
  let s' := connect env s in
  (status (ui s') = error ∧ isConnected (ui s') = false
   ∧ streams (world s') = streams (world s)
   ∧ sessions (world s') = sessions (world s)
   ∧ streamRef (refs s') = streamRef (refs s)
   ∧ sessionRef (refs s') = sessionRef (refs s))
  ∨ (status (ui s') = connecting
     ∧ getUserMedia_fails env = None
     ∧ streams (world s') = streams (world s) ++ [ {| tracks_live := true |} ]
     ∧ sessions (world s')
       = sessions (world s) ++ [ {| session_closed := false |} ]
     ∧ streamRef (refs s') = Some (length (streams (world s)))
     ∧ sessionRef (refs s') = Some (length (sessions (world s)))).
Proof.
  cbv zeta.
  destruct (initAudio_spec env (connect_reset s))
    as (Hu & Hw & _ & _ & Hse & Hst & _).
  pose proof (connect_cases env s) as C.
  cbv zeta in Hu, Hw, Hse, Hst, C.
  set (s1 := fst (initAudio env (connect_reset s))) in *. clearbody s1.
  assert (Catch : ∀ e s2, ui s2 = ui s2 → world s2 = world s1 →
            streamRef (refs s2) = streamRef (refs s1) →
            sessionRef (refs s2) = sessionRef (refs s1) →
            status (ui (connect_catch e s2)) = error
            ∧ isConnected (ui (connect_catch e s2)) = false
            ∧ streams (world (connect_catch e s2)) = streams (world s)
            ∧ sessions (world (connect_catch e s2)) = sessions (world s)
            ∧ streamRef (refs (connect_catch e s2)) = streamRef (refs s)
            ∧ sessionRef (refs (connect_catch e s2)) = sessionRef (refs s)).
  { intros e s2 _ W2 R1 R2.
    destruct (connect_catch_spec e s2) as (-> & -> & -> & -> & _).
    rewrite W2, Hw, R1, R2, Hst, Hse. split_ands; reflexivity. }
  destruct C as [(e & _ & ->)|[(_ & ->)|(Hg & ->)]].
  - left. apply Catch; reflexivity.
  - left. apply Catch; reflexivity.
  - right. cbn. rewrite Hu, Hw. split_ands; try reflexivity. exact Hg.
Qed.

(** The same, on the streams alone. *)
Lemma connect_acquires_or_not (env : ConnectEnv) (s : State) :
  (streams (world (connect env s)) = streams (world s)
   ∧ streamRef (refs (connect env s)) = streamRef (refs s))
  ∨ (streams (world (connect env s))
     = streams (world s) ++ [ {| tracks_live := true |} ]
     ∧ streamRef (refs (connect env s)) = Some (length (streams (world s)))).
Proof.
  destruct (initAudio_spec env (connect_reset s))
    as (_ & Hw & _ & _ & _ & Hst & _).
  pose proof (connect_cases env s) as C.
  cbv zeta in Hw, Hst, C.
  set (s1 := fst (initAudio env (connect_reset s))) in *. clearbody s1.
  destruct C as [(e & _ & ->)|[(_ & ->)|(Hg & ->)]].
  - left. destruct (connect_catch_spec e s1) as (-> & -> & _).
    rewrite Hw, Hst. auto.
  - left.
    destruct (connect_catch_spec microphone_error
                (upd_ui (set_permissionDenied true) s1)) as (-> & -> & _).
    cbn. rewrite Hw, Hst. auto.
  - right. cbn. rewrite Hw. auto.
Qed.

Lemma disconnect_processor_twice (p : option nat) (l : list Processor) :
  disconnect_processor p (disconnect_processor p l) = disconnect_processor p l.
Proof.
  destruct p as [i|]; [|reflexivity]. cbn [disconnect_processor].
  apply list_eq. intros j. destruct (decide (i = j)) as [->|Hne].
  - rewrite !list_lookup_alter_eq. destruct (l !! j); reflexivity.
  - rewrite !list_lookup_alter_ne by exact Hne. reflexivity.
Qed.

Lemma state_eq (a b : State) :
  ui a = ui b → refs a = refs b → world a = world b → a = b.
Proof. destruct a, b. cbn. congruence. Qed.

Lemma world_eq (a b : World) :
  nodes a = nodes b → streams a = streams b → processors a = processors b →
  sessions a = sessions b → a = b.
Proof. destruct a, b. cbn. congruence. Qed.

Lemma disconnect_settled_unfold (s : State) :
  disconnect true s
  = upd_ui (set_realtimeText None)
      (upd_ui (set_permissionDenied false)
         (upd_ui (set_errorMessage [])
            (upd_ui (set_volume 0)
               (upd_ui (set_isConnected false)
                  (upd_ui (set_status disconnected)
                     (upd_refs (set_sourcesRef ∅)
                        (upd_world (fun w =>
                           set_nodes (stop_all (sourcesRef (refs s)) (nodes w)) w)
                           (upd_refs (set_audioContextRef None)
                              (upd_refs (set_inputContextRef None)
                                 (upd_world (fun w =>
                                    set_processors
                                      (disconnect_processor
                                         (processorRef (refs s))
                                         (processors w)) w)
                                    (upd_world (fun w =>
                                       set_streams
                                         (stop_tracks (streamRef (refs s))
                                            (streams w)) w)
                                       (upd_world (fun w =>
                                          set_sessions
                                            (close_session (sessionRef (refs s))
                                               (sessions w)) w)
                                          s)))))))))))).
Proof. unfold disconnect. destruct (sessionRef (refs s)); reflexivity. Qed.

Lemma disconnect_refs_kept (s : State) :
  sessionRef (refs (disconnect true s)) = sessionRef (refs s)
  ∧ streamRef (refs (disconnect true s)) = streamRef (refs s)
  ∧ processorRef (refs (disconnect true s)) = processorRef (refs s).
Proof.
  rewrite disconnect_settled_unfold. split_ands; reflexivity.
Qed.

Lemma disconnect_unsettled (s : State) :
  disconnect false s = s ∨ disconnect false s = disconnect true s.
Proof. unfold disconnect. destruct (sessionRef (refs s)); auto. Qed.

(** X16. [disconnect] is idempotent: run again after it has completed (as the
    unmount does after the button), whether or not the session promise
    settles this time, it changes nothing. *)
Theorem disconnect_is_idempotent (settled : bool) (s : State) :
  disconnect settled (disconnect true s) = disconnect true s.
Proof.
  assert (E : disconnect true (disconnect true s) = disconnect true s).
  { destruct (disconnect_teardown (disconnect true s))
      as (_ & _ & _ & N2 & S2 & P2 & C2 & _).
    destruct (disconnect_teardown s)
      as (_ & _ & Hsrc & N1 & S1 & P1 & C1 & _).
    destruct (disconnect_refs_kept s) as (R1 & R2 & R3).
    cbv zeta in *.
    apply state_eq.
    - rewrite (disconnect_settled_unfold (disconnect true s)).
      rewrite (disconnect_settled_unfold s). reflexivity.
    - rewrite (disconnect_settled_unfold (disconnect true s)).
      rewrite (disconnect_settled_unfold s). reflexivity.
    - apply world_eq.
      + rewrite N2, Hsrc. apply stop_all_empty.
      + rewrite S2, R2, S1. unfold stop_tracks.
        destruct (streamRef (refs s)); [apply list_insert_insert_eq|reflexivity].
      + rewrite P2, R3, P1. apply disconnect_processor_twice.
      + rewrite C2, R1, C1. unfold close_session.
        destruct (sessionRef (refs s)); [apply list_insert_insert_eq|reflexivity]. }
  destruct settled; [exact E|].
  destruct (disconnect_unsettled (disconnect true s)) as [->| ->];
    [reflexivity | exact E].
Qed.

(** X17. A message that arrives when there is no output context, as after
    [disconnect], is not decoded: whatever its payload, nothing is thrown,
    no browser object is created or changed, and the active set stays
    empty. *)
Theorem late_audio_is_dropped (env : MsgEnv) (m : LiveServerMessage)
    (s : State) :
  let s0 := disconnect true s in
  thrown (onmessage env m s0) = None
  ∧ world (post (onmessage env m s0)) = world s0
  ∧ sourcesRef (refs (post (onmessage env m s0))) = ∅.
Proof.
  cbv zeta.
  destruct (disconnect_teardown s) as (_ & _ & Hsrc & _ & _ & _ & _ & Hctx & _).
  cbv zeta in Hsrc, Hctx.
  set (s0 := disconnect true s) in *.
  destruct (before_audio_frame env m s0) as (Hw & Ha & _ & Hs & _).
  assert (E : on_audio env m (before_audio env m s0)
              = {| post := before_audio env m s0; thrown := None |}).
  { unfold on_audio. rewrite Ha, Hctx. destruct (audioData m); reflexivity. }
  rewrite onmessage_unfold, E. cbn [thrown post]. unfold on_interrupted.
  destruct (interrupted m).
  - cbn. rewrite Hs, Hsrc, stop_all_empty, <- Hw.
    destruct (world (before_audio env m s0)). auto.
  - rewrite Hw, Hs, Hsrc. auto.
Qed.

(** ** The microphone stream *)

Lemma before_audio_stream env m s :
  streamRef (refs (before_audio env m s)) = streamRef (refs s).
Proof.
  unfold before_audio, on_turnComplete, commitTurn, commit_user, commit_model,
    enqueue, on_outputTranscription, on_inputTranscription.
  repeat match goal with
         | |- context [if ?b then _ else _] => destruct b
         end; reflexivity.
Qed.

Lemma onmessage_stream env m s :
  streams (world (post (onmessage env m s))) = streams (world s)
  ∧ streamRef (refs (post (onmessage env m s))) = streamRef (refs s).
Proof.
  destruct (before_audio_frame env m s) as (Hw & _).
  pose proof (before_audio_stream env m s) as Hr.
  rewrite onmessage_unfold.
  destruct (on_audio_cases env m (before_audio env m s))
    as [E|[[e E]|(buf & _ & E)]]; rewrite E; cbn [thrown post];
    try (unfold on_interrupted; destruct (interrupted m)); cbn;
    rewrite Hw, Hr; auto.
Qed.

(** The tracks of a stream are stopped only through [streamRef]: a live
    stream the ref does not name stays live, and unnamed, whatever event
    comes. *)
Lemma orphan_stream_step (e : Event) (s : State) (i : nat) :
  streams (world s) !! i = Some {| tracks_live := true |} →
  streamRef (refs s) ≠ Some i →
  streams (world (handle e s)) !! i = Some {| tracks_live := true |}
  ∧ streamRef (refs (handle e s)) ≠ Some i.
Proof.
  intros Hl Hr.
  assert (Disc : ∀ settled,
            streams (world (disconnect settled s)) !! i
            = Some {| tracks_live := true |}
            ∧ streamRef (refs (disconnect settled s)) ≠ Some i).
  { intros settled.
    assert (D : streams (world (disconnect true s)) !! i
                = Some {| tracks_live := true |}
                ∧ streamRef (refs (disconnect true s)) ≠ Some i).
    { destruct (disconnect_teardown s) as (_ & _ & _ & _ & -> & _).
      destruct (disconnect_refs_kept s) as (_ & -> & _).
      split; [|exact Hr]. unfold stop_tracks.
      destruct (streamRef (refs s)) as [j|]; [|exact Hl].
      rewrite list_lookup_insert_ne by congruence. exact Hl. }
    destruct settled; [exact D|].
    destruct (disconnect_unsettled s) as [->| ->]; auto. }
  destruct e as [env|session|env m| | |source|settled]; cbn [handle].
  - unfold click. destruct (button_disabled s); [auto|].
    destruct (isConnected (ui s)); [apply Disc|].
    destruct (connect_acquires_or_not (click_connect env) s)
      as [(-> & ->)|(-> & ->)]; [auto|].
    pose proof (lookup_lt_Some _ _ _ Hl).
    split; [rewrite lookup_app_l by assumption; exact Hl|].
    intros [= E]. lia.
  - assert (O : streams (world (onopen session s)) = streams (world s)
                ∧ streamRef (refs (onopen session s)) = streamRef (refs s)).
    { unfold onopen. cbn.
      destruct (inputContextRef (refs s)), (streamRef (refs s)) eqn:E;
        cbn; rewrite ?E; auto. }
    destruct O as [-> ->]. auto.
  - destruct (render_frame (renderNow env) (post (onmessage env m s)))
      as (-> & -> & _).
    destruct (onmessage_stream env m s) as [-> ->]. auto.
  - auto.
  - auto.
  - auto.
  - apply Disc.
Qed.

Lemma orphan_stream_forever (events : list Event) (i : nat) : ∀ s,
  streams (world s) !! i = Some {| tracks_live := true |} →
  streamRef (refs s) ≠ Some i →
  streams (world (run_events events s)) !! i = Some {| tracks_live := true |}.
Proof.
  induction events as [|e events IH]; intros s Hl Hr; [exact Hl|].
  destruct (orphan_stream_step e s i Hl Hr) as [Hl' Hr'].
  exact (IH _ Hl' Hr').
Qed.

(** X18. The microphone outlives a session the remote side ended. When a close
    or an error of the remote side finds a live stream and the user
    connects again, the new stream takes the place of the old one in
    [streamRef], and no later event, [disconnect] and the unmount included,
    stops the tracks of the old one. *)
Theorem microphone_outlives_remote_close (s : State) (i : nat) (e : Event)
    (env : ClickEnv) (rest : list Event) :
  streamRef (refs s) = Some i →
  streams (world s) !! i = Some {| tracks_live := true |} →
  permissionDenied (ui s) = false →
  e = Close ∨ e = ErrorEvent →
  getUserMedia_fails (click_connect env) = None →
  new_GoogleGenAI_fails (click_connect env) = None →
  resume_fails (click_connect env) = None →
  streams (world (run_events (e :: Click env :: rest) s)) !! i
  = Some {| tracks_live := true |}.
Proof.
  intros Hr Hl Hp He Hg Ha Hres.
  change (run_events (e :: Click env :: rest) s)
    with (run_events rest (handle (Click env) (handle e s))).
  set (s1 := handle e s).
  assert (H1 : world s1 = world s ∧ refs s1 = refs s
               ∧ button_disabled s1 = false ∧ isConnected (ui s1) = false).
  { subst s1. destruct He as [-> | ->]; cbn [handle];
      unfold button_disabled; cbn; rewrite Hp; auto. }
  destruct H1 as (Hw & Hrf & Hb & Hc).
  assert (E : handle (Click env) s1 = connect (click_connect env) s1).
  { cbn [handle]. unfold click. rewrite Hb, Hc. reflexivity. }
  rewrite E.
  destruct (connect_granted (click_connect env) s1 Hres Ha Hg)
    as (_ & _ & Hst & _ & Hsr).
  pose proof (lookup_lt_Some _ _ _ Hl) as Hlt.
  apply orphan_stream_forever.
  - rewrite Hst, Hw, lookup_app_l by exact Hlt. exact Hl.
  - rewrite Hsr, Hw. intros [= Ei]. lia.
Qed.

Lemma microphone_outlives_remote_close_witness :
  streams (world (run_events
                    [ Close; Click clicking; Open 1; Click clicking;
                      Unmount true ] live)) !! 0%nat
  = Some {| tracks_live := true |}.
Proof.
  apply (microphone_outlives_remote_close live 0 Close clicking
           [ Open 1; Click clicking; Unmount true ]);
    first [ reflexivity | vm_compute; reflexivity | left; reflexivity ].
Defined.

(** ** The script processor *)

(** A granted [connect] does not end in the catch block. *)
Lemma connect_status_of_catch (e : Exception) (env : ConnectEnv) (s : State) :
  connect env s = connect_catch e (fst (initAudio env (connect_reset s))) →
  resume_fails env = None → new_GoogleGenAI_fails env = None →
  getUserMedia_fails env = None → False.
Proof.
  intros Hk Hres Ha Hg.
  destruct (connect_granted env s Hres Ha Hg) as (Hst & _).
  rewrite Hk in Hst.
  destruct (connect_catch_spec e (fst (initAudio env (connect_reset s))))
    as (_ & _ & Hs & _).
  rewrite Hs in Hst. discriminate.
Qed.

Lemma before_audio_processor env m s :
  processorRef (refs (before_audio env m s)) = processorRef (refs s).
Proof.
  unfold before_audio, on_turnComplete, commitTurn, commit_user, commit_model,
    enqueue, on_outputTranscription, on_inputTranscription.
  repeat match goal with
         | |- context [if ?b then _ else _] => destruct b
         end; reflexivity.
Qed.

Lemma onmessage_processor env m s :
  processors (world (post (onmessage env m s))) = processors (world s)
  ∧ processorRef (refs (post (onmessage env m s))) = processorRef (refs s).
Proof.
  destruct (before_audio_frame env m s) as (Hw & _).
  pose proof (before_audio_processor env m s) as Hr.
  rewrite onmessage_unfold.
  destruct (on_audio_cases env m (before_audio env m s))
    as [E|[[e E]|(buf & _ & E)]]; rewrite E; cbn [thrown post];
    try (unfold on_interrupted; destruct (interrupted m)); cbn;
    rewrite Hw, Hr; auto.
Qed.

Lemma onopen_processor (session : nat) (s : State) :
  (processors (world (onopen session s)) = processors (world s)
   ∧ processorRef (refs (onopen session s)) = processorRef (refs s)
   ∧ (inputContextRef (refs s) = None ∨ streamRef (refs s) = None))
  ∨ (processors (world (onopen session s))
     = processors (world s)
       ++ [ {| proc_session := session; proc_connected := true |} ]
     ∧ processorRef (refs (onopen session s))
       = Some (length (processors (world s)))).
Proof.
  unfold onopen. cbn.
  destruct (inputContextRef (refs s)), (streamRef (refs s)); cbn; auto.
Qed.

(** A processor is disconnected only through [processorRef]: a processor
    the ref does not name stays as it is, and unnamed, whatever event
    comes. *)
Lemma orphan_processor_step (e : Event) (s : State) (p : nat) (x : Processor) :
  processors (world s) !! p = Some x →
  processorRef (refs s) ≠ Some p →
  processors (world (handle e s)) !! p = Some x
  ∧ processorRef (refs (handle e s)) ≠ Some p.
Proof.
  intros Hl Hr.
  assert (Disc : ∀ settled,
            processors (world (disconnect settled s)) !! p = Some x
            ∧ processorRef (refs (disconnect settled s)) ≠ Some p).
  { intros settled.
    assert (D : processors (world (disconnect true s)) !! p = Some x
                ∧ processorRef (refs (disconnect true s)) ≠ Some p).
    { destruct (disconnect_teardown s) as (_ & _ & _ & _ & _ & -> & _).
      destruct (disconnect_refs_kept s) as (_ & _ & ->).
      split; [|exact Hr]. unfold disconnect_processor.
      destruct (processorRef (refs s)) as [j|]; [|exact Hl].
      rewrite list_lookup_alter_ne by congruence. exact Hl. }
    destruct settled; [exact D|].
    destruct (disconnect_unsettled s) as [->| ->]; auto. }
  destruct e as [env|session|env m| | |source|settled]; cbn [handle].
  - unfold click. destruct (button_disabled s); [auto|].
    destruct (isConnected (ui s)); [apply Disc|].
    destruct (connect_frame (click_connect env) s) as (_ & _ & _ & _ & -> & ->).
    auto.
  - destruct (onopen_processor session s) as [(-> & -> & _)|(-> & ->)]; [auto|].
    pose proof (lookup_lt_Some _ _ _ Hl).
    split; [rewrite lookup_app_l by assumption; exact Hl|].
    intros [= E]. lia.
  - destruct (render_frame (renderNow env) (post (onmessage env m s)))
      as (-> & -> & _).
    destruct (onmessage_processor env m s) as [-> ->]. auto.
  - auto.
  - auto.
  - auto.
  - apply Disc.
Qed.

Lemma orphan_processor_forever (events : list Event) (p : nat) (x : Processor) :
  ∀ s, processors (world s) !! p = Some x →
       processorRef (refs s) ≠ Some p →
       processors (world (run_events events s)) !! p = Some x.
Proof.
  induction events as [|e events IH]; intros s Hl Hr; [exact Hl|].
  destruct (orphan_processor_step e s p x Hl Hr) as [Hl' Hr'].
  exact (IH _ Hl' Hr').
Qed.

Lemma initAudio_input_context (env : ConnectEnv) (s : State) :
  is_Some (inputContextRef (refs (fst (initAudio env s)))).
Proof.
  unfold initAudio.
  destruct (audioContextRef (refs s)) as [c|];
    destruct (inputContextRef (refs s)) as [i|] eqn:Ei; cbn;
    rewrite ?Ei; cbn;
    repeat match goal with
           | |- context [match ?x with _ => _ end] => destruct x; cbn
           end; rewrite ?Ei; eauto.
Qed.

(** X19. The capture graph outlives a session the remote side ended. When a
    close or an error of the remote side finds a connected processor and
    the user connects again, the session that opens gets a processor of its
    own, which takes the place of the old one in [processorRef]; the old one
    is never disconnected by any later event, and stays bound to the session
    of the [connect] call that made it. *)
Theorem processor_outlives_remote_close (s : State) (p session : nat)
    (x : Processor) (e : Event) (env : ClickEnv) (rest : list Event) :
  processorRef (refs s) = Some p →
  processors (world s) !! p = Some x →
  permissionDenied (ui s) = false →
  e = Close ∨ e = ErrorEvent →
  getUserMedia_fails (click_connect env) = None →
  new_GoogleGenAI_fails (click_connect env) = None →
  resume_fails (click_connect env) = None →
  processors (world (run_events (e :: Click env :: Open session :: rest) s))
  !! p = Some x.
Proof.
  intros Hr Hl Hp He Hg Ha Hres.
  change (run_events (e :: Click env :: Open session :: rest) s)
    with (run_events rest
            (onopen session (handle (Click env) (handle e s)))).
  set (s1 := handle e s).
  assert (H1 : world s1 = world s ∧ refs s1 = refs s
               ∧ button_disabled s1 = false ∧ isConnected (ui s1) = false).
  { subst s1. destruct He as [-> | ->]; cbn [handle];
      unfold button_disabled; cbn; rewrite Hp; auto. }
  destruct H1 as (Hw & Hrf & Hb & Hc).
  assert (E : handle (Click env) s1 = connect (click_connect env) s1).
  { cbn [handle]. unfold click. rewrite Hb, Hc. reflexivity. }
  rewrite E. set (s2 := connect (click_connect env) s1).
  destruct (connect_frame (click_connect env) s1)
    as (_ & _ & _ & _ & Hps & Hpr).
  destruct (connect_granted (click_connect env) s1 Hres Ha Hg)
    as (_ & _ & _ & _ & Hsr).
  assert (Hin : is_Some (inputContextRef (refs s2))).
  { subst s2.
    pose proof (initAudio_input_context (click_connect env) (connect_reset s1))
      as Hi.
    destruct (connect_cases (click_connect env) s1)
      as [(e' & _ & Hk)|[((y & Hy) & _)|(_ & Hk)]].
    - destruct (connect_status_of_catch e' (click_connect env) s1 Hk
                  Hres Ha Hg).
    - rewrite Hg in Hy. discriminate.
    - rewrite Hk. exact Hi. }
  fold s2 in Hps, Hpr, Hsr.
  pose proof (lookup_lt_Some _ _ _ Hl) as Hlt.
  apply orphan_processor_forever.
  - destruct (onopen_processor session s2) as [(_ & _ & [Hn|Hn])|(-> & _)].
    + rewrite Hn in Hin. destruct Hin. discriminate.
    + rewrite Hsr in Hn. discriminate.
    + rewrite Hps, Hw, lookup_app_l by exact Hlt. exact Hl.
  - destruct (onopen_processor session s2) as [(_ & _ & [Hn|Hn])|(_ & ->)].
    + rewrite Hn in Hin. destruct Hin. discriminate.
    + rewrite Hsr in Hn. discriminate.
    + rewrite Hps, Hw. intros [= Ei]. lia.
Qed.

Lemma processor_outlives_remote_close_witness :
  processors (world (run_events
                       [ Close; Click clicking; Open 1; Click clicking;
                         Unmount true ] live)) !! 0%nat
  = Some {| proc_session := 0; proc_connected := true |}.
Proof.
  apply (processor_outlives_remote_close live 0 1
           {| proc_session := 0; proc_connected := true |} Close clicking
           [ Click clicking; Unmount true ]);
    first [ reflexivity | vm_compute; reflexivity | left; reflexivity ].
Defined.

(** ** A refused microphone *)

(** X20. Whatever makes [getUserMedia] reject (a refusal, a missing device, a
    hardware error), [connect] reports a denied permission: the outcome
    does not depend on the exception, the status is [error], the flag
    [permissionDenied] is set, the message is the one about microphone
    access, the button is disabled, and no session is opened. *)
Theorem any_microphone_failure_reads_as_denied (state : AudioContextState)
    (permError : Exception) (s : State) :
  let s' := connect (microphone_fails state permError) s in
  s' = connect (microphone_fails state microphone_error) s
  ∧ status (ui s') = error
  ∧ permissionDenied (ui s') = true
  ∧ errorMessage (ui s')
    = lit "Microphone access was denied. Please allow microphone permissions in your browser settings and reload the page."
  ∧ button_disabled s' = true
  ∧ sessions (world s') = sessions (world s)
  ∧ streams (world s') = streams (world s).
Proof.
  cbv zeta.
  assert (E : ∀ e, connect (microphone_fails state e) s
                   = connect_catch microphone_error
                       (upd_ui (set_permissionDenied true)
                          (fst (initAudio (microphone_fails state e)
                                  (connect_reset s))))).
  { intros e.
    destruct (connect_cases (microphone_fails state e) s)
      as [(e' & [He|He] & Hk)|[(_ & Hk)|(Hg & _)]];
      [ | discriminate | exact Hk | discriminate ].
    destruct (initAudio_spec (microphone_fails state e) (connect_reset s))
      as (_ & _ & _ & _ & _ & _ & _ & _ & _ & _ & [Hn|Hn]);
      rewrite Hn in He; discriminate. }
  assert (I : ∀ e, fst (initAudio (microphone_fails state e) (connect_reset s))
                   = fst (initAudio (microphone_fails state microphone_error)
                            (connect_reset s))) by reflexivity.
  split; [rewrite (E permError), (E microphone_error), (I permError); reflexivity|].
  destruct (connect_permission_denied (microphone_fails state permError) s)
    as (Hst & Hpd & _ & _ & Hse & _ & Hstr & _);
    [reflexivity | reflexivity | eexists; reflexivity |].
  split_ands; [exact Hst | exact Hpd | | | exact Hse | exact Hstr].
  - rewrite (E permError). unfold connect_catch.
    change (includes (lit "Microphone") (ex_message microphone_error))
      with true. reflexivity.
  - unfold button_disabled. rewrite Hpd. reflexivity.
Qed.

(** ** AudioTools: the WAV file *)

Import AudioTools.

Lemma write_at_ok (view : list byte) (off : nat) (bs : list byte) :
  (off + length bs <= length view)%nat →
  write_at view off bs
  = Ok (take off view ++ bs ++ drop (off + length bs) view).
Proof.
  intros H. unfold write_at.
  destruct (Nat.leb_spec (off + length bs) (length view)); [reflexivity|lia].
Qed.

(** The loop over the samples fills the rest of the buffer with their
    bytes, low byte first, and never stores out of bounds. *)
Lemma write_samples_spec (samples : list Z) : ∀ (view : list byte) (off : nat),
  length view = (off + 2 * length samples)%nat →
  write_samples view off samples
  = Ok (take off view ++ flat_map int16_bytes samples).
Proof.
  induction samples as [|x r IH]; intros view off Hl; cbn [write_samples].
  - cbn in Hl. rewrite Nat.add_0_r in Hl.
    rewrite firstn_all2 by lia. cbn. rewrite app_nil_r. reflexivity.
  - cbn [length] in Hl. unfold setInt16.
    rewrite write_at_ok by (cbn [length int16_bytes]; lia).
    cbn [mbind result_bind].
    assert (L2 : length (int16_bytes x) = 2%nat) by reflexivity.
    rewrite IH.
    + f_equal. cbn [flat_map].
      rewrite app_assoc, take_app_length'
        by (rewrite length_app, length_take, L2; lia).
      rewrite <- app_assoc. reflexivity.
    + rewrite !length_app, length_take, length_drop, L2. lia.
Qed.

Lemma le_value_uint16 (v : Z) : le_value (int16_bytes v) = (v mod 65536)%Z.
Proof.
  unfold int16_bytes. cbn [le_value]. rewrite !to_uint8_value.
  rewrite !N2Z.inj_mod, !Z2N.id
    by (first [apply Z.mod_pos_bound | apply Z.div_pos]; try lia;
        apply Z.mod_pos_bound; lia).
  lia.
Qed.

Lemma le_value_uint32 (v : Z) :
  le_value (uint32_bytes v) = (v mod 4294967296)%Z.
Proof.
  unfold uint32_bytes. cbn [le_value]. rewrite !to_uint8_value.
  pose proof (Z.mod_pos_bound v 4294967296 ltac:(lia)) as B.
  set (u := (v mod 4294967296)%Z) in *. clearbody u.
  rewrite !N2Z.inj_mod, !Z2N.id
    by (first [apply Z.mod_pos_bound | apply Z.div_pos]; lia).
  lia.
Qed.

(** Runs the first store of a sequence on the buffer built so far. *)
Ltac run_store :=
  lazymatch goal with
  | |- mbind ?f ?w = _ =>
      let w' := eval cbn [replicate app writeString setUint8 setUint16
                          setUint32 write_at uint32_bytes int16_bytes mbind
                          result_bind firstn skipn length Nat.leb Nat.add
                          lit map list_ascii_of_string] in w in
      change (mbind f w) with (mbind f w'); cbn [mbind result_bind];
      rewrite ?drop_0
  end.

(** The bytes [createWavBlob] produces: it never throws, and the buffer is
    the 44 bytes of the header followed by the samples. *)
Lemma createWavBlob_bytes (samples : list Z) (rate : Z) :
  createWavBlob samples rate
  = Ok {| blob_bytes :=
            map to_uint8 (lit "RIFF")
            ++ uint32_bytes (Z.of_nat (36 + length samples * 2))
            ++ map to_uint8 (lit "WAVE") ++ map to_uint8 (lit "fmt ")
            ++ uint32_bytes 16 ++ int16_bytes 1 ++ int16_bytes 1
            ++ uint32_bytes rate ++ uint32_bytes (rate * 2)
            ++ int16_bytes 2 ++ int16_bytes 16
            ++ map to_uint8 (lit "data")
            ++ uint32_bytes (Z.of_nat (length samples * 2))
            ++ flat_map int16_bytes samples;
          blob_type := lit "audio/wav" |}.
Proof.
  unfold createWavBlob. cbv zeta. unfold new_ArrayBuffer.
  set (n2 := (length samples * 2)%nat).
  assert (Hn : length (replicate n2 "000"%byte) = (2 * length samples)%nat)
    by (rewrite length_replicate; lia).
  set (tail := replicate n2 "000"%byte) in *.
  change (replicate (44 + n2) "000"%byte)
    with (replicate 44 "000"%byte ++ tail).
  clearbody tail.
  set (size := Z.of_nat (36 + n2)). set (dsize := Z.of_nat n2).
  do 13 run_store.
  rewrite write_samples_spec by (cbn [length]; lia).
  cbn [mbind result_bind firstn app]. reflexivity.
Qed.

Lemma createWavBlob_is_a_wav_shape (samples : list Z) (rate : Z) :
  ∃ file,
    createWavBlob samples rate
    = Ok {| blob_bytes := file; blob_type := lit "audio/wav" |}
    ∧ length file = (44 + 2 * length samples)%nat.
Proof.
  eexists. split; [apply createWavBlob_bytes|].
  rewrite !length_app, flat_map_int16_bytes_length. cbn. lia.
Qed.

(** X21. [createWavBlob] never throws and writes a RIFF/WAVE file: the four tags
    in their places, a 16-byte format chunk declaring uncompressed PCM, one
    channel, two bytes a frame and 16 bits a sample, the sample rate and
    twice the sample rate as the byte rate, the two sizes (modulo 2^32),
    and from byte 44 on the samples, two bytes each, low byte first; the
    blob is typed audio/wav. *)
Theorem createWavBlob_is_a_wav_file (samples : list Z) (rate : Z) :
  ∃ file,
    createWavBlob samples rate
    = Ok {| blob_bytes := file; blob_type := lit "audio/wav" |}
    ∧ length file = (44 + 2 * length samples)%nat
    ∧ tag file 0 4 = lit "RIFF"
    ∧ field file 4 4 = (Z.of_nat (36 + length samples * 2) mod 4294967296)%Z
    ∧ tag file 8 4 = lit "WAVE"
    ∧ tag file 12 4 = lit "fmt "
    ∧ field file 16 4 = 16%Z
    ∧ field file 20 2 = 1%Z
    ∧ field file 22 2 = 1%Z
    ∧ field file 24 4 = (rate mod 4294967296)%Z
    ∧ field file 28 4 = (rate * 2 mod 4294967296)%Z
    ∧ field file 32 2 = 2%Z
    ∧ field file 34 2 = 16%Z
    ∧ tag file 36 4 = lit "data"
    ∧ field file 40 4 = (Z.of_nat (length samples * 2) mod 4294967296)%Z
    ∧ drop 44 file = flat_map int16_bytes samples.
Proof.
  eexists. split; [apply createWavBlob_bytes|].
  set (size := Z.of_nat (36 + length samples * 2)).
  set (dsize := Z.of_nat (length samples * 2)).
  set (payload := flat_map int16_bytes samples).
  assert (Hp : length payload = (2 * length samples)%nat)
    by apply flat_map_int16_bytes_length.
  clearbody size dsize payload.
  split_ands.
  - rewrite !length_app, Hp. cbn. lia.
  - vm_compute. reflexivity.
  - exact (le_value_uint32 size).
  - vm_compute. reflexivity.
  - vm_compute. reflexivity.
  - exact (le_value_uint32 16).
  - exact (le_value_uint16 1).
  - exact (le_value_uint16 1).
  - exact (le_value_uint32 rate).
  - exact (le_value_uint32 (rate * 2)).
  - exact (le_value_uint16 2).
  - exact (le_value_uint16 16).
  - vm_compute. reflexivity.
  - exact (le_value_uint32 dsize).
  - reflexivity.
Qed.

(** X22. The header agrees with the file whenever the sizes fit 32 bits: the
    RIFF size is the file length less 8, the data size the file length less
    44, which is two bytes a sample, and the byte rate is the sample rate
    times the block align. *)
Theorem wav_header_is_consistent (samples : list Z) (rate : Z)
    (blob : FileBlob) :
  createWavBlob samples rate = Ok blob →
  (0 <= rate < 2147483648)%Z →
  (Z.of_nat (length samples) < 2147483626)%Z →
  let file := blob_bytes blob in
  field file 4 4 = (Z.of_nat (length file) - 8)%Z
  ∧ field file 40 4 = (Z.of_nat (length file) - 44)%Z
  ∧ field file 40 4 = (Z.of_nat (length samples) * field file 32 2)%Z
  ∧ field file 24 4 = rate
  ∧ field file 28 4 = (field file 24 4 * field file 32 2)%Z
  ∧ field file 32 2 = (field file 22 2 * (field file 34 2 / 8))%Z.
Proof.
  intros Hb Hr Hn. cbv zeta.
  set (size := Z.of_nat (36 + length samples * 2)).
  set (dsize := Z.of_nat (length samples * 2)).
  assert (F : length (blob_bytes blob) = (44 + 2 * length samples)%nat
              ∧ field (blob_bytes blob) 4 4 = (size mod 4294967296)%Z
              ∧ field (blob_bytes blob) 40 4 = (dsize mod 4294967296)%Z
              ∧ field (blob_bytes blob) 24 4 = (rate mod 4294967296)%Z
              ∧ field (blob_bytes blob) 28 4 = (rate * 2 mod 4294967296)%Z
              ∧ field (blob_bytes blob) 32 2 = 2%Z
              ∧ field (blob_bytes blob) 22 2 = 1%Z
              ∧ field (blob_bytes blob) 34 2 = 16%Z).
  { pose proof (f_equal (λ r, match r with
                                | Ok b => blob_bytes b
                                | Err _ => []
                                end) Hb) as Hf.
    rewrite createWavBlob_bytes in Hf.
    cbn [blob_bytes] in Hf. rewrite <- Hf. clear Hf Hb.
    set (payload := flat_map int16_bytes samples).
    assert (Hp : length payload = (2 * length samples)%nat)
      by apply flat_map_int16_bytes_length.
    fold size dsize. clearbody size dsize payload.
    split_ands.
    - rewrite !length_app, Hp. cbn. lia.
    - exact (le_value_uint32 size).
    - exact (le_value_uint32 dsize).
    - exact (le_value_uint32 rate).
    - exact (le_value_uint32 (rate * 2)).
    - exact (le_value_uint16 2).
    - exact (le_value_uint16 1).
    - exact (le_value_uint16 16). }
  destruct F as (-> & -> & -> & -> & -> & -> & -> & ->).
  subst size dsize.
  split_ands; lia.
Qed.

Lemma wav_header_is_consistent_witness :
  ∃ blob, createWavBlob [ 1; -2; 3 ]%Z 24000 = Ok blob
          ∧ field (blob_bytes blob) 4 4 = 42%Z
          ∧ field (blob_bytes blob) 40 4 = 6%Z
          ∧ field (blob_bytes blob) 28 4 = 48000%Z.
Proof.
  eexists.
  assert (H : createWavBlob [ 1; -2; 3 ]%Z 24000 = Ok _)
    by (vm_compute; reflexivity).
  split; [exact H|].
  destruct (wav_header_is_consistent [ 1; -2; 3 ]%Z 24000 _ H)
    as (H1 & H2 & _ & H4 & H5 & _); [lia | cbn; lia |].
  split_ands; [exact H1 | exact H2 |].
  vm_compute. reflexivity.
Defined.

(** ** AudioTools: the speech handler *)

Lemma fill_playback_from_spec (d : list Z) : ∀ fuel i (cd : list number),
  length cd = length d → (i + fuel = length d)%nat →
  fill_playback_from fuel i d cd = take i cd ++ map pcm16ToFloat (drop i d).
Proof.
  induction fuel as [|fuel IH]; intros i cd Hl Hi.
  - cbn. rewrite Nat.add_0_r in Hi. subst i.
    rewrite drop_all, <- Hl, firstn_all. cbn. rewrite app_nil_r. reflexivity.
  - cbn [fill_playback_from].
    replace (i <? length d)%nat with true by (symmetry; apply Nat.ltb_lt; lia).
    destruct (lookup_lt_is_Some_2 d i ltac:(lia)) as [x Hx].
    rewrite Hx, IH by (rewrite ?length_insert; lia).
    rewrite (take_S_r _ _ (pcm16ToFloat x))
      by (apply list_lookup_insert_eq; lia).
    rewrite take_insert_ge by lia.
    rewrite (drop_S d x i Hx). cbn [map]. rewrite <- app_assoc. reflexivity.
Qed.

(** The bytes of the samples read from a buffer of even length are the
    buffer. *)
Lemma int16_bytes_pairs (bs : list byte) :
  Nat.even (length bs) = true → flat_map int16_bytes (int16_pairs bs) = bs.
Proof.
  induction bs as [|a|lo hi r IH] using list_ind_pairs; intros He;
    [reflexivity | discriminate |].
  cbn [int16_pairs flat_map]. rewrite IH by exact He.
  unfold int16_bytes, int16_of_bytes, wrap16. cbv zeta. cbn [app].
  pose proof (Byte.to_N_bounded lo). pose proof (Byte.to_N_bounded hi).
  set (l := Byte.to_N lo) in *. set (h := Byte.to_N hi) in *.
  replace (Z.to_N ((((Z.of_N l + 256 * Z.of_N h + 32768) mod 65536 - 32768)
                    mod 65536) mod 256)) with l by lia.
  replace (Z.to_N ((((Z.of_N l + 256 * Z.of_N h + 32768) mod 65536 - 32768)
                    mod 65536) / 256)) with h by lia.
  subst l h. change (Byte.to_N lo) with (fromCharCode lo).
  change (Byte.to_N hi) with (fromCharCode hi).
  rewrite !to_uint8_fromCharCode. reflexivity.
Qed.

(** The body of the handler against the decoder of the live path: it
    throws exactly when that decoder rejects the payload, and otherwise
    plays the buffer that decoder gives and offers the received bytes
    behind a WAV header. *)
Lemma speak_cases (base64Audio : jsstring) (s : TtsState) :
  let s0 := set_audioContexts (S (audioContexts s)) s in
  let g := length (gainNodes s) in
  match speech_of (Resolved (Some base64Audio)) with
  | Some (bytes, buf) =>
      ∃ wav,
        createWavBlob (int16_pairs bytes) 24000 = Ok wav
        ∧ drop 44 (blob_bytes wav) = bytes
        ∧ speak base64Audio s
          = (set_audioDownloadUrl (Some (length (objectURLs s)))
               (set_objectURLs (objectURLs s ++ [ wav ])
                  (set_startedSources (startedSources s ++ [ (buf, g) ])
                     (set_activeGainNode (Some g)
                        (set_gainNodes (gainNodes s ++ [ volume s ]) s0)))),
             None)
  | None =>
      truthy base64Audio = true → ∃ e, speak base64Audio s = (s0, Some e)
  end.
Proof.
  cbv zeta. unfold speech_of, speak, decodeAudioData.
  destruct (truthy base64Audio); [|discriminate].
  destruct (Base64.atob base64Audio) as [binaryString|]; cbn [mbind option_bind];
    [|intros _; eexists; reflexivity].
  set (bytes := map to_uint8 binaryString).
  unfold convertPCMToAudioBuffer, Int16Array_of_buffer.
  destruct (Nat.even (length bytes)) eqn:Ev; [|intros _; eexists; reflexivity].
  rewrite Nat.div_1_r.
  set (d := int16_pairs bytes).
  destruct (createBuffer_cases 1 (length d) 24000)
    as [[_ ->]|(_ & Hn & ->)]; [intros _; eexists; reflexivity|].
  cbn [numberOfChannels ab_length sampleRate channelData replicate imap].
  unfold fill_channel, fill_playback.
  rewrite fill_channel_mono by (rewrite ?length_replicate; lia).
  rewrite fill_playback_from_spec by (rewrite ?length_replicate; lia).
  subst d. rewrite createWavBlob_bytes.
  eexists. split_ands; [reflexivity | | reflexivity].
  cbn [blob_bytes]. rewrite int16_bytes_pairs by exact Ev.
  reflexivity.
Qed.

(** X23. The speech handler and the live path decode alike. When the decoder
    of the live path accepts the reply, [handleGenerateSpeech] starts one
    source with exactly the buffer that decoder gives, through a new gain
    node set to the volume, which becomes the active one; it offers for
    download a blob typed audio/wav whose bytes after the 44-byte header
    are the bytes received; it logs nothing and ends with the loading flag
    down. *)
Theorem speech_plays_and_offers_download (reply : Reply) (s : TtsState)
    (bytes : list byte) (buf : AudioBuffer) :
  truthy (ttsText s) = true →
  speech_of reply = Some (bytes, buf) →
  let s' := handleGenerateSpeech reply s in
  let g := length (gainNodes s) in
  ttsLoading s' = false
  ∧ startedSources s' = startedSources s ++ [ (buf, g) ]
  ∧ gainNodes s' = gainNodes s ++ [ volume s ]
  ∧ activeGainNode s' = Some g
  ∧ consoleErrors s' = consoleErrors s
  ∧ audioDownloadUrl s' = Some (length (objectURLs s))
  ∧ ∃ wav, objectURLs s' = objectURLs s ++ [ wav ]
           ∧ blob_type wav = lit "audio/wav"
           ∧ length (blob_bytes wav) = (44 + length bytes)%nat
           ∧ drop 44 (blob_bytes wav) = bytes.
Proof.
  intros Ht Hs. cbv zeta.
  destruct reply as [|[p|]]; try discriminate.
  assert (Hp : truthy p = true).
  { unfold speech_of in Hs. destruct (truthy p); [reflexivity|discriminate]. }
  unfold handleGenerateSpeech. rewrite Ht, Hp.
  pose proof (speak_cases p (set_audioDownloadUrl None (set_ttsLoading true s)))
    as C.
  cbv zeta in C. rewrite Hs in C. destruct C as (wav & Hw & Hd & ->).
  assert (Hty : blob_type wav = lit "audio/wav"
                ∧ length (blob_bytes wav) = (44 + length bytes)%nat).
  { destruct (createWavBlob_is_a_wav_shape (int16_pairs bytes) 24000)
      as (file & Hf & Hl). rewrite Hw in Hf.
    assert (E : wav = {| blob_bytes := file; blob_type := lit "audio/wav" |})
      by congruence.
    rewrite E. cbn [blob_type blob_bytes]. split; [reflexivity|].
    rewrite E in Hd. cbn [blob_bytes] in Hd.
    rewrite <- (take_drop 44 file), length_app, Hd, length_take, Hl. lia. }
  destruct Hty as [Hty Hlen].
  split_ands; try reflexivity.
  exists wav. split_ands; [reflexivity | exact Hty | exact Hlen | exact Hd].
Qed.

Lemma speech_plays_and_offers_download_witness :
  startedSources (handleGenerateSpeech (Resolved (Some one_sample)) ready)
  = [ ({| numberOfChannels := 1; ab_length := 1; sampleRate := 24000;
          channelData := [ [ pcm16ToFloat 0 ] ] |}, 0%nat) ]
  ∧ gainNodes (handleGenerateSpeech (Resolved (Some one_sample)) ready)
    = [ (1 # 2)%Q ]
  ∧ audioDownloadUrl (handleGenerateSpeech (Resolved (Some one_sample)) ready)
    = Some 0%nat.
Proof.
  assert (Hs : speech_of (Resolved (Some one_sample))
               = Some ([ "000"; "000" ]%byte,
                       {| numberOfChannels := 1; ab_length := 1;
                          sampleRate := 24000;
                          channelData := [ [ pcm16ToFloat 0 ] ] |}))
    by (vm_compute; reflexivity).
  destruct (speech_plays_and_offers_download (Resolved (Some one_sample))
              ready _ _ eq_refl Hs) as (_ & H1 & H2 & _ & _ & H3 & _).
  split_ands; [exact H1 | exact H2 | exact H3].
Defined.

(** X24. A failure of the speech handler is contained. When the reply is a
    rejection, carries no payload, or carries one the decoder of the live
    path rejects (a foreign character, an odd number of bytes, no sample at
    all), nothing is played, no gain node is made or activated, no blob is
    created, no download is offered (the previous link is gone) and the
    loading flag is down. *)
Theorem speech_failure_is_contained (reply : Reply) (s : TtsState) :
  truthy (ttsText s) = true →
  speech_of reply = None →
  let s' := handleGenerateSpeech reply s in
  ttsLoading s' = false
  ∧ audioDownloadUrl s' = None
  ∧ startedSources s' = startedSources s
  ∧ gainNodes s' = gainNodes s
  ∧ activeGainNode s' = activeGainNode s
  ∧ objectURLs s' = objectURLs s
  ∧ volume s' = volume s.
Proof.
  intros Ht Hs. cbv zeta. unfold handleGenerateSpeech. rewrite Ht.
  destruct reply as [|[p|]]; [split_ands; reflexivity | | split_ands; reflexivity].
  destruct (truthy p) eqn:Hp; [|split_ands; reflexivity].
  pose proof (speak_cases p (set_audioDownloadUrl None (set_ttsLoading true s)))
    as C.
  cbv zeta in C. rewrite Hs in C. destruct (C Hp) as [e ->].
  split_ands; reflexivity.
Qed.

Lemma speech_failure_is_contained_witness :
  audioDownloadUrl (handleGenerateSpeech (Resolved (Some odd_payload)) ready)
  = None
  ∧ startedSources (handleGenerateSpeech (Resolved (Some odd_payload)) ready)
    = []
  ∧ consoleErrors (handleGenerateSpeech (Resolved (Some odd_payload)) ready)
    = 1%nat.
Proof.
  assert (Hs : speech_of (Resolved (Some odd_payload)) = None)
    by (vm_compute; reflexivity).
  destruct (speech_failure_is_contained (Resolved (Some odd_payload)) ready
              eq_refl Hs) as (_ & H1 & H2 & _).
  split_ands; [exact H1 | exact H2 | vm_compute; reflexivity].
Defined.

(** ** ChatInterface *)

Import ChatInterface.








Lemma said_by_snoc (r : Role) (l : list ChatMessage) (m : ChatMessage) :
  said_by r (l ++ [ m ])
  = (said_by r l + match role m, r with
                   | user, user | model, model => 1
                   | _, _ => 0
                   end)%nat.
Proof.
  unfold said_by. rewrite List.filter_app, length_app. cbn [List.filter].
  destruct (role m), r; reflexivity.
Qed.

Lemma trim_nil : trim [] = [].
Proof. reflexivity. Qed.

(** X26. Every question gets one answer, with or without the voice input: in
    every state the component reaches, the user's messages are as many as
    the model's plus the calls still pending, and no message shown has an
    empty text (an empty or missing reply is shown as a placeholder, a
    failure as an error message). *)
Theorem every_question_is_answered_once (events : list ChatEvent) :
  let s := run events mounted in
  said_by user (messages s)
  = (said_by model (messages s) + length (inflight s))%nat
  ∧ Forall (λ m, truthy (text m) = true) (messages s).
Proof.
  cbv zeta.
  assert (H0 : said_by user (messages mounted)
               = (said_by model (messages mounted)
                  + length (inflight mounted))%nat
               ∧ Forall (λ m, truthy (text m) = true) (messages mounted))
    by (split; [reflexivity | constructor]).
  revert H0. generalize mounted.
  induction events as [|e events IH]; intros s Hs; [exact Hs|].
  apply IH. clear IH. destruct Hs as [Hc Hf].
  destruct e as [value|now|i now reply| |text]; cbn [handle];
    try (split; [exact Hc | exact Hf]).
  - unfold handleSend.
    destruct (truthy (trim (input s))) eqn:Et; cbn [negb orb];
      [|split; [exact Hc | exact Hf]].
    destruct (loading s); [split; [exact Hc | exact Hf]|].
    cbn [messages inflight]. rewrite !said_by_snoc, length_app. cbn.
    split; [lia|]. apply Forall_app. split; [exact Hf|].
    repeat constructor. cbn.
    destruct (input s); [rewrite trim_nil in Et; discriminate | reflexivity].
  - destruct (inflight s !! i) as [rq|] eqn:Ei; [|split; [exact Hc | exact Hf]].
    unfold settle. cbn [messages inflight].
    rewrite !said_by_snoc.
    pose proof (length_delete (inflight s) i (mk_is_Some _ _ Ei)) as Hd.
    pose proof (lookup_lt_Some _ _ _ Ei) as Hlt.
    split.
    + destruct reply; cbn; lia.
    + apply Forall_app. split; [exact Hf|]. repeat constructor.
      destruct reply as [|[t|]]; cbn; try reflexivity.
      destruct (truthy t) eqn:Ett; [exact Ett | reflexivity].
Qed.

(** With the voice input the flag [loading] is shared: a transcription
    that ends while a question is pending lowers it, a second question can
    be sent, and the turns no longer alternate. *)
Example voice_input_breaks_alternation :
  map role (messages (run spoken_meanwhile mounted))
  = [ user; user; model; model ]
  ∧ map text (messages (run spoken_meanwhile mounted))
    = [ lit "Hi"; lit "and you"; lit "No response generated.";
        lit "Hello!" ].
Proof. split; vm_compute; reflexivity. Qed.
